(** * slideshow-generator: layout arithmetic and page assembly

    A shallow embedding of the PDF slideshow generator (the TypeScript
    entry point with [getImageDimensions], [calculateImageSize],
    [addTitleSlide], [addImageSlide], [createPdfSlideshow], [getTimestamp]
    and [main], and [types.ts]).

    - JavaScript's [number] is IEEE 754 binary64; it is embedded as Rocq's
      primitive [float], which is the same format with the same rounding.
      The layout formula is written once over an interface of arithmetic
      operations, so that it can also be read over the exact rationals [Q].
    - Console output, PDFKit calls, file-system probes and [process.exit]
      are events of a trace; exceptions and [try]/[catch] are an outcome
      threaded through a small monad. The [await]s are sequential, so the
      order of the trace is the order of the program text.
    - The file system, Sharp, PDFKit's image decoder and text layout, the
      write stream and the clock are oracles collected in a record
      [World]. PDFKit opens a page of its own when a text runs past the
      bottom margin; how many it opens for a text is asked of the world.
      The stream may report an error while the program waits; the world
      says by which turn of the loop the error is ready. Where PDFKit
      places the image inside its fit box is not modelled. *)

From Stdlib Require Import Floats Uint63 ZArith QArith Qminmax Lqa Lia Bool List.
From Stdlib Require Import Strings.String Strings.Ascii DecimalString DecimalZ.
Import ListNotations.

Set Implicit Arguments.

(** ** Numbers *)

(** The operations [calculateImageSize] uses on numbers. *)
Class Arith (N : Type) : Type := {
  num_mul : N -> N -> N;
  num_div : N -> N -> N;
  Math_min : N -> N -> N
}.

(** [Math.min] of two binary64 numbers: [NaN] when either is [NaN], and
    [-0] is smaller than [+0]. *)
Definition float_min (a b : float) : float :=
  if (PrimFloat.is_nan a || PrimFloat.is_nan b)%bool then PrimFloat.nan
  else if PrimFloat.ltb a b then a
  else if PrimFloat.ltb b a then b
  else if (PrimFloat.is_zero a && PrimFloat.get_sign b)%bool then b
  else a.

(** What JavaScript computes. *)
#[export] Instance binary64 : Arith float := {
  num_mul := PrimFloat.mul;
  num_div := PrimFloat.div;
  Math_min := float_min
}.

(** The same operations without rounding. *)
#[export] Instance exact : Arith Q := {
  num_mul := Qmult;
  num_div := Qdiv;
  Math_min := Qmin
}.

(** [type ImageDimensions = { width: number; height: number }] *)
Record ImageDimensions (N : Type) : Type := {
  width : N;
  height : N
}.

Section Layout.
Context {N : Type} `{Arith N}.

(** Calculate image size to fit within bounds while maintaining aspect
    ratio. *)
Definition calculateImageSize
    (originalWidth originalHeight maxWidth maxHeight : N) : ImageDimensions N :=
  let widthRatio := num_div maxWidth originalWidth in
  let heightRatio := num_div maxHeight originalHeight in
  let scaleFactor := Math_min widthRatio heightRatio in
  {| width := num_mul originalWidth scaleFactor;
     height := num_mul originalHeight scaleFactor |}.
End Layout.

(** The scale factor of the contract:
    [min(boxWidth/naturalWidth, boxHeight/naturalHeight)]. *)
Definition fit_scale {N : Type} `{Arith N} (w h boxW boxH : N) : N :=
  Math_min (num_div boxW w) (num_div boxH h).

(** The fit contract read in binary64 with JavaScript's own comparisons:
    the result is the natural size times the scale factor, it fits the box,
    keeps the aspect ratio, and touches the box on one axis. *)
Definition fits_binary64 (w h boxW boxH : float) : Prop :=
  let r := calculateImageSize w h boxW boxH in
  let s := fit_scale w h boxW boxH in
  width r = PrimFloat.mul w s /\
  height r = PrimFloat.mul h s /\
  PrimFloat.leb (width r) boxW = true /\
  PrimFloat.leb (height r) boxH = true /\
  PrimFloat.eqb (PrimFloat.div (width r) (height r)) (PrimFloat.div w h) = true /\
  (PrimFloat.eqb (width r) boxW = true \/ PrimFloat.eqb (height r) boxH = true).

(** Applying [calculateImageSize] to its own output, same box. *)
Definition refit {N : Type} `{Arith N} (w h boxW boxH : N) : ImageDimensions N :=
  let r := calculateImageSize w h boxW boxH in
  calculateImageSize (width r) (height r) boxW boxH.

(** [0 < x] as JavaScript compares. *)
Definition positive64 (x : float) : Prop := PrimFloat.ltb 0 x = true.

(** ** Strings *)

(** A character of a [string] stands for one UTF-16 code unit of the
    JavaScript string; the code units used here are below 256. *)

Local Open Scope string_scope.

(** A JavaScript string is falsy exactly when it is empty. *)
Definition truthy (s : string) : bool := negb (String.eqb s "").

(** [n.toString()] for an integer [n]. *)
Definition Number_toString (n : Z) : string :=
  DecimalString.NilZero.string_of_int (Z.to_int n).

(** The first [n] characters of [pad] repeated; [cur] is what is left of the
    copy being written. *)
Fixpoint pad_fill (n : nat) (pad cur : string) : string :=
  match n with
  | O => EmptyString
  | S n' =>
      match cur with
      | String c rest => String c (pad_fill n' pad rest)
      | EmptyString =>
          match pad with
          | String c rest => String c (pad_fill n' pad rest)
          | EmptyString => EmptyString
          end
      end
  end.

(** [s.padStart(targetLength, padString)] *)
Definition padStart (s : string) (targetLength : nat) (padString : string) : string :=
  pad_fill (targetLength - String.length s) padString padString ++ s.

(** The character class [[a-zA-Z0-9]]. *)
Definition is_alnum (c : ascii) : bool :=
  let n := nat_of_ascii c in
  ((97 <=? n) && (n <=? 122) || (65 <=? n) && (n <=? 90) || (48 <=? n) && (n <=? 57))%nat%bool.

(** The line feed, ["\n"] in the source. *)
Definition newline : string := String "010" EmptyString.

(** [s.replace(/[^a-zA-Z0-9]/g, "_")] *)
Fixpoint replace_non_alnum (s : string) : string :=
  match s with
  | EmptyString => EmptyString
  | String c rest => String (if is_alnum c then c else "_"%char) (replace_non_alnum rest)
  end.

(** ** Configuration ([types.ts]) *)

(** [type ImageData = { src: string; caption?: string }] *)
Record ImageData : Type := {
  src : string;
  caption : option string
}.

(** [type SlideshowConfig = { title: string; subtitle: string; images: ImageData[] }].
    An element read by index can be [undefined] at run time, which the
    assembler's loop guards against, so an entry is optional. *)
Record SlideshowConfig : Type := {
  title : string;
  subtitle : string;
  images : list (option ImageData)
}.

(** ** Constants *)

Local Open Scope float_scope.

Definition MARGIN : float := 72.
Definition PAGE_WIDTH : float := 1920.
Definition PAGE_HEIGHT : float := 1080.
Definition CAPTION_FONT_SIZE : float := 26.
Definition TITLE_FONT_SIZE : float := 48.
Definition FONT : string := "Helvetica".

(** ** Effects *)

(** A thrown value: the message of the [Error]. *)
Definition Error : Type := string.

(** [console.log], [console.warn], [console.error]. *)
Inductive Level : Type := LOG | WARN | ERROR.

(** The only alignment the program asks for. *)
Inductive Align : Type := center.

(** What the program does to the outside, in order. [DocImage] is an image
    PDFKit drew, [DocImageThrew] a call of [doc.image] that threw;
    [doc.pipe(stream)] leaves no event. [Uncaught e] is the runtime
    reporting an ["error"] event of the stream that found no listener,
    which ends the process. *)
Inductive Event : Type :=
| Console (level : Level) (message : string) (cause : option Error)
| NewDocument (pageWidth pageHeight margin : float)
| CreateWriteStream (path : string)
| ExistsSync (path : string)
| SharpMetadata (path : string)
| DocImage (path : string) (x y fitWidth fitHeight : float) (align valign : Align)
| DocImageThrew (path : string)
| DocText (fontSize : float) (font text : string) (x y textWidth : float) (align : Align)
| AddPage
| DocEnd
| ProcessExit (code : Z)
| Uncaught (e : Error).

(** How a computation ends: it returns, it throws, or the process exits. *)
Inductive Outcome (A : Type) : Type :=
| Returns (a : A)
| Throws (e : Error)
| Exits (code : Z).
Arguments Throws {A} e.
Arguments Exits {A} code.

(** A computation: the events it causes and how it ends. *)
Definition M (A : Type) : Type := (list Event * Outcome A)%type.

(** Returning a value causes nothing. *)
Definition ret {A : Type} (a : A) : M A := ([], Returns a).

(** Sequencing: what follows runs only when the first part returns. *)
Definition bind {A B : Type} (m : M A) (k : A -> M B) : M B :=
  let (events, o) := m in
  match o with
  | Returns a => let (events', o') := k a in ((events ++ events')%list, o')
  | Throws e => (events, Throws e)
  | Exits c => (events, Exits c)
  end.

(** [throw e] *)
Definition throw {A : Type} (e : Error) : M A := ([], Throws e).

(** [try { m } catch (error) { handler error }] *)
Definition try_catch {A : Type} (m : M A) (handler : Error -> M A) : M A :=
  let (events, o) := m in
  match o with
  | Throws e => let (events', o') := handler e in ((events ++ events')%list, o')
  | _ => (events, o)
  end.

(** One event. *)
Definition emit (ev : Event) : M unit := ([ev], Returns tt).

Notation "x <- m ;; k" := (bind m (fun x => k))
  (at level 61, m at next level, right associativity).
Notation "m ;; k" := (bind m (fun _ => k))
  (at level 61, right associativity).

(** The two components of a computation. *)
Definition trace {A : Type} (m : M A) : list Event := fst m.
Definition outcome {A : Type} (m : M A) : Outcome A := snd m.

(** The console; [cause] is the error object passed after the message. *)
Definition console_log (message : string) : M unit := emit (Console LOG message None).
Definition console_warn (message : string) : M unit := emit (Console WARN message None).
Definition console_error (message : string) (cause : option Error) : M unit :=
  emit (Console ERROR message cause).

(** [process.exit(code)]: nothing runs after it. *)
Definition process_exit {A : Type} (code : Z) : M A := ([ProcessExit code], Exits code).

(** ** The outside world *)

(** [await Sharp(path).metadata()]: the promise rejects, or resolves to
    metadata whose [width] and [height] may be missing. *)
Inductive SharpOutcome : Type :=
| SharpRejects (e : Error)
| SharpResolves (metaWidth metaHeight : option float).

(** The local-time fields of [new Date()], as its getters return them. *)
Record LocalTime : Type := {
  getFullYear : Z;
  getMonth : Z;
  getDate : Z;
  getHours : Z;
  getMinutes : Z;
  getSeconds : Z
}.

(** Everything the program asks of its environment. *)
Record World : Type := {
  Fs_existsSync : string -> bool;
  Sharp_metadata : string -> SharpOutcome;
  (** [doc.image(path, ...)]: [None] when PDFKit draws it, [Some e] when it
      throws [e]. *)
  PDFKit_image : string -> option Error;
  (** [doc.fontSize(size).font(font).text(text, x, y, { width })]: the
      number of further pages PDFKit opens because the text runs past the
      bottom margin of its page. *)
  PDFKit_text_overflow : float -> string -> string -> float -> float -> float -> nat;
  (** The write stream: [None] for "finish", [Some e] for "error". *)
  stream_result : option Error;
  (** When the stream fails: the turn of the loop by which its "error"
      event is ready; the event is delivered the next time the program
      waits. *)
  stream_error_ready : nat;
  Date_now : LocalTime
}.

(** A metadata field is falsy when missing, zero or [NaN]. *)
Definition falsy_number (x : option float) : bool :=
  match x with
  | None => true
  | Some v => (PrimFloat.is_zero v || PrimFloat.is_nan v)%bool
  end.

(** The value of a metadata field that is present. *)
Definition number_or_zero (x : option float) : float :=
  match x with Some v => v | None => 0 end.

(** ** The program *)

Section Program.
Variable W : World.

(** Get image dimensions using sharp. *)
Definition getImageDimensions (imagePath : string) : M (option (ImageDimensions float)) :=
  try_catch
    (emit (SharpMetadata imagePath) ;;
     match Sharp_metadata W imagePath with
     | SharpRejects e => throw e
     | SharpResolves metaWidth metaHeight =>
         if (falsy_number metaWidth || falsy_number metaHeight)%bool
         then throw "Could not read image dimensions"%string
         else ret (Some {| width := number_or_zero metaWidth;
                           height := number_or_zero metaHeight |})
     end)
    (fun error =>
       console_error ("Error reading image " ++ imagePath ++ ":")%string (Some error) ;;
       ret None).

(** [doc.fontSize(size).font(font).text(text, x, y, { width, align })] *)
Definition doc_text (size : float) (font text : string) (x y textWidth : float)
    (align : Align) : M unit :=
  emit (DocText size font text x y textWidth align).

(** [doc.image(path, x, y, { fit: [fitWidth, fitHeight], align, valign })] *)
Definition doc_image (path : string) (x y fitWidth fitHeight : float)
    (align valign : Align) : M unit :=
  match PDFKit_image W path with
  | Some e => emit (DocImageThrew path) ;; throw e
  | None => emit (DocImage path x y fitWidth fitHeight align valign)
  end.

(** Add a title slide to the PDF. *)
Definition addTitleSlide (title subtitle : string) : M unit :=
  let availableWidth := PAGE_WIDTH - 2 * MARGIN in
  let centerX := PAGE_WIDTH / 2 in
  let centerY := PAGE_HEIGHT / 2 in
  let titleY := if truthy subtitle then centerY - 80 else centerY - 50 in
  let subtitleY := centerY - 20 in
  doc_text TITLE_FONT_SIZE FONT title MARGIN titleY availableWidth center ;;
  if truthy subtitle
  then doc_text TITLE_FONT_SIZE FONT subtitle MARGIN subtitleY availableWidth center
  else ret tt.

(** [if (imageData.caption)]: a caption that is present and not empty. *)
Definition caption_present (imageData : ImageData) : option string :=
  match caption imageData with
  | Some c => if truthy c then Some c else None
  | None => None
  end.

(** Add an image slide to the PDF. *)
Definition addImageSlide (imageData : ImageData) : M unit :=
  try_catch
    (dimensions <- getImageDimensions (src imageData) ;;
     match dimensions with
     | None => throw ("Could not get dimensions for " ++ src imageData)%string
     | Some dimensions =>
         let availableWidth := PAGE_WIDTH - 2 * MARGIN in
         let availableHeight := PAGE_HEIGHT - 2 * MARGIN in
         let captionHeight := 80 in
         let availableHeight := availableHeight - captionHeight in
         let imageX := MARGIN in
         let imageY := MARGIN in
         doc_image (src imageData) imageX imageY availableWidth availableHeight
           center center ;;
         let imageSize :=
           calculateImageSize (width dimensions) (height dimensions)
             availableWidth availableHeight in
         match caption_present imageData with
         | Some text =>
             let captionY := imageY + height imageSize + 30 in
             doc_text CAPTION_FONT_SIZE FONT text MARGIN captionY availableWidth center
         | None => ret tt
         end
     end)
    (fun error =>
       console_error ("Error adding image slide for " ++ src imageData ++ ":")%string
         (Some error)).

(** The error of the stream that waits to be delivered in turn [i] of the
    loop, if there is one. *)
Definition stream_error_pending (i : nat) : option Error :=
  match stream_result W with
  | Some e => if (stream_error_ready W <=? i)%nat then Some e else None
  | None => None
  end.

(** A computation cut at its first wait, the read by Sharp, by an error
    nobody listens for: the runtime reports the error and the process
    ends. [None] when the computation never waits. *)
Fixpoint interrupt (e : Error) (events : list Event) : option (list Event) :=
  match events with
  | [] => None
  | SharpMetadata path :: _ => Some [SharpMetadata path; Uncaught e]
  | ev :: events' => option_map (cons ev) (interrupt e events')
  end.

(** [await m] in turn [i] of the loop. While [m] waits for Sharp, the
    event loop delivers what is ready. The listeners of the stream are
    attached after the loop only, so an error of the stream finds none:
    it is not caught by any [try], the runtime reports it, and the process
    ends with code 1 without running the rest of [m]. *)
Definition await_in_turn {A : Type} (i : nat) (m : M A) : M A :=
  match stream_error_pending i with
  | Some e =>
      match interrupt e (trace m) with
      | Some events => (events, Exits 1%Z)
      | None => m
      end
  | None => m
  end.

(** One turn of [for (let i = 0; i < config.images.length; i++)] in
    [createPdfSlideshow]; [len] is [config.images.length]. *)
Definition imageStep (len i : nat) (entry : option ImageData) : M unit :=
  match entry with
  | None =>
      console_warn ("Warning: Image data at index " ++ Number_toString (Z.of_nat i)
                    ++ " is undefined, skipping")%string
  | Some imageData =>
      emit (ExistsSync (src imageData)) ;;
      if negb (Fs_existsSync W (src imageData))
      then console_warn ("Warning: Image " ++ src imageData ++ " not found, skipping")%string
      else
        await_in_turn i (addImageSlide imageData) ;;
        if (Z.of_nat i <? Z.of_nat len - 1)%Z then emit AddPage else ret tt
  end.

(** The loop from index [i] on, [rest] being the entries not yet visited. *)
Fixpoint imageLoop (len i : nat) (rest : list (option ImageData)) : M unit :=
  match rest with
  | [] => ret tt
  | entry :: rest' => imageStep len i entry ;; imageLoop len (S i) rest'
  end.

(** Waiting for the stream's "finish" or "error", with both listeners
    attached: an error that was not delivered during the loop rejects the
    promise. *)
Definition await_stream : M unit :=
  match stream_result W with
  | None => ret tt
  | Some e => throw e
  end.

(** Create the PDF slideshow. *)
Definition createPdfSlideshow (config : SlideshowConfig) (outputFilename : string) : M bool :=
  try_catch
    (emit (NewDocument PAGE_WIDTH PAGE_HEIGHT MARGIN) ;;
     emit (CreateWriteStream ("./dist/" ++ outputFilename)%string) ;;
     (if truthy (title config)
      then addTitleSlide (title config) (subtitle config) ;; emit AddPage
      else ret tt) ;;
     imageLoop (List.length (images config)) 0 (images config) ;;
     emit DocEnd ;;
     await_stream ;;
     console_log ("PDF created successfully: " ++ outputFilename)%string ;;
     ret true)
    (fun error => console_error "Error creating PDF:"%string (Some error) ;; ret false).

(** Generate timestamp string. *)
Definition getTimestamp (now : LocalTime) : string :=
  (Number_toString (getFullYear now)
   ++ padStart (Number_toString (getMonth now + 1)) 2 "0"
   ++ padStart (Number_toString (getDate now)) 2 "0"
   ++ "_"
   ++ padStart (Number_toString (getHours now)) 2 "0"
   ++ padStart (Number_toString (getMinutes now)) 2 "0"
   ++ padStart (Number_toString (getSeconds now)) 2 "0")%string.

(** [title?.replace(/[^a-zA-Z0-9]/g, "_") || "slideshow"] *)
Definition baseName (title : string) : string :=
  let replaced := replace_non_alnum title in
  if truthy replaced then replaced else "slideshow"%string.

(** [`${baseName}_${timestamp}.pdf`] *)
Definition outputFilename (now : LocalTime) (title : string) : string :=
  (baseName title ++ "_" ++ getTimestamp now ++ ".pdf")%string.

(** Main function. [Data.SLIDESHOW], whose module is not part of the
    sources at hand, is the parameter [SLIDESHOW]. In the closing messages
    a pictograph stands as the bytes of its UTF-8 form, and [newline] is
    the line feed. *)
Definition main (SLIDESHOW : SlideshowConfig) : M unit :=
  console_log "PDF Slideshow Generator (TypeScript/Bun)"%string ;;
  console_log "========================================"%string ;;
  (if (List.length (images SLIDESHOW) =? 0)%nat
   then console_error "No images found in configuration"%string None ;; process_exit 1%Z
   else ret tt) ;;
  let filename := outputFilename (Date_now W) (title SLIDESHOW) in
  console_log ("Title: " ++ (if truthy (title SLIDESHOW) then title SLIDESHOW
                             else "No title"))%string ;;
  (if truthy (subtitle SLIDESHOW)
   then console_log ("Subtitle: " ++ subtitle SLIDESHOW)%string
   else ret tt) ;;
  console_log ("Images to process: "
               ++ Number_toString (Z.of_nat (List.length (images SLIDESHOW))))%string ;;
  console_log ("Output file: " ++ filename)%string ;;
  console_log ""%string ;;
  success <- createPdfSlideshow SLIDESHOW filename ;;
  if success : bool
  then
    console_log (newline ++ "✅ Slideshow generated successfully!")%string ;;
    console_log ("📁 File: " ++ filename)%string ;;
    console_log ("🖼️  Images processed: "
                 ++ Number_toString (Z.of_nat (List.length (images SLIDESHOW))))%string ;;
    if truthy (title SLIDESHOW) then console_log "📄 Title slide included"%string else ret tt
  else
    console_log (newline ++ "❌ Failed to generate slideshow")%string ;;
    process_exit 1%Z.

(** [main().catch(console.error)]: the events of the whole process and
    its exit code. *)
Definition run (SLIDESHOW : SlideshowConfig) : list Event * Z :=
  match outcome (main SLIDESHOW) with
  | Returns _ => (trace (main SLIDESHOW), 0%Z)
  | Throws e => (trace (main SLIDESHOW) ++ [Console ERROR ""%string (Some e)], 0%Z)%list
  | Exits code => (trace (main SLIDESHOW), code)
  end.
End Program.

(** ** Reading a trace *)

(** A page is what was drawn on it. *)
Definition Page : Type := list Event.

(** Events that put something on the current page. *)
Definition is_draw (ev : Event) : bool :=
  match ev with
  | DocImage _ _ _ _ _ _ _ | DocText _ _ _ _ _ _ _ => true
  | _ => false
  end.

(** [doc.addPage()] *)
Definition is_page_break (ev : Event) : bool :=
  match ev with AddPage => true | _ => false end.

(** Events that touch the file system. *)
Definition is_file_io (ev : Event) : bool :=
  match ev with
  | CreateWriteStream _ | ExistsSync _ | SharpMetadata _
  | DocImage _ _ _ _ _ _ _ | DocImageThrew _ => true
  | _ => false
  end.

(** The further pages PDFKit opens for a text that runs past the bottom
    margin; none for any other event. *)
Definition text_overflow (W : World) (ev : Event) : nat :=
  match ev with
  | DocText size font text x y textWidth _ =>
      PDFKit_text_overflow W size font text x y textWidth
  | _ => O
  end.

(** The pages of an open document: draws go to the current page [cur],
    [doc.addPage()] closes it and opens an empty one, and a text that runs
    past the bottom margin closes it and goes on over as many further
    pages as PDFKit needs, the last of which is then the current page. A
    page the text runs over holds the text. *)
Fixpoint pages_from (W : World) (cur : Page) (tr : list Event) : list Page :=
  match tr with
  | [] => [cur]
  | AddPage :: tr' => cur :: pages_from W [] tr'
  | ev :: tr' =>
      if is_draw ev
      then match text_overflow W ev with
           | O => pages_from W (cur ++ [ev])%list tr'
           | S n => ((cur ++ [ev]) :: repeat [ev] n ++ pages_from W [ev] tr')%list
           end
      else pages_from W cur tr'
  end.

(** The pages of the document a trace builds. PDFKit opens the first page
    when the document is constructed; a trace that constructs no document
    has no pages. *)
Fixpoint pages (W : World) (tr : list Event) : list Page :=
  match tr with
  | [] => []
  | NewDocument _ _ _ :: tr' => pages_from W [] tr'
  | _ :: tr' => pages W tr'
  end.

(** No text of the trace runs past the bottom margin of its page. *)
Definition no_overflow (W : World) (tr : list Event) : bool :=
  forallb (fun ev => Nat.eqb (text_overflow W ev) O) tr.

(** The pages PDFKit opens of its own for the texts of a trace. *)
Definition overflow_pages (W : World) (tr : list Event) : nat :=
  list_sum (map (text_overflow W) tr).

(** A page with nothing drawn on it. *)
Definition blank (p : Page) : bool :=
  match p with [] => true | _ => false end.

(** The number of page breaks in a trace. *)
Definition page_breaks (tr : list Event) : nat :=
  List.length (filter is_page_break tr).

(** ** Statements read in binary64 *)

(** Idempotence for a fixed box, as JavaScript would observe it. *)
Definition idempotent_binary64 (w h boxW boxH : float) : Prop :=
  refit w h boxW boxH = calculateImageSize w h boxW boxH.

(** Scaling the box by [k] scales both output dimensions by exactly [k]. *)
Definition homogeneous_binary64 (w h boxW boxH k : float) : Prop :=
  width (calculateImageSize w h (k * boxW) (k * boxH))
    = k * width (calculateImageSize w h boxW boxH) /\
  height (calculateImageSize w h (k * boxW) (k * boxH))
    = k * height (calculateImageSize w h boxW boxH).

(** The box of every image page: [PAGE_WIDTH - 2 * MARGIN] by
    [PAGE_HEIGHT - 2 * MARGIN - 80]. *)
Definition availableWidth : float := PAGE_WIDTH - 2 * MARGIN.
Definition availableHeight : float := PAGE_HEIGHT - 2 * MARGIN - 80.

(** ** Entries as the world decides them *)

Local Open Scope string_scope.

(** Why [getImageDimensions] fails on a path, when it does: Sharp's error,
    or the error thrown for a missing or zero width or height. *)
Definition metadata_failure (W : World) (path : string) : option Error :=
  match Sharp_metadata W path with
  | SharpRejects e => Some e
  | SharpResolves metaWidth metaHeight =>
      if (falsy_number metaWidth || falsy_number metaHeight)%bool
      then Some "Could not read image dimensions"
      else None
  end.

(** The natural dimensions Sharp reports for a path, when it reports
    both. *)
Definition natural_size (W : World) (path : string) : option (ImageDimensions float) :=
  match Sharp_metadata W path with
  | SharpRejects _ => None
  | SharpResolves metaWidth metaHeight =>
      if (falsy_number metaWidth || falsy_number metaHeight)%bool
      then None
      else Some {| width := number_or_zero metaWidth; height := number_or_zero metaHeight |}
  end.

(** An entry that is present and whose file exists: [addImageSlide] is
    called for it. *)
Definition on_disk (W : World) (entry : option ImageData) : bool :=
  match entry with
  | Some imageData => Fs_existsSync W (src imageData)
  | None => false
  end.

(** A valid and readable image: present, on disk, with dimensions, and
    drawn by PDFKit. *)
Definition readable (W : World) (entry : option ImageData) : bool :=
  match entry with
  | Some imageData =>
      Fs_existsSync W (src imageData)
      && match natural_size W (src imageData) with Some _ => true | None => false end
      && match PDFKit_image W (src imageData) with None => true | Some _ => false end
  | None => false
  end.

(** The caption drawn under an image whose fitted size is [fitted]. *)
Definition caption_events (imageData : ImageData) (fitted : ImageDimensions float)
    : list Event :=
  match caption_present imageData with
  | Some text =>
      [DocText CAPTION_FONT_SIZE FONT text MARGIN (MARGIN + height fitted + 30)
         availableWidth center]
  | None => []
  end.

(** A turn that is cut short: the entry's file is on disk, so the turn
    waits for Sharp, and an error of the stream is ready. *)
Definition interrupted (W : World) (i : nat) (entry : option ImageData) : bool :=
  on_disk W entry
  && match stream_error_pending W i with Some _ => true | None => false end.

(** No turn of the loop, from index [i] on, is cut short. *)
Fixpoint loop_completes (W : World) (i : nat) (rest : list (option ImageData)) : bool :=
  match rest with
  | [] => true
  | entry :: rest' => negb (interrupted W i entry) && loop_completes W (S i) rest'
  end.

(** The run of a configuration is not cut short: the stream finishes, or
    its error is delivered after the loop, at the final wait. *)
Definition uninterrupted (W : World) (config : SlideshowConfig) : bool :=
  loop_completes W 0 (images config).

(** The traces of the loop's turns that run, from index [i] on; a turn
    that is cut short is the last. *)
Fixpoint stepTraces (W : World) (len i : nat) (rest : list (option ImageData))
    : list (list Event) :=
  match rest with
  | [] => []
  | entry :: rest' =>
      trace (imageStep W len i entry)
      :: (if interrupted W i entry then [] else stepTraces W len (S i) rest')
  end.

(** Text set in the title size. *)
Definition is_title_text (ev : Event) : bool :=
  match ev with
  | DocText size _ _ _ _ _ _ => PrimFloat.eqb size TITLE_FONT_SIZE
  | _ => false
  end.

(** The page [addTitleSlide] draws. *)
Definition title_page (config : SlideshowConfig) : Page :=
  trace (addTitleSlide (title config) (subtitle config)).

(** The page break that follows a slide at index [i] of [len]. *)
Definition break_after (len i : nat) : list Event :=
  if (S i <? len)%nat then [AddPage] else [].

(** What closes the run: the stream finishes, or its error is caught. *)
Definition closing (W : World) (outputFilename : string) : list Event :=
  match stream_result W with
  | None => [Console LOG ("PDF created successfully: " ++ outputFilename)%string None]
  | Some e => [Console ERROR "Error creating PDF:"%string (Some e)]
  end.

(** The title page and its page break, when there is a title. *)
Definition title_part (config : SlideshowConfig) : list Event :=
  if truthy (title config) then (title_page config ++ [AddPage])%list else [].

(** Events that neither draw nor break the page. *)
Definition quiet (ev : Event) : bool := negb (is_draw ev) && negb (is_page_break ev).

(** ** Pixel sizes in binary64 *)

(** The number that a pixel count [z] is, for [0 <= z < 2^53]. *)
Definition float_of_Z (z : Z) : float := PrimFloat.of_uint63 (Uint63.of_Z z).

(** [target - tol <= x <= target + tol] *)
Definition near (x target tol : float) : bool :=
  (PrimFloat.leb (target - tol) x && PrimFloat.leb x (target + tol))%bool.

(** The fitted size of a [w] x [h] image in the box of an image page is
    within one unit in the last place of the box: it exceeds neither side
    by more, and it is that near to one side. The unit is [2^-42] at 1776
    and [2^-43] at 856. *)
Definition fits_within_ulp (w h : float) : bool :=
  let r := calculateImageSize w h availableWidth availableHeight in
  (PrimFloat.leb (width r) (availableWidth + 0x1p-42)
   && PrimFloat.leb (height r) (availableHeight + 0x1p-43)
   && (near (width r) availableWidth 0x1p-42 || near (height r) availableHeight 0x1p-43))%bool.

(** The integers [lo], [lo + 1], ..., [lo + n - 1]. *)
Definition Z_range (lo n : Z) : list Z :=
  map (fun k : nat => (lo + Z.of_nat k)%Z) (seq 0 (Z.to_nat n)).

(** [y] is at most two units in the last place away from [x]. *)
Definition within_two_ulps (x y : float) : bool :=
  (PrimFloat.leb (PrimFloat.next_down (PrimFloat.next_down x)) y
   && PrimFloat.leb y (PrimFloat.next_up (PrimFloat.next_up x)))%bool.

(** Fitting the fitted size of a [w] x [h] image again, in the box of an
    image page, moves neither dimension by more than two units in the last
    place. *)
Definition refit_within_two_ulps (w h : float) : bool :=
  let r := calculateImageSize w h availableWidth availableHeight in
  let r' := refit w h availableWidth availableHeight in
  (within_two_ulps (width r) (width r') && within_two_ulps (height r) (height r'))%bool.

(** A test on every pair of sizes from two lists. *)
Definition all_pairs (P : float -> float -> bool) (ws hs : list float) : bool :=
  forallb (fun w => forallb (P w) hs) ws.

(** The pixel sizes 1 to 2048. *)
Definition sizes_to_2048 : list float := map float_of_Z (Z_range 1 2048).

(** ** The output name as the specification words it *)

(** The characters of [[A-Za-z0-9]], listed. *)
Definition alnum_chars : string :=
  "ABCDEFGHIJKLMNOPQRSTUVWXYZabcdefghijklmnopqrstuvwxyz0123456789".

(** [c] is one of the characters of [s]. *)
Fixpoint occurs (c : ascii) (s : string) : bool :=
  match s with
  | EmptyString => false
  | String c' rest => (Ascii.eqb c c' || occurs c rest)%bool
  end.

(** [sanitize] replaces every character outside [[A-Za-z0-9]] with ["_"]. *)
Fixpoint spec_sanitize (s : string) : string :=
  match s with
  | EmptyString => EmptyString
  | String c rest =>
      String (if occurs c alnum_chars then c else "_"%char) (spec_sanitize rest)
  end.

(** The decimal digit of [n]'s units. *)
Definition digit (n : Z) : ascii := ascii_of_nat (48 + Z.to_nat (n mod 10)).

(** The decimal constructor of [k]'s units on top of [rest]. *)
Definition decimal_digit (k : Z) (rest : Decimal.uint) : Decimal.uint :=
  match (k mod 10)%Z with
  | 0%Z => Decimal.D0 rest
  | 1%Z => Decimal.D1 rest
  | 2%Z => Decimal.D2 rest
  | 3%Z => Decimal.D3 rest
  | 4%Z => Decimal.D4 rest
  | 5%Z => Decimal.D5 rest
  | 6%Z => Decimal.D6 rest
  | 7%Z => Decimal.D7 rest
  | 8%Z => Decimal.D8 rest
  | _ => Decimal.D9 rest
  end.

(** A zero-padded field of two digits, and one of four. *)
Definition two_digits (n : Z) : string :=
  String (digit (n / 10)) (String (digit n) EmptyString).
Definition four_digits (n : Z) : string :=
  String (digit (n / 1000)) (String (digit (n / 100)) (two_digits n)).

(** [YYYYMMDD_HHMMSS], the month being the calendar month. *)
Definition spec_timestamp (now : LocalTime) : string :=
  four_digits (getFullYear now) ++ two_digits (getMonth now + 1)
  ++ two_digits (getDate now) ++ "_"
  ++ two_digits (getHours now) ++ two_digits (getMinutes now)
  ++ two_digits (getSeconds now).

(** [sanitize(title or "slideshow") + "_" + timestamp + ".pdf"] *)
Definition spec_filename (now : LocalTime) (title : string) : string :=
  spec_sanitize (if truthy title then title else "slideshow")
  ++ "_" ++ spec_timestamp now ++ ".pdf".

(** The ranges of the getters of a [Date]. *)
Definition valid_time (now : LocalTime) : Prop :=
  (0 <= getMonth now <= 11 /\ 1 <= getDate now <= 31 /\ 0 <= getHours now <= 23 /\
   0 <= getMinutes now <= 59 /\ 0 <= getSeconds now <= 59)%Z.

(** A year written with four digits. *)
Definition four_digit_year (now : LocalTime) : Prop :=
  (1000 <= getFullYear now <= 9999)%Z.

(** ** Sample inputs *)

(** 5 January 2024, 09:03:07. *)
Definition sample_time : LocalTime :=
  {| getFullYear := 2024; getMonth := 0; getDate := 5;
     getHours := 9; getMinutes := 3; getSeconds := 7 |}.

(** The first instant of the year 10000. *)
Definition y10k : LocalTime :=
  {| getFullYear := 10000; getMonth := 0; getDate := 1;
     getHours := 0; getMinutes := 0; getSeconds := 0 |}.

(** A world where ["missing.png"] is not on disk, Sharp cannot read
    ["bad.png"], every other image is 800 x 600, every text fits on its
    page, and the stream finishes. *)
Definition sample_world : World :=
  {| Fs_existsSync := fun path => negb (String.eqb path "missing.png");
     Sharp_metadata := fun path =>
       if String.eqb path "bad.png"
       then SharpRejects "Input file contains unsupported image format"
       else SharpResolves (Some 800%float) (Some 600%float);
     PDFKit_image := fun _ => None;
     PDFKit_text_overflow := fun _ _ _ _ _ _ => O;
     stream_result := None;
     stream_error_ready := O;
     Date_now := sample_time |}.

(** Entries: readable with and without a caption, unreadable, missing. *)
Definition good_image : ImageData := {| src := "good.png"; caption := Some "A caption" |}.
Definition plain_image : ImageData := {| src := "plain.png"; caption := None |}.
Definition bad_image : ImageData := {| src := "bad.png"; caption := Some "Lost" |}.
Definition missing_image : ImageData := {| src := "missing.png"; caption := None |}.

(** An untitled slideshow whose first image cannot be read. *)
Definition bad_then_good : SlideshowConfig :=
  {| title := ""; subtitle := ""; images := [Some bad_image; Some good_image] |}.

(** A titled slideshow of two readable images. *)
Definition two_good : SlideshowConfig :=
  {| title := "My Trip!"; subtitle := "2024";
     images := [Some good_image; Some plain_image] |}.

(** A readable image followed by a missing file. *)
Definition good_then_missing : SlideshowConfig :=
  {| title := ""; subtitle := ""; images := [Some good_image; Some missing_image] |}.

(** One entry of each kind. *)
Definition mixed : SlideshowConfig :=
  {| title := "My Trip!"; subtitle := "";
     images := [Some bad_image; None; Some missing_image; Some good_image] |}.

(** ** Events by kind *)

(** An image PDFKit drew. *)
Definition is_image (ev : Event) : bool :=
  match ev with DocImage _ _ _ _ _ _ _ => true | _ => false end.

(** The events that open and close the document and its stream, and the
    one that ends the process. *)
Definition is_lifecycle (ev : Event) : bool :=
  match ev with
  | NewDocument _ _ _ | CreateWriteStream _ | DocEnd | ProcessExit _ => true
  | _ => false
  end.

(** [process.exit] *)
Definition is_exit (ev : Event) : bool :=
  match ev with ProcessExit _ => true | _ => false end.

(** [console.warn] and [console.error] lines. *)
Definition is_warning (ev : Event) : bool :=
  match ev with Console WARN _ _ => true | _ => false end.
Definition is_error (ev : Event) : bool :=
  match ev with Console ERROR _ _ => true | _ => false end.

(** [console.log] lines. *)
Definition is_log (ev : Event) : bool :=
  match ev with Console LOG _ _ => true | _ => false end.

(** ** Entries, one by one *)

(** The image an entry's slide shows. *)
Definition drawn_image (imageData : ImageData) : Event :=
  DocImage (src imageData) MARGIN MARGIN availableWidth availableHeight center center.

(** What the slide of an entry puts on its page: the image and, under it,
    the caption, when the entry is present, its file is on disk, Sharp
    reports its dimensions and PDFKit accepts it; nothing otherwise. *)
Definition slide_draws (W : World) (entry : option ImageData) : list Event :=
  match entry with
  | Some imageData =>
      if Fs_existsSync W (src imageData) then
        match natural_size W (src imageData), PDFKit_image W (src imageData) with
        | Some natural, None =>
            drawn_image imageData
            :: caption_events imageData
                 (calculateImageSize (width natural) (height natural)
                    availableWidth availableHeight)
        | _, _ => []
        end
      else []
  | None => []
  end.

(** The [console.error] lines an entry causes: two when its dimensions
    cannot be read (one from [getImageDimensions], one from
    [addImageSlide]), one when PDFKit throws on the image. *)
Definition entry_errors (W : World) (entry : option ImageData) : nat :=
  match entry with
  | Some imageData =>
      if Fs_existsSync W (src imageData) then
        match natural_size W (src imageData), PDFKit_image W (src imageData) with
        | None, _ => 2%nat
        | Some _, Some _ => 1%nat
        | Some _, None => 0%nat
        end
      else 0%nat
  | None => 0%nat
  end.

(** The entries that are skipped before [addImageSlide]. *)
Definition skipped (W : World) (entry : option ImageData) : bool := negb (on_disk W entry).

(** ** Characters of a file name *)

(** Every character of [s] passes [P]. *)
Fixpoint all_chars (P : ascii -> bool) (s : string) : bool :=
  match s with
  | EmptyString => true
  | String c rest => (P c && all_chars P rest)%bool
  end.

(** Letters, digits, and the three marks an output name can hold. *)
Definition is_filename_char (c : ascii) : bool :=
  (is_alnum c || Ascii.eqb c "_" || Ascii.eqb c "." || Ascii.eqb c "-")%bool.

(** ** The image page in binary64 *)

(** The fitted size of a [w] x [h] image on an image page. *)
Definition fitted_on_page (w h : float) : ImageDimensions float :=
  calculateImageSize w h availableWidth availableHeight.

(** The image fills the side its shape calls for: the width when it is
    relatively wider than the box ([boxW * h <= w * boxH]), the height
    otherwise; within one unit in the last place. *)
Definition fills_expected_side (w h : float) : bool :=
  let r := fitted_on_page w h in
  if PrimFloat.leb (availableWidth * h) (w * availableHeight)
  then near (width r) availableWidth 0x1p-42
  else near (height r) availableHeight 0x1p-43.

(** The aspect ratio of the fitted size is within two units in the last
    place of the natural one. *)
Definition keeps_ratio_within_two_ulps (w h : float) : bool :=
  let r := fitted_on_page w h in
  within_two_ulps (w / h) (width r / height r).

(** An image no larger than the box on either axis is not made smaller on
    any; any other image is made smaller on both. *)
Definition resizes_toward_box (w h : float) : bool :=
  let r := fitted_on_page w h in
  if (PrimFloat.leb w availableWidth && PrimFloat.leb h availableHeight)%bool
  then (PrimFloat.leb w (width r) && PrimFloat.leb h (height r))%bool
  else (PrimFloat.ltb (width r) w && PrimFloat.ltb (height r) h)%bool.

(** [captionY] of [addImageSlide] for an image of natural size [w] x [h]. *)
Definition captionY (w h : float) : float := MARGIN + height (fitted_on_page w h) + 30.

(** The caption starts below [MARGIN + 30] and no lower than 958 (one unit
    in the last place allowed), at least 50 above the bottom margin. *)
Definition caption_in_strip (w h : float) : bool :=
  let y := captionY w h in
  (PrimFloat.ltb (MARGIN + 30) y
   && PrimFloat.leb y (958 + 0x1p-43)
   && PrimFloat.leb (y + 50) (PAGE_HEIGHT - MARGIN + 0x1p-43))%bool.

(** The four tests together. *)
Definition page_checks (w h : float) : bool :=
  (fills_expected_side w h && keeps_ratio_within_two_ulps w h
   && resizes_toward_box w h && caption_in_strip w h)%bool.

(** ** Degenerate sizes in binary64 *)

(** A size with width and height exchanged. *)
Definition transpose {N : Type} (r : ImageDimensions N) : ImageDimensions N :=
  {| width := height r; height := width r |}.

(** Inputs [calculateImageSize] cannot scale: a [NaN] among the four
    numbers, or an image of zero by zero. *)
Definition degenerate (w h boxW boxH : float) : bool :=
  (PrimFloat.is_nan w || PrimFloat.is_nan h || PrimFloat.is_nan boxW
   || PrimFloat.is_nan boxH || (PrimFloat.is_zero w && PrimFloat.is_zero h))%bool.

(** ** Runs that are cut short *)

(** The entries whose turn runs to its end, from index [i] on: those
    before the turn that is cut short, or all of them. *)
Fixpoint completed (W : World) (i : nat) (rest : list (option ImageData))
    : list (option ImageData) :=
  match rest with
  | [] => []
  | entry :: rest' =>
      if interrupted W i entry then [] else entry :: completed W (S i) rest'
  end.

(** The runtime reporting an error nobody caught. *)
Definition is_uncaught (ev : Event) : bool :=
  match ev with Uncaught _ => true | _ => false end.

(** Whether the current page is blank after the events of a trace; [b]
    tells whether it was blank before them. *)
Fixpoint blank_after (b : bool) (tr : list Event) : bool :=
  match tr with
  | [] => b
  | ev :: tr' =>
      blank_after (if is_page_break ev then true else if is_draw ev then false else b) tr'
  end.

(** ** The console lines of [main] *)

(** The lines before the assembler runs. *)
Definition banner (W : World) (config : SlideshowConfig) : list Event :=
  ([Console LOG "PDF Slideshow Generator (TypeScript/Bun)" None;
    Console LOG "========================================" None;
    Console LOG ("Title: " ++ (if truthy (title config) then title config
                               else "No title"))%string None]
   ++ (if truthy (subtitle config)
       then [Console LOG ("Subtitle: " ++ subtitle config)%string None] else [])
   ++ [Console LOG ("Images to process: "
                    ++ Number_toString (Z.of_nat (List.length (images config))))%string
         None;
       Console LOG ("Output file: " ++ outputFilename (Date_now W) (title config))%string
         None;
       Console LOG ""%string None])%list.

(** The lines after the assembler returned: the summary of a success, or
    the line of a failure. *)
Definition summary (W : World) (config : SlideshowConfig) : list Event :=
  match stream_result W with
  | None =>
      ([Console LOG (newline ++ "✅ Slideshow generated successfully!")%string None;
        Console LOG ("📁 File: " ++ outputFilename (Date_now W) (title config))%string None;
        Console LOG ("🖼️  Images processed: "
                     ++ Number_toString (Z.of_nat (List.length (images config))))%string
          None]
       ++ (if truthy (title config)
           then [Console LOG "📄 Title slide included"%string None] else []))%list
  | Some _ => [Console LOG (newline ++ "❌ Failed to generate slideshow")%string None]
  end.

(** ** More sample inputs *)

Local Open Scope string_scope.

(** A caption of 207 characters, too long for one line of 1776 points in
    Helvetica at 26 points. *)
Definition long_caption : string :=
  "The harbour at dawn, seen from the northern pier, with the fishing boats "
  ++ "still moored along the quay, the lighthouse at the end of the breakwater, "
  ++ "and the first ferry of the morning on its way out to the sea".

(** A readable image under that caption. *)
Definition harbour_image : ImageData :=
  {| src := "harbour.png"; caption := Some long_caption |}.

(** An untitled slideshow of that one image. *)
Definition one_long_caption : SlideshowConfig :=
  {| title := ""; subtitle := ""; images := [Some harbour_image] |}.

(** The sample world with the text layout of PDFKit for such a caption: a
    text of more than 150 characters takes a second line, a line of 26
    points is about 30 high, and a line that would pass the bottom margin
    at 1008 goes to a new page; so a text this long that starts below 948
    runs onto one further page. *)
Definition narrow_world : World :=
  {| Fs_existsSync := Fs_existsSync sample_world;
     Sharp_metadata := Sharp_metadata sample_world;
     PDFKit_image := PDFKit_image sample_world;
     PDFKit_text_overflow := fun _ _ text _ y _ =>
       if ((150 <? String.length text)%nat && PrimFloat.ltb 948 y)%bool then 1%nat else O;
     stream_result := None;
     stream_error_ready := O;
     Date_now := sample_time |}.

(** The sample world without the directory [./dist]: the stream cannot
    open its file, and its error is ready from the first turn on. *)
Definition no_dist_world : World :=
  {| Fs_existsSync := Fs_existsSync sample_world;
     Sharp_metadata := Sharp_metadata sample_world;
     PDFKit_image := PDFKit_image sample_world;
     PDFKit_text_overflow := PDFKit_text_overflow sample_world;
     stream_result := Some "ENOENT: no such file or directory, open './dist/out.pdf'";
     stream_error_ready := O;
     Date_now := sample_time |}.

(** The sample world with a stream whose error comes late, after every
    turn of a loop of up to a hundred entries. *)
Definition late_error_world : World :=
  {| Fs_existsSync := Fs_existsSync sample_world;
     Sharp_metadata := Sharp_metadata sample_world;
     PDFKit_image := PDFKit_image sample_world;
     PDFKit_text_overflow := PDFKit_text_overflow sample_world;
     stream_result := Some "ENOSPC: no space left on device, write";
     stream_error_ready := 100;
     Date_now := sample_time |}.

(** An untitled slideshow of three readable images. *)
Definition three_good : SlideshowConfig :=
  {| title := ""; subtitle := "";
     images := [Some good_image; Some plain_image; Some good_image] |}.

(** A world where every image is a panorama of 1776 x 100 pixels. *)
Definition panorama_world : World :=
  {| Fs_existsSync := fun _ => true;
     Sharp_metadata := fun _ => SharpResolves (Some 1776%float) (Some 100%float);
     PDFKit_image := fun _ => None;
     PDFKit_text_overflow := fun _ _ _ _ _ _ => O;
     stream_result := None;
     stream_error_ready := O;
     Date_now := sample_time |}.

(** ** Rounding to nearest in binary64 *)

Section RoundingDefinitions.
Local Open Scope Z_scope.

(** The exact value [N / D], in units of [2 ^ b]; one unit in the last
    place of a mantissa at exponent [e], times [D]. *)
Definition unit_at (b D e : Z) : Z := 2 ^ (e - b) * D.

(** A shifted mantissa with its round and sticky bits, at exponent [e],
    stands for [N / D]: the value lies between the mantissa and its
    successor, where the two bits say. *)
Definition represents (N D b : Z) (mrs : shr_record) (e : Z) : Prop :=
  0 <= shr_m mrs /\
  let lo := shr_m mrs * unit_at b D e in
  let hi := (shr_m mrs + 1) * unit_at b D e in
  match shr_r mrs, shr_s mrs with
  | false, false => N = lo
  | false, true => lo < N /\ 2 * N < lo + hi
  | true, false => 2 * N = lo + hi
  | true, true => lo + hi < 2 * N /\ N < hi
  end.

(** The value of a float that is not negative, in units of [2 ^ b];
    infinity counts as [2 ^ emax], the first power of two above every
    finite float. *)
Definition SFvalue (b : Z) (x : spec_float) : Z :=
  match x with
  | S754_finite _ m e => Zpos m * 2 ^ (e - b)
  | S754_infinity _ => 2 ^ (emax - b)
  | _ => 0
  end.

(** Positive zero, a positive finite float, or positive infinity. *)
Definition SFnonneg (x : spec_float) : bool :=
  match x with
  | S754_zero s | S754_finite s _ _ | S754_infinity s => negb s
  | S754_nan => false
  end.

(** The float a nonnegative mantissa and an exponent make, with
    overflow to infinity. *)
Definition float_of (m e : Z) : spec_float :=
  if m =? 0 then S754_zero false
  else if e <=? 971 then S754_finite false (Z.to_pos m) e
  else S754_infinity false.

(** The result of rounding: the mantissa is rounded to nearest, ties to
    even, and when that carries into a 54th digit the exponent goes up. *)
Definition rounded (m' : Z) (r s : bool) (e' : Z) : spec_float :=
  let m'' := round_nearest_even m' (loc_of_shr_record (Build_shr_record m' r s)) in
  if m'' <? 2 ^ 53 then float_of m'' e' else float_of (2 ^ 52) (e' + 1).

(** Values are counted in units of [2 ^ -2148], the square of the
    smallest positive float. *)
Definition SFval (x : spec_float) : Z := SFvalue (-2148) x.

(** The value of a float that is not negative. *)
Definition fval (x : float) : Z := SFval (Prim2SF x).

(** A float that is not negative: positive zero, a positive finite
    number or positive infinity. *)
Definition fnonneg (x : float) : bool := SFnonneg (Prim2SF x).

(** A positive number that is not infinite. *)
Definition finite_positive (x : float) : bool :=
  (PrimFloat.ltb 0 x && PrimFloat.ltb x PrimFloat.infinity)%bool.
End RoundingDefinitions.

(** * Properties *)

(** ** Fit scaling in exact arithmetic *)

Section ExactArithmetic.
Local Open Scope Q_scope.

Lemma Qdiv_pos (a b : Q) : 0 < a -> 0 < b -> 0 < a / b.
Proof.
  intros Ha Hb. unfold Qdiv. apply Qmult_lt_0_compat; [exact Ha|].
  apply Qinv_lt_0_compat. exact Hb.
Qed.

Lemma Qpos_neq0 (a : Q) : 0 < a -> ~ a == 0.
Proof. intros Ha E. rewrite E in Ha. discriminate. Qed.

Lemma Qmul_div_cancel (a b : Q) : 0 < a -> a * (b / a) == b.
Proof. intros Ha. field. apply Qpos_neq0. exact Ha. Qed.

Lemma Qmul_le_div (a s b : Q) : 0 < a -> s <= b / a -> a * s <= b.
Proof.
  intros Ha Hs. apply Qle_trans with (a * (b / a)).
  - apply Qmult_le_l; assumption.
  - rewrite Qmul_div_cancel by assumption. apply Qle_refl.
Qed.

Lemma Qdiv_le_mono (a b c : Q) : 0 < c -> a <= b -> a / c <= b / c.
Proof.
  intros Hc Hab. unfold Qdiv. apply Qmult_le_compat_r; [exact Hab|].
  apply Qlt_le_weak, Qinv_lt_0_compat, Hc.
Qed.

Lemma Qdiv_ge_1 (a b : Q) : 0 < a -> a <= b -> 1 <= b / a.
Proof.
  intros Ha Hab. apply Qle_shift_div_l; [exact Ha|].
  rewrite Qmult_1_l. exact Hab.
Qed.

Lemma Qdiv_same (a b : Q) : 0 < a -> a == b -> b / a == 1.
Proof. intros Ha E. rewrite <- E. field. apply Qpos_neq0. exact Ha. Qed.

(** [min] commutes with multiplication by a positive factor. *)
Lemma Qmin_mult_pos_l (k a b : Q) : 0 < k -> Qmin (k * a) (k * b) == k * Qmin a b.
Proof.
  intros Hk. destruct (Q.min_spec_le a b) as [[Hab E] | [Hba E]]; rewrite E.
  - apply Q.min_l. apply Qmult_le_l; assumption.
  - apply Q.min_r. apply Qmult_le_l; assumption.
Qed.

Section Fit.
Variables w h : Q.
Hypothesis w_pos : 0 < w.
Hypothesis h_pos : 0 < h.

Lemma fit_scale_pos (boxW boxH : Q) :
  0 < boxW -> 0 < boxH -> 0 < fit_scale w h boxW boxH.
Proof.
  intros HW HH. unfold fit_scale. cbn [Math_min num_div exact].
  apply Q.min_glb_lt; apply Qdiv_pos; assumption.
Qed.

Lemma fit_scale_mono (boxW1 boxH1 boxW2 boxH2 : Q) :
  boxW1 <= boxW2 -> boxH1 <= boxH2 ->
  fit_scale w h boxW1 boxH1 <= fit_scale w h boxW2 boxH2.
Proof.
  intros HW HH. unfold fit_scale. cbn [Math_min num_div exact].
  apply Q.min_le_compat; apply Qdiv_le_mono; assumption.
Qed.

Lemma fit_scale_homogeneous (boxW boxH k : Q) :
  0 < k -> fit_scale w h (k * boxW) (k * boxH) == k * fit_scale w h boxW boxH.
Proof.
  intros Hk. unfold fit_scale. cbn [Math_min num_div exact].
  rewrite <- Qmin_mult_pos_l by exact Hk.
  apply Q.min_compat; field; apply Qpos_neq0; assumption.
Qed.
End Fit.

(** A size that fits the box and touches it on one axis is left alone:
    its scale factor is one. *)
Lemma tight_fit_scale_one (a b boxW boxH : Q) :
  0 < a -> 0 < b -> a <= boxW -> b <= boxH -> a == boxW \/ b == boxH ->
  fit_scale a b boxW boxH == 1.
Proof.
  intros Ha Hb La Lb [E | E]; unfold fit_scale; cbn [Math_min num_div exact].
  - rewrite Q.min_l.
    + apply Qdiv_same; assumption.
    + rewrite (Qdiv_same Ha E). apply Qdiv_ge_1; assumption.
  - rewrite Q.min_r.
    + apply Qdiv_same; assumption.
    + rewrite (Qdiv_same Hb E). apply Qdiv_ge_1; assumption.
Qed.
End ExactArithmetic.

(** ** [calculateImageSize]: the fit contract *)

(** C1, as stated, fails in the binary64 arithmetic the program runs on:
    a 100 x 99 image in the 1776 x 856 box of an image page comes out
    856.0000000000001 high, which is above the box, and no side equals
    the box's. *)
Lemma calculateImageSize_binary64_not_tight :
  positive64 100 /\ positive64 99 /\ positive64 1776 /\ positive64 856 /\
  PrimFloat.ltb 856 (height (calculateImageSize 100 99 1776 856)) = true /\
  PrimFloat.eqb (width (calculateImageSize 100 99 1776 856)) 1776 = false /\
  PrimFloat.eqb (height (calculateImageSize 100 99 1776 856)) 856 = false /\
  ~ fits_binary64 100 99 1776 856.
Proof.
  repeat split; try (vm_compute; reflexivity).
  intros (_ & _ & _ & Hfit & _).
  vm_compute in Hfit. discriminate Hfit.
Qed.

(** In exact arithmetic the fitted size is positive, fits the box, and
    equals the box on one axis. *)
Lemma exact_fit_facts (w h boxW boxH : Q) :
  (0 < w)%Q -> (0 < h)%Q -> (0 < boxW)%Q -> (0 < boxH)%Q ->
  let r := calculateImageSize w h boxW boxH in
  (0 < width r /\ 0 < height r /\
   width r <= boxW /\ height r <= boxH /\
   (width r == boxW \/ height r == boxH))%Q.
Proof.
  intros Hw Hh HW HH r.
  assert (Hs : (0 < fit_scale w h boxW boxH)%Q) by (apply fit_scale_pos; assumption).
  assert (Lw : (fit_scale w h boxW boxH <= boxW / w)%Q) by apply Q.le_min_l.
  assert (Lh : (fit_scale w h boxW boxH <= boxH / h)%Q) by apply Q.le_min_r.
  change (width r) with (w * fit_scale w h boxW boxH)%Q.
  change (height r) with (h * fit_scale w h boxW boxH)%Q.
  split; [apply Qmult_lt_0_compat; assumption |].
  split; [apply Qmult_lt_0_compat; assumption |].
  split; [apply Qmul_le_div; assumption |].
  split; [apply Qmul_le_div; assumption |].
  unfold fit_scale. cbn [Math_min num_div exact].
  destruct (Q.min_dec (boxW / w) (boxH / h)) as [E | E]; rewrite E;
    [left | right]; apply Qmul_div_cancel; assumption.
Qed.

(** ** [calculateImageSize]: idempotence *)

(** C9, as stated, fails in binary64: refitting the 100 x 99 image's
    fitted size changes it (the height drops from 856.0000000000001 to
    856, the width moves by one unit in the last place). *)
Lemma calculateImageSize_binary64_not_idempotent :
  positive64 100 /\ positive64 99 /\ positive64 1776 /\ positive64 856 /\
  ~ idempotent_binary64 100 99 1776 856.
Proof.
  repeat split; try (vm_compute; reflexivity).
  unfold idempotent_binary64. intros E.
  assert (D : PrimFloat.eqb (height (refit 100 99 1776 856))
                (height (calculateImageSize 100 99 1776 856)) = false)
    by (vm_compute; reflexivity).
  rewrite E in D. vm_compute in D. discriminate D.
Qed.

(** C9 (amended): in exact arithmetic [calculateImageSize] is idempotent
    for a fixed box: applied to its own output with the same box, it
    returns that output. *)
Theorem calculateImageSize_exact_idempotent (w h boxW boxH : Q) :
  (0 < w)%Q -> (0 < h)%Q -> (0 < boxW)%Q -> (0 < boxH)%Q ->
  (width (refit w h boxW boxH) == width (calculateImageSize w h boxW boxH) /\
   height (refit w h boxW boxH) == height (calculateImageSize w h boxW boxH))%Q.
Proof.
  intros Hw Hh HW HH.
  destruct (exact_fit_facts Hw Hh HW HH) as (Pw & Ph & Lw & Lh & T).
  pose proof (tight_fit_scale_one Pw Ph Lw Lh T) as One.
  unfold refit.
  set (r := calculateImageSize w h boxW boxH) in *.
  change (width (calculateImageSize (width r) (height r) boxW boxH))
    with (width r * fit_scale (width r) (height r) boxW boxH)%Q.
  change (height (calculateImageSize (width r) (height r) boxW boxH))
    with (height r * fit_scale (width r) (height r) boxW boxH)%Q.
  rewrite One. split; apply Qmult_1_r.
Qed.

Lemma calculateImageSize_exact_idempotent_witness :
  (0 < 100 # 1 /\ 0 < 99 # 1 /\ 0 < 1776 # 1 /\ 0 < 856 # 1)%Q /\
  (width (refit (100 # 1) (99 # 1) (1776 # 1) (856 # 1))
   == width (calculateImageSize (100 # 1) (99 # 1) (1776 # 1) (856 # 1)) /\
   height (refit (100 # 1) (99 # 1) (1776 # 1) (856 # 1))
   == height (calculateImageSize (100 # 1) (99 # 1) (1776 # 1) (856 # 1)))%Q.
Proof.
  split.
  - repeat split.
  - apply calculateImageSize_exact_idempotent; reflexivity.
Defined.

(** ** [calculateImageSize]: monotone and homogeneous in the box *)

(** C10, as stated, fails in binary64: tripling the box of an 800 x 600
    image gives width 3424, while three times the width for the original
    box is 3424.0000000000005. *)
Lemma calculateImageSize_binary64_not_homogeneous :
  positive64 800 /\ positive64 600 /\ positive64 1776 /\ positive64 856 /\ positive64 3 /\
  width (calculateImageSize 800 600 (3 * 1776) (3 * 856)) = 3424%float /\
  PrimFloat.ltb 3424 (3 * width (calculateImageSize 800 600 1776 856)) = true /\
  ~ homogeneous_binary64 800 600 1776 856 3.
Proof.
  repeat split; try (vm_compute; reflexivity).
  intros (E & _).
  assert (D : PrimFloat.eqb (width (calculateImageSize 800 600 (3 * 1776) (3 * 856)))
                (3 * width (calculateImageSize 800 600 1776 856)) = false)
    by (vm_compute; reflexivity).
  rewrite E in D. vm_compute in D. discriminate D.
Qed.

(** In exact arithmetic, for a positive natural size,
    [calculateImageSize] is monotone in the box (a box no smaller on either
    axis gives output no smaller on either axis) and homogeneous (scaling
    the box by a positive [k] scales both output dimensions by [k]). *)
Lemma exact_monotone_homogeneous (w h : Q) :
  (0 < w)%Q -> (0 < h)%Q ->
  (forall boxW1 boxH1 boxW2 boxH2 : Q,
     boxW1 <= boxW2 -> boxH1 <= boxH2 ->
     width (calculateImageSize w h boxW1 boxH1) <= width (calculateImageSize w h boxW2 boxH2) /\
     height (calculateImageSize w h boxW1 boxH1) <= height (calculateImageSize w h boxW2 boxH2))%Q
  /\
  (forall boxW boxH k : Q,
     0 < k ->
     width (calculateImageSize w h (k * boxW) (k * boxH))
       == k * width (calculateImageSize w h boxW boxH) /\
     height (calculateImageSize w h (k * boxW) (k * boxH))
       == k * height (calculateImageSize w h boxW boxH))%Q.
Proof.
  intros Hw Hh. split.
  - intros boxW1 boxH1 boxW2 boxH2 LW LH.
    pose proof (fit_scale_mono Hw Hh LW LH) as Ls.
    split.
    + change (w * fit_scale w h boxW1 boxH1 <= w * fit_scale w h boxW2 boxH2)%Q.
      apply Qmult_le_l; assumption.
    + change (h * fit_scale w h boxW1 boxH1 <= h * fit_scale w h boxW2 boxH2)%Q.
      apply Qmult_le_l; assumption.
  - intros boxW boxH k Hk.
    pose proof (fit_scale_homogeneous Hw Hh boxW boxH Hk) as Es.
    split.
    + change (w * fit_scale w h (k * boxW) (k * boxH)
              == k * (w * fit_scale w h boxW boxH))%Q.
      rewrite Es. ring.
    + change (h * fit_scale w h (k * boxW) (k * boxH)
              == k * (h * fit_scale w h boxW boxH))%Q.
      rewrite Es. ring.
Qed.

(** ** The effect monad *)

Lemma bind_returns (A B : Type) (m : M A) (k : A -> M B) (a : A) :
  outcome m = Returns a ->
  trace (bind m k) = (trace m ++ trace (k a))%list /\ outcome (bind m k) = outcome (k a).
Proof.
  unfold outcome, trace, bind. destruct m as [events o]. cbn [fst snd].
  intros E. rewrite E. destruct (k a). split; reflexivity.
Qed.

Lemma bind_emit (B : Type) (ev : Event) (k : unit -> M B) :
  bind (emit ev) k = (ev :: trace (k tt), outcome (k tt)).
Proof. unfold bind, emit, trace, outcome. destruct (k tt). reflexivity. Qed.

(** ** Reading image dimensions *)

Section Slides.
Variable W : World.

Lemma natural_size_metadata_failure (path : string) :
  match natural_size W path with
  | Some _ => metadata_failure W path = None
  | None => exists e, metadata_failure W path = Some e
  end.
Proof.
  unfold natural_size, metadata_failure.
  destruct (Sharp_metadata W path) as [e | mw mh].
  - exists e. reflexivity.
  - destruct (falsy_number mw || falsy_number mh)%bool.
    + eexists. reflexivity.
    + reflexivity.
Qed.

(** [getImageDimensions] never throws: it returns the dimensions, or
    logs the path with the cause and returns [null]. *)
Lemma getImageDimensions_cases (path : string) :
  getImageDimensions W path =
    match metadata_failure W path with
    | Some e =>
        ([SharpMetadata path;
          Console ERROR ("Error reading image " ++ path ++ ":")%string (Some e)],
         Returns None)
    | None => ([SharpMetadata path], Returns (natural_size W path))
    end.
Proof.
  unfold getImageDimensions, metadata_failure, natural_size.
  destruct (Sharp_metadata W path) as [e | mw mh].
  - reflexivity.
  - destruct (falsy_number mw || falsy_number mh)%bool; reflexivity.
Qed.

Lemma addImageSlide_unreadable (imageData : ImageData) (e : Error) :
  metadata_failure W (src imageData) = Some e ->
  addImageSlide W imageData =
    ([SharpMetadata (src imageData);
      Console ERROR ("Error reading image " ++ src imageData ++ ":")%string (Some e);
      Console ERROR ("Error adding image slide for " ++ src imageData ++ ":")%string
        (Some ("Could not get dimensions for " ++ src imageData)%string)],
     Returns tt).
Proof.
  intros F. unfold addImageSlide. rewrite getImageDimensions_cases, F. reflexivity.
Qed.

Lemma addImageSlide_drawn (imageData : ImageData) (natural : ImageDimensions float) :
  natural_size W (src imageData) = Some natural ->
  PDFKit_image W (src imageData) = None ->
  addImageSlide W imageData =
    (SharpMetadata (src imageData)
     :: DocImage (src imageData) MARGIN MARGIN availableWidth availableHeight center center
     :: caption_events imageData
          (calculateImageSize (width natural) (height natural)
             availableWidth availableHeight),
     Returns tt).
Proof.
  intros S D. unfold addImageSlide. rewrite getImageDimensions_cases.
  pose proof (natural_size_metadata_failure (src imageData)) as F.
  rewrite S in F. rewrite F, S.
  unfold try_catch, bind, doc_image, caption_events. cbn [fst snd].
  rewrite D. cbn [fst snd emit].
  destruct (caption_present imageData); reflexivity.
Qed.

Lemma addImageSlide_draw_throws (imageData : ImageData) (natural : ImageDimensions float)
    (e : Error) :
  natural_size W (src imageData) = Some natural ->
  PDFKit_image W (src imageData) = Some e ->
  addImageSlide W imageData =
    ([SharpMetadata (src imageData); DocImageThrew (src imageData);
      Console ERROR ("Error adding image slide for " ++ src imageData ++ ":")%string
        (Some e)],
     Returns tt).
Proof.
  intros S D. unfold addImageSlide. rewrite getImageDimensions_cases.
  pose proof (natural_size_metadata_failure (src imageData)) as F.
  rewrite S in F. rewrite F, S.
  unfold try_catch, bind, doc_image. cbn [fst snd].
  rewrite D. reflexivity.
Qed.

(** Whatever happens to an image, [addImageSlide] returns normally. *)
Lemma addImageSlide_returns (imageData : ImageData) :
  outcome (addImageSlide W imageData) = Returns tt.
Proof.
  destruct (natural_size W (src imageData)) as [natural |] eqn:S.
  - destruct (PDFKit_image W (src imageData)) as [e |] eqn:D.
    + rewrite (addImageSlide_draw_throws _ S D). reflexivity.
    + rewrite (addImageSlide_drawn _ S D). reflexivity.
  - pose proof (natural_size_metadata_failure (src imageData)) as F.
    rewrite S in F. destruct F as [e F].
    rewrite (addImageSlide_unreadable _ F). reflexivity.
Qed.
End Slides.

(** ** Image pages *)

(** C6: on every image page the image is fitted into the box
    [PAGE_WIDTH - 2 * MARGIN] by [PAGE_HEIGHT - 2 * MARGIN - 80], that is
    1776 by 856, anchored at the top-left margin, whether or not the entry
    has a caption; a caption that is present is drawn centred over the full
    available width at [MARGIN + fitted height + 30], the fitted height
    being the natural height times the smaller of the two ratios of box to
    image, as [calculateImageSize] computes it: the caption follows the
    fitted image, not the box. *)
Theorem image_page_layout (W : World) (imageData : ImageData)
    (natural : ImageDimensions float) :
  natural_size W (src imageData) = Some natural ->
  PDFKit_image W (src imageData) = None ->
  let fitted :=
    calculateImageSize (width natural) (height natural) availableWidth availableHeight in
  (availableWidth = PAGE_WIDTH - MARGIN - MARGIN /\ availableWidth = 1776 /\
   availableHeight = PAGE_HEIGHT - MARGIN - MARGIN - 80 /\ availableHeight = 856) /\
  height fitted
  = height natural * float_min (1776 / width natural) (856 / height natural) /\
  trace (addImageSlide W imageData) =
    SharpMetadata (src imageData)
    :: DocImage (src imageData) MARGIN MARGIN availableWidth availableHeight center center
    :: match caption_present imageData with
       | Some text =>
           [DocText CAPTION_FONT_SIZE FONT text MARGIN
              (72 + height natural * float_min (1776 / width natural) (856 / height natural)
               + 30)
              1776 center]
       | None => []
       end.
Proof.
  intros S D fitted. split; [| split].
  - repeat split; vm_compute; reflexivity.
  - reflexivity.
  - rewrite (addImageSlide_drawn _ _ S D). reflexivity.
Qed.

(** Under a panorama of 1776 x 100 the caption is drawn at 202, which is
    72 + 100 + 30; below the box it would be at 958. *)
Lemma image_page_layout_witness :
  natural_size panorama_world (src good_image) = Some {| width := 1776; height := 100 |} /\
  PDFKit_image panorama_world (src good_image) = None /\
  height (calculateImageSize 1776 100 availableWidth availableHeight) = 100 /\
  trace (addImageSlide panorama_world good_image) =
    [SharpMetadata "good.png";
     DocImage "good.png" 72 72 1776 856 center center;
     DocText 26 "Helvetica" "A caption" 72 202 1776 center].
Proof.
  split; [reflexivity | split; [reflexivity |]].
  destruct (@image_page_layout panorama_world good_image
              {| width := 1776; height := 100 |} eq_refl eq_refl) as (_ & H & T).
  split; [exact H | exact T].
Defined.

(** The caption follows the fitted image, not the reserved box: under a
    1776 x 100 image it is drawn at 202, not at 958; under an 800 x 600
    image, which fills the height of the box, at 958. *)
Example caption_follows_image_height :
  caption_events good_image (calculateImageSize 1776 100 availableWidth availableHeight)
  = [DocText 26 "Helvetica" "A caption" 72 202 1776 center]
  /\ caption_events good_image (calculateImageSize 800 600 availableWidth availableHeight)
     = [DocText 26 "Helvetica" "A caption" 72 958 1776 center]
  /\ MARGIN + availableHeight + 30 = 958.
Proof. repeat split; vm_compute; reflexivity. Qed.

(** ** The title page *)

(** C7: the title is drawn at [centerY - 80] (460) when there is a
    subtitle and at [centerY - 50] (490) when there is none, the subtitle at
    [centerY - 20] (520), [centerY] being half the page height; both lines
    start at the left margin, span the available width (page width minus
    two margins, 1776) and are centred; so the title sits higher when a
    subtitle follows. *)
Theorem title_slide_layout (title subtitle : string) :
  let centerY := PAGE_HEIGHT / 2 in
  let titleY := if truthy subtitle then centerY - 80 else centerY - 50 in
  let subtitleY := centerY - 20 in
  trace (addTitleSlide title subtitle) =
    DocText TITLE_FONT_SIZE FONT title MARGIN titleY (PAGE_WIDTH - 2 * MARGIN) center
    :: (if truthy subtitle
        then [DocText TITLE_FONT_SIZE FONT subtitle MARGIN subtitleY
                (PAGE_WIDTH - 2 * MARGIN) center]
        else [])
  /\ centerY = 540 /\ centerY - 80 = 460 /\ centerY - 50 = 490 /\ subtitleY = 520
  /\ PAGE_WIDTH - 2 * MARGIN = 1776
  /\ PrimFloat.ltb (centerY - 80) (centerY - 50) = true.
Proof.
  intros centerY titleY subtitleY. split.
  - unfold addTitleSlide, doc_text. rewrite bind_emit.
    subst titleY subtitleY centerY.
    destruct (truthy subtitle); reflexivity.
  - repeat split; vm_compute; reflexivity.
Qed.

(** ** Reading the dimensions *)

(** X10: [getImageDimensions] asks Sharp once and never throws. It
    returns dimensions exactly when Sharp resolves with a width and a
    height that are both present, not zero and not [NaN], and these are
    the dimensions it returns, with nothing logged; otherwise it returns
    [null] after logging one error that names the path and carries the
    cause: Sharp's error, or "Could not read image dimensions". *)
Theorem getImageDimensions_contract (W : World) (path : string) :
  match outcome (getImageDimensions W path) with
  | Returns (Some dimensions) =>
      Sharp_metadata W path
      = SharpResolves (Some (width dimensions)) (Some (height dimensions))
      /\ PrimFloat.is_zero (width dimensions) = false
      /\ PrimFloat.is_nan (width dimensions) = false
      /\ PrimFloat.is_zero (height dimensions) = false
      /\ PrimFloat.is_nan (height dimensions) = false
      /\ trace (getImageDimensions W path) = [SharpMetadata path]
  | Returns None =>
      exists cause : Error,
        trace (getImageDimensions W path)
        = [SharpMetadata path;
           Console ERROR ("Error reading image " ++ path ++ ":")%string (Some cause)]
        /\ (Sharp_metadata W path = SharpRejects cause
            \/ cause = "Could not read image dimensions"%string
               /\ exists metaWidth metaHeight : option float,
                    Sharp_metadata W path = SharpResolves metaWidth metaHeight
                    /\ (falsy_number metaWidth || falsy_number metaHeight)%bool = true)
  | Throws _ => False
  | Exits _ => False
  end.
Proof.
  unfold getImageDimensions.
  destruct (Sharp_metadata W path) as [e | metaWidth metaHeight] eqn:S.
  - cbn. exists e. split; [reflexivity | left; reflexivity].
  - destruct (falsy_number metaWidth || falsy_number metaHeight)%bool eqn:F.
    + cbn. eexists. split; [reflexivity |]. right. split; [reflexivity |].
      exists metaWidth, metaHeight. split; [reflexivity | exact F].
    + cbn. apply orb_false_elim in F. destruct F as [Fw Fh].
      destruct metaWidth as [w |]; [| discriminate Fw].
      destruct metaHeight as [h |]; [| discriminate Fh].
      cbn [falsy_number] in Fw, Fh.
      apply orb_false_elim in Fw. apply orb_false_elim in Fh.
      destruct Fw as [Zw Nw]. destruct Fh as [Zh Nh].
      cbn [number_or_zero width height]. repeat split; assumption.
Qed.

(** ** The loop over the images *)

Lemma not_last_index (len i : nat) :
  (Z.of_nat i <? Z.of_nat len - 1)%Z = (S i <? len)%nat.
Proof.
  destruct (Nat.ltb_spec (S i) len) as [L | L].
  - apply Z.ltb_lt. lia.
  - apply Z.ltb_ge. lia.
Qed.

(** Every slide begins by asking Sharp, and that is where it waits. *)
Lemma interrupt_addImageSlide (W : World) (e : Error) (imageData : ImageData) :
  interrupt e (trace (addImageSlide W imageData))
  = Some [SharpMetadata (src imageData); Uncaught e].
Proof.
  destruct (natural_size W (src imageData)) as [natural |] eqn:S.
  - destruct (PDFKit_image W (src imageData)) as [e' |] eqn:D.
    + rewrite (@addImageSlide_draw_throws W imageData natural e' S D). reflexivity.
    + rewrite (@addImageSlide_drawn W imageData natural S D). reflexivity.
  - pose proof (natural_size_metadata_failure W (src imageData)) as F.
    rewrite S in F. destruct F as [e' F].
    rewrite (@addImageSlide_unreadable W imageData e' F). reflexivity.
Qed.

Lemma bind_exits (A B : Type) (m : M A) (k : A -> M B) (code : Z) :
  outcome m = Exits code -> bind m k = (trace m, Exits code).
Proof.
  unfold outcome, trace, bind. destruct m as [events o]. cbn [fst snd].
  intros E. rewrite E. reflexivity.
Qed.

Section Loop.
Variable W : World.
Variable len : nat.

Lemma imageStep_undefined (i : nat) :
  imageStep W len i None =
    ([Console WARN ("Warning: Image data at index " ++ Number_toString (Z.of_nat i)
                    ++ " is undefined, skipping")%string None],
     Returns tt).
Proof. reflexivity. Qed.

Lemma imageStep_missing (i : nat) (imageData : ImageData) :
  Fs_existsSync W (src imageData) = false ->
  imageStep W len i (Some imageData) =
    ([ExistsSync (src imageData);
      Console WARN ("Warning: Image " ++ src imageData ++ " not found, skipping")%string
        None],
     Returns tt).
Proof.
  intros E. unfold imageStep. rewrite bind_emit, E. reflexivity.
Qed.

(** A turn that is not cut short: the probe, the slide, the page break. *)
Lemma imageStep_on_disk (i : nat) (imageData : ImageData) :
  Fs_existsSync W (src imageData) = true ->
  stream_error_pending W i = None ->
  imageStep W len i (Some imageData) =
    (ExistsSync (src imageData)
     :: trace (addImageSlide W imageData) ++ break_after len i,
     Returns tt).
Proof.
  intros E P. unfold imageStep, break_after, await_in_turn.
  rewrite bind_emit, E, P, not_last_index. cbn [negb].
  pose proof (addImageSlide_returns W imageData) as R.
  destruct (bind_returns (addImageSlide W imageData)
              (fun _ : unit => if (S i <? len)%nat then emit AddPage else ret tt) R)
    as [T O].
  rewrite T, O. destruct (S i <? len)%nat; reflexivity.
Qed.

(** A turn that is cut short: the probe, the call of Sharp, and the
    report of the runtime. *)
Lemma imageStep_cut_short (i : nat) (imageData : ImageData) (e : Error) :
  Fs_existsSync W (src imageData) = true ->
  stream_error_pending W i = Some e ->
  imageStep W len i (Some imageData) =
    ([ExistsSync (src imageData); SharpMetadata (src imageData); Uncaught e],
     Exits 1%Z).
Proof.
  intros E P. unfold imageStep, await_in_turn.
  rewrite bind_emit, E, P, interrupt_addImageSlide. reflexivity.
Qed.

(** No entry makes a turn throw; a turn ends the process only when it is
    cut short by the stream. *)
Lemma imageStep_outcome (i : nat) (entry : option ImageData) :
  outcome (imageStep W len i entry)
  = if interrupted W i entry then Exits 1%Z else Returns tt.
Proof.
  unfold interrupted. destruct entry as [imageData |]; [| reflexivity].
  cbn [on_disk]. destruct (Fs_existsSync W (src imageData)) eqn:E.
  - destruct (stream_error_pending W i) as [e |] eqn:P.
    + rewrite (imageStep_cut_short _ _ E P). reflexivity.
    + rewrite (imageStep_on_disk _ _ E P). reflexivity.
  - rewrite (imageStep_missing _ _ E). reflexivity.
Qed.

(** The loop runs its turns in order, and stops with the process at a
    turn that is cut short. *)
Lemma imageLoop_steps (rest : list (option ImageData)) :
  forall i : nat,
    imageLoop W len i rest
    = (List.concat (stepTraces W len i rest),
       if loop_completes W i rest then Returns tt else Exits 1%Z).
Proof.
  induction rest as [| entry rest' IH]; intros i.
  - reflexivity.
  - cbn [imageLoop stepTraces loop_completes List.concat].
    pose proof (imageStep_outcome i entry) as O.
    destruct (interrupted W i entry).
    + rewrite (bind_exits _ _ O). cbn [negb andb List.concat].
      rewrite app_nil_r. reflexivity.
    + destruct (bind_returns (imageStep W len i entry)
                  (fun _ : unit => imageLoop W len (S i) rest') O) as [T O'].
      rewrite (surjective_pairing (bind _ _)).
      unfold trace, outcome in T, O'. rewrite T, O', IH. reflexivity.
Qed.

Lemma stepTraces_nth (rest : list (option ImageData)) :
  forall (i k : nat) (entry : option ImageData),
    loop_completes W i rest = true ->
    nth_error rest k = Some entry ->
    nth_error (stepTraces W len i rest) k = Some (trace (imageStep W len (i + k) entry)).
Proof.
  induction rest as [| e rest' IH]; intros i k entry C Hk.
  - destruct k; discriminate Hk.
  - cbn [loop_completes] in C. apply andb_prop in C. destruct C as [Ce C'].
    apply negb_true_iff in Ce.
    destruct k as [| k'].
    + inversion Hk. subst. rewrite Nat.add_0_r. reflexivity.
    + cbn [stepTraces nth_error]. rewrite Ce. rewrite (IH (S i) k' entry C' Hk).
      rewrite Nat.add_succ_r. reflexivity.
Qed.
End Loop.

(** ** The assembler *)

Lemma addTitleSlide_returns (title subtitle : string) :
  addTitleSlide title subtitle = (trace (addTitleSlide title subtitle), Returns tt).
Proof.
  unfold addTitleSlide, doc_text. rewrite bind_emit.
  destruct (truthy subtitle); reflexivity.
Qed.

(** The assembler's trace: document and stream, title part, the turns of
    the loop; then, when the loop is not cut short, the end of the document
    and the closing, and it returns whether the stream finished. When a
    turn is cut short the process ends there. *)
Lemma createPdfSlideshow_unfold (W : World) (config : SlideshowConfig) (out : string) :
  createPdfSlideshow W config out =
    (NewDocument PAGE_WIDTH PAGE_HEIGHT MARGIN
     :: CreateWriteStream ("./dist/" ++ out)%string
     :: title_part config
     ++ List.concat (stepTraces W (List.length (images config)) 0 (images config))
     ++ (if uninterrupted W config then DocEnd :: closing W out else []),
     if uninterrupted W config
     then Returns (match stream_result W with None => true | Some _ => false end)
     else Exits 1%Z).
Proof.
  unfold createPdfSlideshow, title_part, title_page, closing, await_stream, uninterrupted.
  rewrite imageLoop_steps.
  rewrite (addTitleSlide_returns (title config) (subtitle config)).
  destruct (truthy (title config));
    destruct (loop_completes W 0 (images config));
    destruct (stream_result W) as [e |];
    cbv beta iota zeta delta [try_catch bind emit ret throw console_log console_error
                              trace outcome fst snd];
    cbn [app]; rewrite <- ?app_assoc, ?app_nil_r; reflexivity.
Qed.

(** A turn is cut short only by an error of the stream. *)
Lemma interrupted_stream_fails (W : World) (i : nat) (entry : option ImageData) :
  interrupted W i entry = true -> exists e : Error, stream_result W = Some e.
Proof.
  unfold interrupted, stream_error_pending. intros I.
  apply andb_prop in I. destruct I as [_ I].
  destruct (stream_result W) as [e |]; [exists e; reflexivity | discriminate I].
Qed.

Lemma loop_cut_stream_fails (W : World) (rest : list (option ImageData)) :
  forall i : nat,
    loop_completes W i rest = false -> exists e : Error, stream_result W = Some e.
Proof.
  induction rest as [| entry rest' IH]; intros i C.
  - discriminate C.
  - cbn [loop_completes] in C. destruct (interrupted W i entry) eqn:I.
    + exact (interrupted_stream_fails _ _ _ I).
    + exact (IH (S i) C).
Qed.

(** ** The whole process *)

(** The exit code of the process: failure for an empty image list and for
    a stream that fails, whether its error is caught at the final wait or
    ends the process during the loop; success otherwise. *)
Lemma run_exit_code (W : World) (config : SlideshowConfig) :
  snd (run W config) =
    if (List.length (images config) =? 0)%nat then 1%Z
    else match stream_result W with None => 0%Z | Some _ => 1%Z end.
Proof.
  unfold run, main.
  destruct (List.length (images config) =? 0)%nat.
  - reflexivity.
  - rewrite createPdfSlideshow_unfold.
    destruct (uninterrupted W config) eqn:U.
    + unfold bind, outcome, trace, console_log, emit, ret, process_exit. cbn [fst snd].
      destruct (truthy (subtitle config)); cbn [fst snd];
        destruct (stream_result W); cbn [fst snd];
        destruct (truthy (title config)); reflexivity.
    + destruct (loop_cut_stream_fails _ _ _ U) as [e S]. rewrite S.
      unfold bind, outcome, trace, console_log, emit, ret, process_exit. cbn [fst snd].
      destruct (truthy (subtitle config)); reflexivity.
Qed.

(** C4: when the image list is empty the process prints its banner and
    the error, and exits with code 1; it probes no file, opens no stream
    and constructs no document, so there is no output file. *)
Theorem empty_images_rejected (W : World) (config : SlideshowConfig) :
  images config = [] ->
  run W config =
    ([Console LOG "PDF Slideshow Generator (TypeScript/Bun)" None;
      Console LOG "========================================" None;
      Console ERROR "No images found in configuration" None;
      ProcessExit 1],
     1%Z)
  /\ existsb is_file_io (fst (run W config)) = false
  /\ pages W (fst (run W config)) = [].
Proof.
  intros E.
  assert (R : run W config =
                ([Console LOG "PDF Slideshow Generator (TypeScript/Bun)" None;
                  Console LOG "========================================" None;
                  Console ERROR "No images found in configuration" None;
                  ProcessExit 1],
                 1%Z)).
  { unfold run, main. rewrite E. reflexivity. }
  rewrite R. repeat split.
Qed.

Lemma empty_images_rejected_witness :
  images {| title := "My Trip!"; subtitle := ""; images := [] |} = [] /\
  snd (run sample_world {| title := "My Trip!"; subtitle := ""; images := [] |}) = 1%Z /\
  existsb is_file_io
    (fst (run sample_world {| title := "My Trip!"; subtitle := ""; images := [] |})) = false.
Proof.
  split; [reflexivity |].
  destruct (@empty_images_rejected sample_world
              {| title := "My Trip!"; subtitle := ""; images := [] |} eq_refl)
    as (R & IO & _).
  split; [rewrite R; reflexivity | exact IO].
Defined.

(** ** A failed image and its page *)

(** An entry whose file exists but whose dimensions cannot be read leaves
    nothing drawn, yet the loop still breaks the page after it when it is
    not the last index. *)
Lemma imageStep_unreadable (W : World) (len i : nat) (imageData : ImageData) (e : Error) :
  Fs_existsSync W (src imageData) = true ->
  stream_error_pending W i = None ->
  metadata_failure W (src imageData) = Some e ->
  trace (imageStep W len i (Some imageData)) =
    ([ExistsSync (src imageData);
      SharpMetadata (src imageData);
      Console ERROR ("Error reading image " ++ src imageData ++ ":")%string (Some e);
      Console ERROR ("Error adding image slide for " ++ src imageData ++ ":")%string
        (Some ("Could not get dimensions for " ++ src imageData)%string)]
     ++ break_after len i)%list.
Proof.
  intros E P F.
  rewrite (@imageStep_on_disk W len i imageData E P).
  rewrite (@addImageSlide_unreadable W imageData e F).
  reflexivity.
Qed.

(** C2 (the code at the failing input): in an untitled slideshow of an
    unreadable image followed by a readable one, the unreadable image's
    file exists and Sharp rejects it; the errors are logged, and the
    document has two pages, the first of them blank. *)
Theorem unreadable_image_leaves_blank_page :
  Fs_existsSync sample_world (src bad_image) = true /\
  natural_size sample_world (src bad_image) = None /\
  trace (imageStep sample_world 2 0 (Some bad_image)) =
    [ExistsSync "bad.png"; SharpMetadata "bad.png";
     Console ERROR "Error reading image bad.png:"
       (Some "Input file contains unsupported image format"%string);
     Console ERROR "Error adding image slide for bad.png:"
       (Some "Could not get dimensions for bad.png"%string);
     AddPage] /\
  pages sample_world (trace (createPdfSlideshow sample_world bad_then_good "out.pdf")) =
    [[];
     [DocImage "good.png" 72 72 1776 856 center center;
      DocText 26 "Helvetica" "A caption" 72 958 1776 center]].
Proof.
  split; [reflexivity | split; [reflexivity | split]].
  - rewrite (@imageStep_unreadable sample_world 2 0 bad_image
               "Input file contains unsupported image format"%string
               eq_refl eq_refl eq_refl).
    reflexivity.
  - vm_compute. reflexivity.
Qed.

(** ** Pages *)

Local Close Scope float_scope.
Local Close Scope Q_scope.
Local Open Scope list_scope.

Lemma filter_all (A : Type) (P : A -> bool) (l : list A) :
  forallb P l = true -> filter P l = l.
Proof.
  induction l as [| x l' IH]; intros F.
  - reflexivity.
  - cbn [forallb] in F. apply andb_prop in F. destruct F as [Fx F'].
    cbn [filter]. rewrite Fx, (IH F'). reflexivity.
Qed.

Lemma filter_none (A : Type) (P : A -> bool) (l : list A) :
  existsb P l = false -> filter P l = [].
Proof.
  induction l as [| x l' IH]; intros F.
  - reflexivity.
  - cbn [existsb] in F. apply orb_false_elim in F. destruct F as [Fx F'].
    cbn [filter]. rewrite Fx. exact (IH F').
Qed.

Lemma flat_map_nil (A B : Type) (l : list A) : flat_map (fun _ : A => @nil B) l = [].
Proof. induction l as [| x l' IH]; [reflexivity | exact IH]. Qed.

Lemma page_breaks_app (t1 t2 : list Event) :
  page_breaks (t1 ++ t2) = page_breaks t1 + page_breaks t2.
Proof. unfold page_breaks. rewrite filter_app, length_app. reflexivity. Qed.

Lemma page_breaks_draws (draws : list Event) :
  forallb is_draw draws = true -> page_breaks draws = 0.
Proof.
  induction draws as [| d draws' IH]; intros D.
  - reflexivity.
  - cbn [forallb] in D. apply andb_prop in D. destruct D as [Dd D'].
    destruct d; try discriminate Dd; exact (IH D').
Qed.

Lemma no_overflow_app (W : World) (t1 t2 : list Event) :
  no_overflow W (t1 ++ t2) = (no_overflow W t1 && no_overflow W t2)%bool.
Proof. unfold no_overflow. apply forallb_app. Qed.

Lemma overflow_pages_app (W : World) (t1 t2 : list Event) :
  overflow_pages W (t1 ++ t2) = overflow_pages W t1 + overflow_pages W t2.
Proof. unfold overflow_pages. rewrite map_app, list_sum_app. reflexivity. Qed.

Lemma overflow_pages_cons (W : World) (ev : Event) (tr : list Event) :
  overflow_pages W (ev :: tr) = text_overflow W ev + overflow_pages W tr.
Proof. reflexivity. Qed.

(** Where no text runs past its page, PDFKit opens no page of its own. *)
Lemma no_overflow_pages (W : World) (tr : list Event) :
  no_overflow W tr = true -> overflow_pages W tr = 0.
Proof.
  induction tr as [| ev tr' IH]; intros N.
  - reflexivity.
  - unfold no_overflow in N. cbn [forallb] in N. apply andb_prop in N.
    destruct N as [Ne N']. apply Nat.eqb_eq in Ne.
    rewrite overflow_pages_cons, Ne, (IH N'). reflexivity.
Qed.

(** Draws that fit go to the current page. *)
Lemma pages_from_draws (W : World) (draws : list Event) :
  forallb is_draw draws = true ->
  no_overflow W draws = true ->
  forall (cur : Page) (tr : list Event),
    pages_from W cur (draws ++ tr) = pages_from W (cur ++ draws) tr.
Proof.
  induction draws as [| d draws' IH]; intros D N cur tr.
  - rewrite app_nil_r. reflexivity.
  - cbn [forallb] in D. apply andb_prop in D. destruct D as [Dd D'].
    unfold no_overflow in N. cbn [forallb] in N. apply andb_prop in N.
    destruct N as [Nd N']. apply Nat.eqb_eq in Nd.
    replace (cur ++ d :: draws')%list with ((cur ++ [d]) ++ draws')%list
      by (rewrite <- app_assoc; reflexivity).
    rewrite <- (IH D' N' (cur ++ [d])%list tr).
    destruct d; try discriminate Dd; cbn [app pages_from is_draw]; rewrite Nd; reflexivity.
Qed.

(** Events that neither draw nor break the page leave the pages alone. *)
Lemma pages_from_quiet (W : World) (tr : list Event) :
  forallb quiet tr = true -> forall cur : Page, pages_from W cur tr = [cur].
Proof.
  induction tr as [| ev tr' IH]; intros Q cur.
  - reflexivity.
  - cbn [forallb] in Q. apply andb_prop in Q. destruct Q as [Qe Q'].
    destruct ev; try discriminate Qe; cbn [pages_from is_draw]; apply IH; exact Q'.
Qed.

Lemma closing_quiet (W : World) (out : string) :
  forallb quiet (DocEnd :: closing W out) = true.
Proof. unfold closing. destruct (stream_result W); reflexivity. Qed.

Lemma caption_events_draws (imageData : ImageData) (fitted : ImageDimensions float) :
  forallb is_draw (caption_events imageData fitted) = true
  /\ existsb is_title_text (caption_events imageData fitted) = false
  /\ page_breaks (caption_events imageData fitted) = 0.
Proof.
  unfold caption_events. destruct (caption_present imageData); repeat split.
Qed.

(** The three ways a slide can go. *)
Ltac slide_cases W imageData :=
  let natural := fresh "natural" in
  let S := fresh "S" in
  let D := fresh "D" in
  let e := fresh "e" in
  let F := fresh "F" in
  destruct (natural_size W (src imageData)) as [natural |] eqn:S;
  [ destruct (PDFKit_image W (src imageData)) as [e |] eqn:D;
    [ rewrite (@addImageSlide_draw_throws W imageData natural e S D)
    | rewrite (@addImageSlide_drawn W imageData natural S D) ]
  | pose proof (natural_size_metadata_failure W (src imageData)) as F;
    rewrite S in F; destruct F as [e F];
    rewrite (@addImageSlide_unreadable W imageData e F) ].

(** A slide never breaks the page and never sets text in the title size. *)
Lemma addImageSlide_events (W : World) (imageData : ImageData) :
  page_breaks (trace (addImageSlide W imageData)) = 0
  /\ existsb is_title_text (trace (addImageSlide W imageData)) = false.
Proof.
  slide_cases W imageData; try (split; reflexivity).
  destruct (caption_events_draws imageData
              (calculateImageSize (width natural) (height natural)
                 availableWidth availableHeight)) as (_ & T & B).
  split.
  - change (page_breaks (caption_events imageData
              (calculateImageSize (width natural) (height natural)
                 availableWidth availableHeight)) = 0). exact B.
  - cbn [trace fst existsb is_title_text orb]. exact T.
Qed.

(** ** The turns of the loop *)

(** A turn on a file that is on disk is not cut short exactly when no
    error of the stream is ready. *)
Lemma on_disk_not_interrupted (W : World) (i : nat) (imageData : ImageData) :
  Fs_existsSync W (src imageData) = true ->
  interrupted W i (Some imageData) = false ->
  stream_error_pending W i = None.
Proof.
  unfold interrupted. cbn [on_disk]. intros E I. rewrite E in I. cbn [andb] in I.
  destruct (stream_error_pending W i); [discriminate I | reflexivity].
Qed.

(** The trace of a turn that is cut short. *)
Lemma interrupted_trace (W : World) (len i : nat) (entry : option ImageData) :
  interrupted W i entry = true ->
  exists (imageData : ImageData) (e : Error),
    entry = Some imageData
    /\ Fs_existsSync W (src imageData) = true
    /\ stream_result W = Some e
    /\ imageStep W len i entry
       = ([ExistsSync (src imageData); SharpMetadata (src imageData); Uncaught e],
          Exits 1%Z).
Proof.
  unfold interrupted. intros I. apply andb_prop in I. destruct I as [O P].
  destruct entry as [imageData |]; [| discriminate O]. cbn [on_disk] in O.
  destruct (stream_error_pending W i) as [e |] eqn:Pe; [| discriminate P].
  exists imageData, e. split; [reflexivity | split; [exact O | split]].
  - unfold stream_error_pending in Pe. destruct (stream_result W) as [e' |];
      [| discriminate Pe].
    destruct (stream_error_ready W <=? i)%nat; [| discriminate Pe]. exact Pe.
  - exact (@imageStep_cut_short W len i imageData e O Pe).
Qed.

(** The cases of a turn that runs to its end: the entry is undefined, its
    file is missing, or the slide is made and the page broken. *)
Ltac turn_cases W len i entry I :=
  let imageData := fresh "imageData" in
  let E := fresh "E" in
  destruct entry as [imageData |];
  [ destruct (Fs_existsSync W (src imageData)) eqn:E;
    [ rewrite (@imageStep_on_disk W len i imageData E
                 (@on_disk_not_interrupted W i imageData E I))
    | rewrite (@imageStep_missing W len i imageData E) ]
  | rewrite (imageStep_undefined W len i) ].

(** The cases of a turn that is cut short. *)
Ltac cut_case W len i entry I :=
  let imageData := fresh "imageData" in
  let e := fresh "e" in
  let Ee := fresh "Ee" in
  let E := fresh "E" in
  let S := fresh "S" in
  let T := fresh "T" in
  destruct (@interrupted_trace W len i entry I) as (imageData & e & Ee & E & S & T);
  rewrite T.

(** What a filter keeps of the loop, when what it keeps of a turn that
    runs to its end does not depend on the index, and it keeps nothing of
    a turn that is cut short. *)
Lemma filter_stepTraces (P : Event -> bool) (g : option ImageData -> list Event)
    (W : World) (len : nat) :
  (forall (path : string) (e : Error),
     filter P [ExistsSync path; SharpMetadata path; Uncaught e] = []) ->
  (forall (i : nat) (entry : option ImageData),
     interrupted W i entry = false ->
     filter P (trace (imageStep W len i entry)) = g entry) ->
  forall (rest : list (option ImageData)) (i : nat),
    filter P (List.concat (stepTraces W len i rest)) = flat_map g (completed W i rest).
Proof.
  intros Cut G rest. induction rest as [| entry rest' IH]; intros i.
  - reflexivity.
  - cbn [stepTraces completed List.concat]. rewrite filter_app.
    destruct (interrupted W i entry) eqn:I.
    + cut_case W len i entry I. cbn [trace fst List.concat].
      rewrite Cut. reflexivity.
    + cbn [flat_map]. rewrite (G i entry I), IH. reflexivity.
Qed.

(** The same for counting. *)
Lemma count_stepTraces (P : Event -> bool) (c : option ImageData -> nat)
    (W : World) (len : nat) :
  (forall (path : string) (e : Error),
     filter P [ExistsSync path; SharpMetadata path; Uncaught e] = []) ->
  (forall (i : nat) (entry : option ImageData),
     interrupted W i entry = false ->
     List.length (filter P (trace (imageStep W len i entry))) = c entry) ->
  forall (rest : list (option ImageData)) (i : nat),
    List.length (filter P (List.concat (stepTraces W len i rest)))
    = list_sum (map c (completed W i rest)).
Proof.
  intros Cut C rest. induction rest as [| entry rest' IH]; intros i.
  - reflexivity.
  - cbn [stepTraces completed List.concat]. rewrite filter_app, length_app.
    destruct (interrupted W i entry) eqn:I.
    + cut_case W len i entry I. cbn [trace fst List.concat].
      rewrite Cut. reflexivity.
    + change (map c (entry :: completed W (S i) rest'))
        with (c entry :: map c (completed W (S i) rest')).
      change (list_sum (c entry :: map c (completed W (S i) rest')))
        with (c entry + list_sum (map c (completed W (S i) rest'))).
      rewrite (C i entry I), IH. reflexivity.
Qed.

(** When no turn is cut short, every entry's turn runs to its end. *)
Lemma completed_all (W : World) (rest : list (option ImageData)) :
  forall i : nat, loop_completes W i rest = true -> completed W i rest = rest.
Proof.
  induction rest as [| entry rest' IH]; intros i C.
  - reflexivity.
  - cbn [loop_completes] in C. apply andb_prop in C. destruct C as [Ce C'].
    apply negb_true_iff in Ce. cbn [completed]. rewrite Ce, (IH (S i) C').
    reflexivity.
Qed.

Lemma existsb_break_after (len i : nat) :
  existsb is_title_text (break_after len i) = false.
Proof. unfold break_after. destruct (S i <? len)%nat; reflexivity. Qed.

Lemma imageStep_no_title_text (W : World) (len i : nat) (entry : option ImageData) :
  existsb is_title_text (trace (imageStep W len i entry)) = false.
Proof.
  destruct (interrupted W i entry) eqn:I.
  - cut_case W len i entry I. reflexivity.
  - turn_cases W len i entry I; try reflexivity.
    cbn [trace fst existsb is_title_text orb]. rewrite existsb_app.
    rewrite (proj2 (addImageSlide_events W imageData)), existsb_break_after. reflexivity.
Qed.

Lemma stepTraces_no_title_text (W : World) (len : nat) (rest : list (option ImageData)) :
  forall i : nat, existsb is_title_text (List.concat (stepTraces W len i rest)) = false.
Proof.
  induction rest as [| entry rest' IH]; intros i.
  - reflexivity.
  - cbn [stepTraces List.concat]. rewrite existsb_app, imageStep_no_title_text.
    destruct (interrupted W i entry); [reflexivity | apply IH].
Qed.

(** The trace of a turn on a readable image: probe, metadata, image,
    caption, page break. *)
Lemma imageStep_readable (W : World) (len i : nat) (imageData : ImageData) :
  readable W (Some imageData) = true ->
  stream_error_pending W i = None ->
  exists natural : ImageDimensions float,
    natural_size W (src imageData) = Some natural /\
    trace (imageStep W len i (Some imageData)) =
      (ExistsSync (src imageData)
       :: SharpMetadata (src imageData)
       :: (DocImage (src imageData) MARGIN MARGIN availableWidth availableHeight
             center center
           :: caption_events imageData
                (calculateImageSize (width natural) (height natural)
                   availableWidth availableHeight))
       ++ break_after len i)%list.
Proof.
  unfold readable. intros R P.
  apply andb_prop in R. destruct R as [R D]. apply andb_prop in R. destruct R as [E S].
  destruct (natural_size W (src imageData)) as [natural |] eqn:S'; [| discriminate S].
  destruct (PDFKit_image W (src imageData)) as [e |] eqn:D'; [discriminate D |].
  exists natural. split; [reflexivity |].
  rewrite (@imageStep_on_disk W len i imageData E P).
  rewrite (@addImageSlide_drawn W imageData natural S' D'). reflexivity.
Qed.

(** The page breaks of a turn that runs to its end. *)
Lemma imageStep_page_breaks (W : World) (len i : nat) (entry : option ImageData) :
  interrupted W i entry = false ->
  page_breaks (trace (imageStep W len i entry))
  = if (on_disk W entry && (S i <? len)%nat)%bool then 1 else 0.
Proof.
  intros I. turn_cases W len i entry I; cbn [on_disk]; try rewrite E; try reflexivity.
  cbn [trace fst andb].
  change (page_breaks (ExistsSync (src imageData)
                       :: trace (addImageSlide W imageData) ++ break_after len i))
    with (page_breaks (trace (addImageSlide W imageData) ++ break_after len i)).
  rewrite page_breaks_app, (proj1 (addImageSlide_events W imageData)).
  unfold break_after. destruct (S i <? len)%nat; reflexivity.
Qed.

Lemma filter_draw_break_after (len i : nat) : filter is_draw (break_after len i) = [].
Proof. unfold break_after. destruct (S i <? len)%nat; reflexivity. Qed.

(** What a turn that runs to its end draws. *)
Lemma imageStep_draws (W : World) (len i : nat) (entry : option ImageData) :
  interrupted W i entry = false ->
  filter is_draw (trace (imageStep W len i entry)) = slide_draws W entry.
Proof.
  intros I. turn_cases W len i entry I; unfold slide_draws; try rewrite E;
    try reflexivity.
  cbn [trace fst filter is_draw].
  rewrite filter_app, filter_draw_break_after, app_nil_r.
  slide_cases W imageData; try reflexivity.
  cbn [trace fst filter is_draw].
  rewrite (filter_all _ _ (proj1 (caption_events_draws imageData _))).
  reflexivity.
Qed.

Lemma title_page_draws (config : SlideshowConfig) :
  forallb is_draw (title_page config) = true
  /\ existsb is_title_text (title_page config) = true
  /\ blank (title_page config) = false.
Proof.
  unfold title_page, addTitleSlide, doc_text. rewrite bind_emit.
  destruct (truthy (subtitle config)); repeat split.
Qed.

(** ** Counting pages *)

(** Every page after the first is opened by a page break of the program
    or by PDFKit for a text that runs on. *)
Lemma length_pages_from (W : World) (tr : list Event) :
  forall cur : Page,
    List.length (pages_from W cur tr) = S (page_breaks tr + overflow_pages W tr).
Proof.
  induction tr as [| ev tr' IH]; intros cur.
  - reflexivity.
  - rewrite overflow_pages_cons.
    destruct ev; cbn [pages_from is_draw text_overflow];
      try (rewrite IH; reflexivity).
    + (* a text *)
      destruct (PDFKit_text_overflow W fontSize font text x y textWidth) as [| n].
      * rewrite IH. reflexivity.
      * cbn [List.length]. rewrite length_app, repeat_length, IH.
        change (page_breaks (DocText fontSize font text x y textWidth align :: tr'))
          with (page_breaks tr'). lia.
    + (* a page break *)
      cbn [List.length]. rewrite IH.
      change (page_breaks (AddPage :: tr')) with (S (page_breaks tr')). lia.
Qed.

(** The page breaks of the loop when no turn is cut short: one for each
    entry on disk that is not the last of the list. *)
Lemma stepTraces_page_breaks (W : World) (len : nat) (rest : list (option ImageData)) :
  forall i : nat,
    i + List.length rest = len ->
    loop_completes W i rest = true ->
    page_breaks (List.concat (stepTraces W len i rest))
    = List.length (filter (on_disk W) (removelast rest)).
Proof.
  induction rest as [| entry rest' IH]; intros i L C.
  - reflexivity.
  - cbn [loop_completes] in C. apply andb_prop in C. destruct C as [Ce C'].
    apply negb_true_iff in Ce.
    cbn [stepTraces List.concat]. rewrite Ce.
    rewrite page_breaks_app, (imageStep_page_breaks _ _ _ _ Ce).
    cbn [List.length] in L.
    destruct rest' as [| entry' rest''].
    + cbn [List.length] in L.
      replace (S i <? len)%nat with false by (symmetry; apply Nat.ltb_ge; lia).
      rewrite andb_false_r. reflexivity.
    + replace (S i <? len)%nat with true
        by (symmetry; apply Nat.ltb_lt; cbn [List.length] in L; lia).
      rewrite andb_true_r, (IH (S i)) by (try lia; exact C').
      change (removelast (entry :: entry' :: rest''))
        with (entry :: removelast (entry' :: rest'')).
      cbn [filter]. destruct (on_disk W entry); reflexivity.
Qed.

Lemma title_part_page_breaks (config : SlideshowConfig) :
  page_breaks (title_part config) = if truthy (title config) then 1 else 0.
Proof.
  unfold title_part. destruct (truthy (title config)); [| reflexivity].
  rewrite page_breaks_app, (page_breaks_draws _ (proj1 (title_page_draws config))).
  reflexivity.
Qed.

Lemma closing_page_breaks (W : World) (out : string) :
  page_breaks (DocEnd :: closing W out) = 0.
Proof. unfold closing. destruct (stream_result W); reflexivity. Qed.

(** The page breaks of a run that is not cut short. *)
Lemma assembler_page_breaks (W : World) (config : SlideshowConfig) (out : string) :
  uninterrupted W config = true ->
  page_breaks (trace (createPdfSlideshow W config out))
  = (if truthy (title config) then 1 else 0)
    + List.length (filter (on_disk W) (removelast (images config))).
Proof.
  intros U. rewrite createPdfSlideshow_unfold, U. cbn [trace fst].
  change (page_breaks (NewDocument PAGE_WIDTH PAGE_HEIGHT MARGIN
            :: CreateWriteStream ("./dist/" ++ out)%string
            :: title_part config
            ++ List.concat (stepTraces W (List.length (images config)) 0 (images config))
            ++ DocEnd :: closing W out))
    with (page_breaks (title_part config
            ++ List.concat (stepTraces W (List.length (images config)) 0 (images config))
            ++ DocEnd :: closing W out)).
  rewrite !page_breaks_app, title_part_page_breaks, closing_page_breaks.
  rewrite (@stepTraces_page_breaks W (List.length (images config)) (images config) 0
             eq_refl U).
  lia.
Qed.

(** The number of pages of a run that is not cut short. *)
Lemma assembler_page_count (W : World) (config : SlideshowConfig) (out : string) :
  uninterrupted W config = true ->
  List.length (pages W (trace (createPdfSlideshow W config out)))
  = 1 + (if truthy (title config) then 1 else 0)
    + List.length (filter (on_disk W) (removelast (images config)))
    + overflow_pages W (trace (createPdfSlideshow W config out)).
Proof.
  intros U. pose proof (assembler_page_breaks W config out U) as B.
  rewrite createPdfSlideshow_unfold in *. cbn [trace fst pages] in *.
  rewrite length_pages_from, !overflow_pages_cons. cbn [text_overflow].
  match type of B with
  | page_breaks (_ :: ?tr) = _ => change (page_breaks tr = (if truthy (title config) then 1 else 0)
    + List.length (filter (on_disk W) (removelast (images config)))) in B
  end.
  rewrite B. lia.
Qed.

(** ** The pages of the loop *)

(** Without a page break and without a text that runs on, what is drawn
    goes to the current page. *)
Lemma pages_from_no_break (W : World) (t1 : list Event) :
  page_breaks t1 = 0 ->
  no_overflow W t1 = true ->
  forall (cur : Page) (t2 : list Event),
    pages_from W cur (t1 ++ t2) = pages_from W (cur ++ filter is_draw t1) t2.
Proof.
  induction t1 as [| ev t1' IH]; intros B N cur t2.
  - cbn [app filter]. rewrite app_nil_r. reflexivity.
  - unfold no_overflow in N. cbn [forallb] in N. apply andb_prop in N.
    destruct N as [Ne N']. apply Nat.eqb_eq in Ne.
    destruct ev; try discriminate B;
      cbn [app pages_from is_draw filter]; try rewrite Ne;
      rewrite (IH B N'); rewrite <- ?app_assoc; reflexivity.
Qed.

(** The pages of the loop, from a fresh page, when no turn is cut short
    and no text runs on: one for each entry on disk that is not the last of
    the list, and the page the last entry is left with. *)
Lemma pages_from_stepTraces (W : World) (len : nat) (tail : list Event) :
  forallb quiet tail = true ->
  forall (rest : list (option ImageData)) (i : nat),
    i + List.length rest = len ->
    loop_completes W i rest = true ->
    no_overflow W (List.concat (stepTraces W len i rest)) = true ->
    pages_from W [] (List.concat (stepTraces W len i rest) ++ tail)
    = map (slide_draws W) (filter (on_disk W) (removelast rest))
      ++ [slide_draws W (last rest None)].
Proof.
  intros Q rest. induction rest as [| entry rest' IH]; intros i L C N.
  - cbn [stepTraces List.concat app]. rewrite (pages_from_quiet W tail Q). reflexivity.
  - cbn [loop_completes] in C. apply andb_prop in C. destruct C as [Ce C'].
    apply negb_true_iff in Ce.
    cbn [stepTraces List.concat] in N |- *. rewrite Ce in N |- *.
    rewrite no_overflow_app in N. apply andb_prop in N. destruct N as [Ns N'].
    rewrite <- app_assoc.
    pose proof (imageStep_page_breaks W len i entry Ce) as B.
    pose proof (imageStep_draws W len i entry Ce) as D.
    cbn [List.length] in L.
    destruct rest' as [| entry' rest''].
    + (* the last entry: no page break *)
      cbn [List.length] in L.
      replace (S i <? len)%nat with false in B by (symmetry; apply Nat.ltb_ge; lia).
      rewrite andb_false_r in B.
      rewrite (pages_from_no_break W _ B Ns), D.
      cbn [stepTraces List.concat app]. rewrite (pages_from_quiet W tail Q). reflexivity.
    + replace (S i <? len)%nat with true in B
        by (symmetry; apply Nat.ltb_lt; cbn [List.length] in L; lia).
      rewrite andb_true_r in B.
      change (removelast (entry :: entry' :: rest''))
        with (entry :: removelast (entry' :: rest'')).
      change (last (entry :: entry' :: rest'') None) with (last (entry' :: rest'') None).
      specialize (IH (S i) ltac:(cbn [List.length] in *; lia) C' N').
      cbn [filter]. destruct (on_disk W entry) eqn:O.
      * (* on disk: the slide, then a page break *)
        destruct entry as [imageData |]; [| discriminate O]. cbn [on_disk] in O.
        pose proof (@on_disk_not_interrupted W i imageData O Ce) as P.
        rewrite (@imageStep_on_disk W len i imageData O P) in D, Ns |- *.
        cbn [trace fst] in D, Ns |- *. unfold break_after in D, Ns |- *.
        replace (S i <? len)%nat with true in D, Ns |- *
          by (symmetry; apply Nat.ltb_lt; cbn [List.length] in L; lia).
        rewrite <- app_comm_cons, <- app_assoc.
        rewrite app_comm_cons.
        rewrite app_comm_cons, no_overflow_app in Ns.
        apply andb_prop in Ns. destruct Ns as [Ns _].
        rewrite (pages_from_no_break W (ExistsSync (src imageData)
                                        :: trace (addImageSlide W imageData))).
        -- cbn [app pages_from map]. rewrite IH. f_equal.
           rewrite <- D. cbn [filter is_draw]. rewrite filter_app. cbn [filter is_draw].
           rewrite app_nil_r. reflexivity.
        -- exact (proj1 (addImageSlide_events W imageData)).
        -- exact Ns.
      * (* skipped: nothing drawn, no page break *)
        rewrite (pages_from_no_break W _ B Ns), D.
        replace (slide_draws W entry) with (@nil Event).
        -- exact IH.
        -- destruct entry as [imageData |]; [| reflexivity].
           cbn [on_disk] in O. unfold slide_draws. rewrite O. reflexivity.
Qed.

(** For a readable image the slide draws the image, so its page is not
    blank. *)
Lemma slide_draws_readable (W : World) (entry : option ImageData) :
  readable W entry = true -> blank (slide_draws W entry) = false.
Proof.
  unfold readable, slide_draws. destruct entry as [imageData |]; [| discriminate].
  intros R. apply andb_prop in R. destruct R as [R D].
  apply andb_prop in R. destruct R as [E S]. rewrite E.
  destruct (natural_size W (src imageData)); [| discriminate S].
  destruct (PDFKit_image W (src imageData)); [discriminate D | reflexivity].
Qed.

Lemma readable_on_disk (W : World) (entry : option ImageData) :
  readable W entry = true -> on_disk W entry = true.
Proof.
  unfold readable, on_disk. destruct entry as [imageData |]; [| discriminate].
  intros R. apply andb_prop in R. destruct R as [R _].
  apply andb_prop in R. exact (proj1 R).
Qed.

(** ** The last page *)

Lemma blank_after_app (t1 t2 : list Event) :
  forall b : bool, blank_after b (t1 ++ t2) = blank_after (blank_after b t1) t2.
Proof.
  induction t1 as [| ev t1' IH]; intros b; [reflexivity |].
  cbn [app blank_after]. apply IH.
Qed.

Lemma blank_after_quiet (tr : list Event) :
  forallb quiet tr = true -> forall b : bool, blank_after b tr = b.
Proof.
  induction tr as [| ev tr' IH]; intros Q b; [reflexivity |].
  cbn [forallb] in Q. apply andb_prop in Q. destruct Q as [Qe Q'].
  unfold quiet in Qe. apply andb_prop in Qe. destruct Qe as [Qd Qb].
  apply negb_true_iff in Qd. apply negb_true_iff in Qb.
  cbn [blank_after]. rewrite Qd, Qb. exact (IH Q' b).
Qed.

(** The last page of a document is the current page, and it is blank
    exactly when nothing was drawn since it was opened. *)
Lemma pages_from_last (W : World) (tr : list Event) :
  forall cur : Page,
    exists (before : list Page) (current : Page),
      pages_from W cur tr = before ++ [current]
      /\ blank current = blank_after (blank cur) tr.
Proof.
  assert (NB : forall (cur : Page) (ev : Event), blank (cur ++ [ev]) = false)
    by (intros [| x cur] ev; reflexivity).
  induction tr as [| ev tr' IH]; intros cur.
  - exists [], cur. split; reflexivity.
  - destruct (is_page_break ev) eqn:Bk.
    + destruct ev; try discriminate Bk.
      destruct (IH []) as (before & current & E & B).
      exists (cur :: before), current. cbn [pages_from blank_after is_page_break].
      rewrite E. split; [reflexivity | exact B].
    + destruct (is_draw ev) eqn:Dr.
      * assert (P : exists before current,
                   pages_from W cur (ev :: tr') = before ++ [current]
                   /\ blank current = blank_after false tr').
        { destruct (text_overflow W ev) as [| n] eqn:O.
          - destruct (IH (cur ++ [ev])) as (before & current & E & B).
            exists before, current. rewrite NB in B. split; [| exact B].
            destruct ev; try discriminate Dr; cbn [pages_from is_draw];
              rewrite O; exact E.
          - destruct (IH [ev]) as (before & current & E & B).
            exists ((cur ++ [ev]) :: repeat [ev] n ++ before), current.
            split; [| exact B].
            destruct ev; try discriminate Dr; cbn [pages_from is_draw];
              rewrite O, E, <- app_comm_cons, <- app_assoc; reflexivity. }
        destruct P as (before & current & E & B).
        exists before, current. cbn [blank_after]. rewrite Bk, Dr.
        split; [exact E | exact B].
      * destruct (IH cur) as (before & current & E & B).
        exists before, current. cbn [blank_after]. rewrite Bk, Dr.
        split; [| exact B].
        destruct ev; try discriminate Dr; try discriminate Bk; cbn [pages_from is_draw];
          exact E.
Qed.

(** In a loop that is not cut short, no turn is. *)
Lemma loop_completes_nth (W : World) (rest : list (option ImageData)) :
  forall (i k : nat) (entry : option ImageData),
    loop_completes W i rest = true ->
    nth_error rest k = Some entry ->
    interrupted W (i + k) entry = false.
Proof.
  induction rest as [| e rest' IH]; intros i k entry C Hk.
  - destruct k; discriminate Hk.
  - cbn [loop_completes] in C. apply andb_prop in C. destruct C as [Ce C'].
    apply negb_true_iff in Ce.
    destruct k as [| k'].
    + inversion Hk. subst. rewrite Nat.add_0_r. exact Ce.
    + rewrite Nat.add_succ_r. exact (IH (S i) k' entry C' Hk).
Qed.

(** When a turn is cut short, the entries whose turn runs to its end are
    those before it. *)
Lemma completed_cut (W : World) (rest : list (option ImageData)) :
  forall i : nat,
    loop_completes W i rest = false ->
    exists (before after : list (option ImageData)) (imageData : ImageData),
      rest = before ++ Some imageData :: after
      /\ completed W i rest = before
      /\ interrupted W (i + List.length before) (Some imageData) = true.
Proof.
  induction rest as [| entry rest' IH]; intros i C.
  - discriminate C.
  - cbn [loop_completes completed] in C |- *. destruct (interrupted W i entry) eqn:I.
    + destruct entry as [imageData |];
        [| unfold interrupted in I; cbn [on_disk andb] in I; discriminate I].
      exists [], rest', imageData. cbn [app List.length]. rewrite Nat.add_0_r.
      split; [reflexivity | split; [reflexivity | exact I]].
    + destruct (IH (S i) C) as (before & after & imageData & E & Cm & In').
      exists (entry :: before), after, imageData.
      cbn [app List.length]. rewrite Cm, Nat.add_succ_r. rewrite E at 1.
      split; [reflexivity | split; [reflexivity | exact In']].
Qed.

(** ** The pages of a run *)

Lemma readable_removelast (W : World) (rest : list (option ImageData)) :
  forallb (readable W) rest = true -> forallb (readable W) (removelast rest) = true.
Proof.
  induction rest as [| entry rest' IH]; intros R; [reflexivity |].
  cbn [forallb] in R. apply andb_prop in R. destruct R as [Re R'].
  destruct rest' as [| entry' rest'']; [reflexivity |].
  change (removelast (entry :: entry' :: rest''))
    with (entry :: removelast (entry' :: rest'')).
  cbn [forallb]. rewrite Re, (IH R'). reflexivity.
Qed.

Lemma readable_last (W : World) (rest : list (option ImageData)) :
  rest <> [] -> forallb (readable W) rest = true -> readable W (last rest None) = true.
Proof.
  induction rest as [| entry rest' IH]; intros NE R; [contradiction NE; reflexivity |].
  cbn [forallb] in R. apply andb_prop in R. destruct R as [Re R'].
  destruct rest' as [| entry' rest'']; [exact Re |].
  change (last (entry :: entry' :: rest'') None) with (last (entry' :: rest'') None).
  apply IH; [discriminate | exact R'].
Qed.

Lemma filter_on_disk_readable (W : World) (l : list (option ImageData)) :
  forallb (readable W) l = true -> filter (on_disk W) l = l.
Proof.
  intros R. apply filter_all. rewrite forallb_forall in R |- *.
  intros entry I. apply readable_on_disk, R, I.
Qed.

Lemma length_removelast_cons (A : Type) (l : list A) :
  l <> [] -> S (List.length (removelast l)) = List.length l.
Proof.
  induction l as [| x l' IH]; intros NE; [contradiction NE; reflexivity |].
  destruct l' as [| y l'']; [reflexivity |].
  change (removelast (x :: y :: l'')) with (x :: removelast (y :: l'')).
  specialize (IH ltac:(discriminate)).
  change (List.length (x :: removelast (y :: l''))) with (S (List.length (removelast (y :: l'')))).
  rewrite IH. reflexivity.
Qed.

(** The parts of the trace of a run that is not cut short hold no text
    that runs on, when the trace holds none. *)
Lemma no_overflow_parts (W : World) (config : SlideshowConfig) (out : string) :
  uninterrupted W config = true ->
  no_overflow W (trace (createPdfSlideshow W config out)) = true ->
  no_overflow W (title_part config) = true
  /\ no_overflow W
       (List.concat (stepTraces W (List.length (images config)) 0 (images config))) = true.
Proof.
  intros U N. rewrite createPdfSlideshow_unfold, U in N. cbn [trace fst] in N.
  change (no_overflow W
            (title_part config
             ++ List.concat (stepTraces W (List.length (images config)) 0 (images config))
             ++ DocEnd :: closing W out) = true) in N.
  rewrite !no_overflow_app in N.
  apply andb_prop in N. destruct N as [Nt N]. apply andb_prop in N.
  destruct N as [Ns _]. split; assumption.
Qed.

Lemma no_overflow_title_page (W : World) (config : SlideshowConfig) :
  truthy (title config) = true ->
  no_overflow W (title_part config) = true ->
  no_overflow W (title_page config) = true.
Proof.
  unfold title_part. intros T N. rewrite T, no_overflow_app in N.
  apply andb_prop in N. exact (proj1 N).
Qed.

(** The pages of a run that is not cut short and in which no text runs
    on: the title page when the title is not empty; one page for every
    entry on disk that is not the last of the list, holding what its slide
    draws; and one last page, holding what the last entry's slide draws. *)
Lemma assembler_pages (W : World) (config : SlideshowConfig) (out : string) :
  uninterrupted W config = true ->
  no_overflow W (trace (createPdfSlideshow W config out)) = true ->
  pages W (trace (createPdfSlideshow W config out))
  = (if truthy (title config) then [title_page config] else [])
    ++ map (slide_draws W) (filter (on_disk W) (removelast (images config)))
    ++ [slide_draws W (last (images config) None)].
Proof.
  intros U N. destruct (no_overflow_parts W config out U N) as [Nt Ns].
  rewrite createPdfSlideshow_unfold, U. cbn [trace fst pages pages_from is_draw].
  pose proof (@pages_from_stepTraces W (List.length (images config))
                (DocEnd :: closing W out) (closing_quiet W out)
                (images config) 0 eq_refl U Ns) as P.
  destruct (truthy (title config)) eqn:T.
  - pose proof (no_overflow_title_page W config T Nt) as Np.
    unfold title_part. rewrite T, <- app_assoc.
    rewrite (pages_from_draws W (title_page config) (proj1 (title_page_draws config)) Np).
    cbn [app pages_from]. rewrite P. reflexivity.
  - unfold title_part. rewrite T. cbn [app]. exact P.
Qed.

(** ** Page breaks *)

(** C3, refuted as worded: one readable image under a caption too long
    for what is left of its page. The title is empty, the image is valid
    and readable and the stream finishes, yet the document has two pages,
    not one: PDFKit opens the second for the end of the caption. *)
Theorem long_caption_adds_a_page :
  truthy (title one_long_caption) = false
  /\ forallb (readable narrow_world) (images one_long_caption) = true
  /\ uninterrupted narrow_world one_long_caption = true
  /\ page_breaks (trace (createPdfSlideshow narrow_world one_long_caption "out.pdf")) = 0
  /\ List.length (images one_long_caption) = 1
  /\ List.length
       (pages narrow_world
          (trace (createPdfSlideshow narrow_world one_long_caption "out.pdf"))) = 2.
Proof. repeat split; vm_compute; reflexivity. Qed.

(** The two pages of that document. *)
Example long_caption_pages :
  pages narrow_world (trace (createPdfSlideshow narrow_world one_long_caption "out.pdf"))
  = [[DocImage "harbour.png" 72 72 1776 856 center center;
      DocText 26 "Helvetica" long_caption 72 958 1776 center];
     [DocText 26 "Helvetica" long_caption 72 958 1776 center]].
Proof. vm_compute. reflexivity. Qed.

(** Without the directory [./dist] the stream fails while the first
    image is read: the run of three readable images ends there, with no
    page break after the first, no image drawn and the document not
    ended. *)
Example early_stream_error_run :
  createPdfSlideshow no_dist_world three_good "out.pdf"
  = ([NewDocument 1920 1080 72;
      CreateWriteStream "./dist/out.pdf";
      ExistsSync "good.png";
      SharpMetadata "good.png";
      Uncaught "ENOENT: no such file or directory, open './dist/out.pdf'"],
     Exits 1%Z).
Proof. vm_compute. reflexivity. Qed.

(** C3: the assembler's trace is the document and its stream, the title
    part, the turns of the loop in list order and, unless an error of the
    stream cuts the loop short, the end of the document and the closing. A
    title page is drawn exactly when the title is not empty, and it is then
    the first page when its text fits. In a run that is not cut short, the
    turn of an entry that reaches [addImageSlide], at list index [i], ends
    with a page break exactly when [i] is not the last index, and the slide
    itself breaks no page; the turn of an entry that is skipped (undefined,
    or its file missing) breaks no page. Hence, for a list that is not
    empty and whose images are all readable, in a run that is not cut
    short, the page breaks are one for the title and one between
    consecutive images, none after the last; and when moreover no text
    runs past the bottom of its page, the document has one page for the
    title, if any, and one per image, none of them blank. In general the
    pages are one more than the page breaks and the pages PDFKit opens for
    texts that run on. *)
Theorem page_break_policy (W : World) (config : SlideshowConfig) (out : string) :
  let tr := trace (createPdfSlideshow W config out) in
  let len := List.length (images config) in
  tr = NewDocument PAGE_WIDTH PAGE_HEIGHT MARGIN
       :: CreateWriteStream ("./dist/" ++ out)%string
       :: title_part config
       ++ List.concat (stepTraces W len 0 (images config))
       ++ (if uninterrupted W config then DocEnd :: closing W out else [])
  /\ existsb is_title_text tr = truthy (title config)
  /\ (truthy (title config) = true ->
      no_overflow W (title_page config) = true ->
      exists rest, pages W tr = title_page config :: rest)
  /\ (truthy (title config) = false -> title_part config = [])
  /\ (uninterrupted W config = true ->
      forall (i : nat) (imageData : ImageData),
        nth_error (images config) i = Some (Some imageData) ->
        Fs_existsSync W (src imageData) = true ->
        nth_error (stepTraces W len 0 (images config)) i
          = Some (ExistsSync (src imageData)
                  :: trace (addImageSlide W imageData)
                  ++ (if (S i <? len)%nat then [AddPage] else []))
        /\ page_breaks (trace (addImageSlide W imageData)) = 0)
  /\ (forall (i : nat) (entry : option ImageData),
        on_disk W entry = false -> page_breaks (trace (imageStep W len i entry)) = 0)
  /\ List.length (pages W tr) = 1 + page_breaks tr + overflow_pages W tr
  /\ (images config <> [] ->
      forallb (readable W) (images config) = true ->
      uninterrupted W config = true ->
      page_breaks tr = (if truthy (title config) then 1 else 0) + (len - 1)
      /\ (no_overflow W tr = true ->
          List.length (pages W tr) = (if truthy (title config) then 1 else 0) + len
          /\ forallb (fun p => negb (blank p)) (pages W tr) = true)).
Proof.
  intros tr len.
  assert (T : tr = NewDocument PAGE_WIDTH PAGE_HEIGHT MARGIN
                   :: CreateWriteStream ("./dist/" ++ out)%string
                   :: title_part config
                   ++ List.concat (stepTraces W len 0 (images config))
                   ++ (if uninterrupted W config then DocEnd :: closing W out else [])).
  { unfold tr. rewrite createPdfSlideshow_unfold. reflexivity. }
  split; [exact T |].
  split; [| split; [| split; [| split; [| split; [| split]]]]].
  - (* title text occurs exactly when there is a title *)
    rewrite T. cbn [existsb is_title_text orb].
    rewrite !existsb_app, stepTraces_no_title_text.
    assert (C : existsb is_title_text
                  (if uninterrupted W config then DocEnd :: closing W out else []) = false).
    { unfold closing. destruct (uninterrupted W config); [| reflexivity].
      destruct (stream_result W); reflexivity. }
    rewrite C. unfold title_part. destruct (truthy (title config)).
    + rewrite existsb_app, (proj1 (proj2 (title_page_draws config))). reflexivity.
    + reflexivity.
  - (* with a title, the first page is the title page *)
    intros Ti N. rewrite T. unfold title_part. rewrite Ti.
    eexists. cbn [pages pages_from is_draw]. rewrite <- app_assoc.
    rewrite (pages_from_draws W (title_page config) (proj1 (title_page_draws config)) N).
    reflexivity.
  - intros Ti. unfold title_part. rewrite Ti. reflexivity.
  - (* the break after the slide at index i *)
    intros U i imageData Hi E. split.
    + rewrite (@stepTraces_nth W len (images config) 0 i (Some imageData) U Hi).
      assert (P : stream_error_pending W (0 + i) = None).
      { apply (@on_disk_not_interrupted W (0 + i) imageData E).
        apply (@loop_completes_nth W (images config) 0 i (Some imageData) U Hi). }
      rewrite (@imageStep_on_disk W len (0 + i) imageData E P). reflexivity.
    + exact (proj1 (addImageSlide_events W imageData)).
  - (* an entry that is skipped breaks no page *)
    intros i entry D. destruct entry as [imageData |]; [| reflexivity].
    cbn [on_disk] in D. rewrite (@imageStep_missing W len i imageData D). reflexivity.
  - (* pages, page breaks and texts that run on *)
    rewrite T. cbn [pages]. rewrite length_pages_from, !overflow_pages_cons.
    reflexivity.
  - (* all images readable *)
    intros NE R U.
    assert (B : page_breaks tr = (if truthy (title config) then 1 else 0) + (len - 1)).
    { unfold tr. rewrite (assembler_page_breaks W config out U).
      rewrite (filter_on_disk_readable W _ (readable_removelast W _ R)).
      pose proof (length_removelast_cons NE) as L. fold len in L. lia. }
    split; [exact B |].
    intros N. unfold tr. rewrite (assembler_pages W config out U N).
    rewrite (filter_on_disk_readable W _ (readable_removelast W _ R)).
    split.
    + rewrite !length_app, length_map. cbn [List.length].
      pose proof (length_removelast_cons NE) as L. fold len in L.
      destruct (truthy (title config)); cbn [List.length]; lia.
    + assert (M : forallb (fun p => negb (blank p))
                    (map (slide_draws W) (removelast (images config))) = true).
      { pose proof (readable_removelast W _ R) as R'.
        induction (removelast (images config)) as [| entry l IH]; [reflexivity |].
        cbn [forallb] in R'. apply andb_prop in R'. destruct R' as [Re R'].
        cbn [map forallb]. rewrite (slide_draws_readable W _ Re), (IH R'). reflexivity. }
      assert (L : forallb (fun p => negb (blank p))
                    [slide_draws W (last (images config) None)] = true).
      { cbn [forallb]. rewrite (slide_draws_readable W _ (readable_last W NE R)).
        reflexivity. }
      rewrite !forallb_app.
      apply andb_true_intro. split; [| apply andb_true_intro; split; [exact M | exact L]].
      destruct (truthy (title config)); [| reflexivity].
      cbn [forallb]. rewrite (proj2 (proj2 (title_page_draws config))). reflexivity.
Qed.

(** A titled slideshow of two readable images has three pages: the title
    page and one per image. *)
Example two_good_pages :
  pages sample_world (trace (createPdfSlideshow sample_world two_good "out.pdf")) =
    [[DocText 48 "Helvetica" "My Trip!" 72 460 1776 center;
      DocText 48 "Helvetica" "2024" 72 520 1776 center];
     [DocImage "good.png" 72 72 1776 856 center center;
      DocText 26 "Helvetica" "A caption" 72 958 1776 center];
     [DocImage "plain.png" 72 72 1776 856 center center]].
Proof. vm_compute. reflexivity. Qed.

Lemma page_break_policy_witness :
  images two_good <> [] /\
  forallb (readable sample_world) (images two_good) = true /\
  uninterrupted sample_world two_good = true /\
  no_overflow sample_world
    (trace (createPdfSlideshow sample_world two_good "out.pdf")) = true /\
  page_breaks (trace (createPdfSlideshow sample_world two_good "out.pdf")) = 2 /\
  List.length
    (pages sample_world (trace (createPdfSlideshow sample_world two_good "out.pdf"))) = 3 /\
  forallb (fun p => negb (blank p))
    (pages sample_world (trace (createPdfSlideshow sample_world two_good "out.pdf"))) = true.
Proof.
  assert (NE : images two_good <> []) by discriminate.
  split; [exact NE | split; [reflexivity | split; [reflexivity | split; [reflexivity |]]]].
  destruct (@page_break_policy sample_world two_good "out.pdf")
    as (_ & _ & _ & _ & _ & _ & _ & Count).
  destruct (Count NE eq_refl eq_refl) as [B P].
  split; [exact B | exact (P eq_refl)].
Defined.

(** ** Failures of single images *)

Lemma concat_nth_split (A : Type) (ls : list (list A)) (k : nat) (x : list A) :
  nth_error ls k = Some x ->
  exists before after : list A, List.concat ls = before ++ x ++ after.
Proof.
  intros Hk. destruct (nth_error_split ls k Hk) as (l1 & l2 & E & _).
  exists (List.concat l1), (List.concat l2).
  rewrite E, concat_app. reflexivity.
Qed.

(** In a run that is not cut short, the turn of every entry is part of
    the assembler's trace. *)
Lemma every_entry_visited (W : World) (config : SlideshowConfig) (out : string)
    (i : nat) (entry : option ImageData) :
  uninterrupted W config = true ->
  nth_error (images config) i = Some entry ->
  exists before after : list Event,
    trace (createPdfSlideshow W config out)
    = before ++ trace (imageStep W (List.length (images config)) i entry) ++ after.
Proof.
  intros U Hi. rewrite createPdfSlideshow_unfold, U. cbn [trace fst].
  pose proof (@stepTraces_nth W (List.length (images config)) (images config) 0 i entry U Hi)
    as Hs.
  destruct (concat_nth_split _ _ Hs) as (b & a & E).
  rewrite E. cbn [Nat.add].
  exists (NewDocument PAGE_WIDTH PAGE_HEIGHT MARGIN
          :: CreateWriteStream ("./dist/" ++ out)%string :: title_part config ++ b),
         (a ++ DocEnd :: closing W out).
  cbn [app]. rewrite <- !app_assoc. reflexivity.
Qed.

(** A stream that finishes cuts no turn short, and neither does one whose
    error comes after the loop. *)
Lemma loop_completes_when (W : World) (rest : list (option ImageData)) :
  forall i : nat,
    stream_result W = None \/ i + List.length rest <= stream_error_ready W ->
    loop_completes W i rest = true.
Proof.
  induction rest as [| entry rest' IH]; intros i H; [reflexivity |].
  cbn [loop_completes]. rewrite IH.
  - rewrite andb_true_r. apply negb_true_iff. unfold interrupted, stream_error_pending.
    destruct H as [H | H].
    + rewrite H. apply andb_false_r.
    + destruct (stream_result W); [| apply andb_false_r].
      replace (stream_error_ready W <=? i)%nat with false; [apply andb_false_r |].
      symmetry. apply Nat.leb_gt. cbn [List.length] in H. lia.
  - destruct H as [H | H]; [left; exact H | right; cbn [List.length] in H; lia].
Qed.

(** C5, refuted as worded: an undefined entry is not logged with a path
    and a cause. Its turn is one warning that names the index of the
    entry, and nothing else. *)
Theorem undefined_entry_logged_by_index :
  imageStep sample_world 4 1 None
  = ([Console WARN "Warning: Image data at index 1 is undefined, skipping" None],
     Returns tt).
Proof. reflexivity. Qed.

(** C5: no entry makes its turn of the loop throw, and a turn ends the
    process only when it is cut short by an error of the output stream
    while its image is read, never for a failure of the image. An
    undefined entry is logged with its index; a missing file is logged
    with its path; an image whose dimensions cannot be read is logged with
    its path and the cause; in each case nothing is drawn for the entry
    and the turn returns. In a run that is not cut short (as when the
    stream finishes, or fails after the loop) the turn of every entry of
    the list is part of the run, whatever happened to the entries before
    it, and a readable image is drawn wherever it stands in the list; the
    assembler then returns whether the stream finished. The process fails
    only for an empty image list or a failed stream. *)
Theorem per_image_failures_contained (W : World) (config : SlideshowConfig) (out : string) :
  let len := List.length (images config) in
  let tr := trace (createPdfSlideshow W config out) in
  (forall (i : nat) (entry : option ImageData),
     outcome (imageStep W len i entry)
     = if interrupted W i entry then Exits 1%Z else Returns tt)
  /\ (forall (i : nat) (entry : option ImageData),
        interrupted W i entry = true ->
        on_disk W entry = true /\ exists e : Error, stream_result W = Some e)
  /\ (forall i : nat,
        imageStep W len i None =
          ([Console WARN ("Warning: Image data at index " ++ Number_toString (Z.of_nat i)
                          ++ " is undefined, skipping")%string None],
           Returns tt))
  /\ (forall (i : nat) (imageData : ImageData),
        Fs_existsSync W (src imageData) = false ->
        imageStep W len i (Some imageData) =
          ([ExistsSync (src imageData);
            Console WARN ("Warning: Image " ++ src imageData ++ " not found, skipping")%string
              None],
           Returns tt))
  /\ (forall (i : nat) (imageData : ImageData) (cause : Error),
        Fs_existsSync W (src imageData) = true ->
        metadata_failure W (src imageData) = Some cause ->
        stream_error_pending W i = None ->
        existsb is_draw (trace (imageStep W len i (Some imageData))) = false
        /\ imageStep W len i (Some imageData) =
             ([ExistsSync (src imageData);
               SharpMetadata (src imageData);
               Console ERROR ("Error reading image " ++ src imageData ++ ":")%string
                 (Some cause);
               Console ERROR ("Error adding image slide for " ++ src imageData ++ ":")%string
                 (Some ("Could not get dimensions for " ++ src imageData)%string)]
              ++ break_after len i,
              Returns tt))
  /\ (stream_result W = None \/ len <= stream_error_ready W ->
      uninterrupted W config = true)
  /\ (uninterrupted W config = true ->
      (forall (i : nat) (entry : option ImageData),
         nth_error (images config) i = Some entry ->
         exists before after : list Event,
           tr = before ++ trace (imageStep W len i entry) ++ after)
      /\ (forall (i : nat) (imageData : ImageData),
            nth_error (images config) i = Some (Some imageData) ->
            readable W (Some imageData) = true ->
            In (DocImage (src imageData) MARGIN MARGIN availableWidth availableHeight
                  center center) tr)
      /\ outcome (createPdfSlideshow W config out)
         = Returns (match stream_result W with None => true | Some _ => false end))
  /\ snd (run W config) =
       if (len =? 0)%nat then 1%Z
       else match stream_result W with None => 0%Z | Some _ => 1%Z end.
Proof.
  intros len tr.
  split; [intros i entry; apply imageStep_outcome |].
  split.
  { intros i entry I. split.
    - unfold interrupted in I. apply andb_prop in I. exact (proj1 I).
    - exact (interrupted_stream_fails _ _ _ I). }
  split; [intros i; rewrite imageStep_undefined; reflexivity |].
  split; [intros i imageData E; rewrite (@imageStep_missing W len i imageData E);
          reflexivity |].
  split; [| split; [| split]].
  - intros i imageData cause E F P.
    rewrite (@imageStep_on_disk W len i imageData E P).
    rewrite (@addImageSlide_unreadable W imageData cause F).
    split; [| reflexivity]. cbn [trace fst app existsb is_draw orb].
    unfold break_after. destruct (S i <? len)%nat; reflexivity.
  - intros H. unfold uninterrupted. apply loop_completes_when.
    destruct H as [H | H]; [left; exact H | right; exact H].
  - intros U. split; [| split].
    + intros i entry Hi. apply every_entry_visited; assumption.
    + intros i imageData Hi R.
      destruct (@every_entry_visited W config out i (Some imageData) U Hi) as (b & a & E).
      unfold tr. rewrite E.
      assert (P : stream_error_pending W i = None).
      { apply (@on_disk_not_interrupted W i imageData (readable_on_disk W _ R)).
        exact (@loop_completes_nth W (images config) 0 i (Some imageData) U Hi). }
      destruct (@imageStep_readable W len i imageData R P) as (natural & _ & T).
      fold len. rewrite T.
      apply in_or_app. right. apply in_or_app. left.
      right. right. left. reflexivity.
    + rewrite createPdfSlideshow_unfold, U. reflexivity.
  - apply run_exit_code.
Qed.

(** In a list with an unreadable image, an undefined entry and a missing
    file before a readable image, the three failures are logged, the
    readable image is drawn, and the process succeeds. *)
Example mixed_run :
  fst (run sample_world mixed) =
    [Console LOG "PDF Slideshow Generator (TypeScript/Bun)" None;
     Console LOG "========================================" None;
     Console LOG "Title: My Trip!" None;
     Console LOG "Images to process: 4" None;
     Console LOG "Output file: My_Trip__20240105_090307.pdf" None;
     Console LOG "" None;
     NewDocument 1920 1080 72;
     CreateWriteStream "./dist/My_Trip__20240105_090307.pdf";
     DocText 48 "Helvetica" "My Trip!" 72 490 1776 center;
     AddPage;
     ExistsSync "bad.png";
     SharpMetadata "bad.png";
     Console ERROR "Error reading image bad.png:"
       (Some "Input file contains unsupported image format"%string);
     Console ERROR "Error adding image slide for bad.png:"
       (Some "Could not get dimensions for bad.png"%string);
     AddPage;
     Console WARN "Warning: Image data at index 1 is undefined, skipping" None;
     ExistsSync "missing.png";
     Console WARN "Warning: Image missing.png not found, skipping" None;
     ExistsSync "good.png";
     SharpMetadata "good.png";
     DocImage "good.png" 72 72 1776 856 center center;
     DocText 26 "Helvetica" "A caption" 72 958 1776 center;
     DocEnd;
     Console LOG "PDF created successfully: My_Trip__20240105_090307.pdf" None;
     Console LOG (newline ++ "✅ Slideshow generated successfully!") None;
     Console LOG "📁 File: My_Trip__20240105_090307.pdf" None;
     Console LOG "🖼️  Images processed: 4" None;
     Console LOG "📄 Title slide included" None]
  /\ snd (run sample_world mixed) = 0%Z.
Proof. split; vm_compute; reflexivity. Qed.

(** The process of three readable images without the directory [./dist]:
    it ends while the first image is read, with code 1 and without
    [process.exit]; the second and third entries are never visited. *)
Example early_stream_error_process :
  run no_dist_world three_good =
    ([Console LOG "PDF Slideshow Generator (TypeScript/Bun)" None;
      Console LOG "========================================" None;
      Console LOG "Title: No title" None;
      Console LOG "Images to process: 3" None;
      Console LOG "Output file: slideshow_20240105_090307.pdf" None;
      Console LOG "" None;
      NewDocument 1920 1080 72;
      CreateWriteStream "./dist/slideshow_20240105_090307.pdf";
      ExistsSync "good.png";
      SharpMetadata "good.png";
      Uncaught "ENOENT: no such file or directory, open './dist/out.pdf'"],
     1%Z).
Proof. vm_compute. reflexivity. Qed.

(** A stream whose error comes after the loop: the three images are
    drawn, the error is caught at the final wait, and the process exits
    with code 1. *)
Example late_stream_error_process :
  run late_error_world three_good =
    ([Console LOG "PDF Slideshow Generator (TypeScript/Bun)" None;
      Console LOG "========================================" None;
      Console LOG "Title: No title" None;
      Console LOG "Images to process: 3" None;
      Console LOG "Output file: slideshow_20240105_090307.pdf" None;
      Console LOG "" None;
      NewDocument 1920 1080 72;
      CreateWriteStream "./dist/slideshow_20240105_090307.pdf";
      ExistsSync "good.png";
      SharpMetadata "good.png";
      DocImage "good.png" 72 72 1776 856 center center;
      DocText 26 "Helvetica" "A caption" 72 958 1776 center;
      AddPage;
      ExistsSync "plain.png";
      SharpMetadata "plain.png";
      DocImage "plain.png" 72 72 1776 856 center center;
      AddPage;
      ExistsSync "good.png";
      SharpMetadata "good.png";
      DocImage "good.png" 72 72 1776 856 center center;
      DocText 26 "Helvetica" "A caption" 72 958 1776 center;
      DocEnd;
      Console ERROR "Error creating PDF:" (Some "ENOSPC: no space left on device, write"%string);
      Console LOG (newline ++ "❌ Failed to generate slideshow") None;
      ProcessExit 1],
     1%Z).
Proof. vm_compute. reflexivity. Qed.

Lemma per_image_failures_contained_witness :
  uninterrupted sample_world mixed = true /\
  nth_error (images mixed) 3 = Some (Some good_image) /\
  readable sample_world (Some good_image) = true /\
  In (DocImage "good.png" MARGIN MARGIN availableWidth availableHeight center center)
     (trace (createPdfSlideshow sample_world mixed "out.pdf")) /\
  snd (run sample_world mixed) = 0%Z.
Proof.
  split; [reflexivity | split; [reflexivity | split; [reflexivity |]]].
  destruct (@per_image_failures_contained sample_world mixed "out.pdf")
    as (_ & _ & _ & _ & _ & _ & Run & Code).
  destruct (Run eq_refl) as (_ & Drawn & _).
  split.
  - exact (Drawn 3 good_image eq_refl eq_refl).
  - exact Code.
Defined.

(** ** The pages of the document *)

(** X5: in a run that no error of the stream cuts short, the document has
    one page, one more for the title, one more for every entry on disk
    other than the last of the list, and the pages PDFKit opens for texts
    that run past the bottom of their page. When no text does, the pages
    are: the title page when the title is not empty; then one page for
    every entry other than the last of the list whose file is on disk,
    holding the image and caption of the entry when it is readable and
    nothing when it is not; then one last page, holding what the last
    entry draws, and nothing when there is no last entry or it draws
    nothing. *)
Theorem pages_of_the_document (W : World) (config : SlideshowConfig) (out : string) :
  uninterrupted W config = true ->
  List.length (pages W (trace (createPdfSlideshow W config out)))
  = 1 + (if truthy (title config) then 1 else 0)
    + List.length (filter (on_disk W) (removelast (images config)))
    + overflow_pages W (trace (createPdfSlideshow W config out))
  /\ (no_overflow W (trace (createPdfSlideshow W config out)) = true ->
      pages W (trace (createPdfSlideshow W config out))
      = (if truthy (title config) then [title_page config] else [])
        ++ map (slide_draws W) (filter (on_disk W) (removelast (images config)))
        ++ [slide_draws W (last (images config) None)]).
Proof.
  intros U. split.
  - exact (assembler_page_count W config out U).
  - intros N. exact (assembler_pages W config out U N).
Qed.

Lemma pages_of_the_document_witness :
  uninterrupted narrow_world one_long_caption = true /\
  List.length
    (pages narrow_world (trace (createPdfSlideshow narrow_world one_long_caption "out.pdf")))
  = 1 + 0 + 0 + 1.
Proof.
  split; [reflexivity |].
  exact (proj1 (@pages_of_the_document narrow_world one_long_caption "out.pdf" eq_refl)).
Defined.

(** ** What is drawn *)

(** A turn that runs to its end, read through a filter that keeps no
    probe, no read, no page break and nothing of the console. *)
Ltac turn_filter W len i entry I P imageData E :=
  destruct entry as [imageData |]; [| reflexivity];
  destruct (Fs_existsSync W (src imageData)) eqn:E;
  [ rewrite (@imageStep_on_disk W len i imageData E
               (@on_disk_not_interrupted W i imageData E I));
    cbn [trace fst filter P]; rewrite filter_app;
    replace (filter P (break_after len i)) with (@nil Event)
      by (unfold break_after; destruct (S i <? len)%nat; reflexivity);
    rewrite app_nil_r;
    slide_cases W imageData; try reflexivity;
    cbn [trace fst filter P];
    unfold caption_events; destruct (caption_present imageData); reflexivity
  | rewrite (@imageStep_missing W len i imageData E); reflexivity ].

Lemma imageStep_images (W : World) (len i : nat) (entry : option ImageData) :
  interrupted W i entry = false ->
  filter is_image (trace (imageStep W len i entry))
  = match entry with
    | Some imageData => if readable W entry then [drawn_image imageData] else []
    | None => []
    end.
Proof.
  intros I. unfold readable. turn_filter W len i entry I is_image imageData E.
Qed.

Lemma filter_draw_ending (W : World) (config : SlideshowConfig) (out : string) :
  filter is_draw (if uninterrupted W config then DocEnd :: closing W out else []) = [].
Proof.
  unfold closing. destruct (uninterrupted W config); [| reflexivity].
  destruct (stream_result W); reflexivity.
Qed.

(** The title part holds draws and one page break. *)
Lemma filter_title_part (P : Event -> bool) (config : SlideshowConfig) :
  (forall ev, is_draw ev = true -> P ev = false) ->
  P AddPage = false ->
  filter P (title_part config) = [].
Proof.
  intros Pd Pb. unfold title_part.
  destruct (truthy (title config)); [| reflexivity].
  rewrite filter_app. cbn [filter]. rewrite Pb, app_nil_r.
  apply filter_none.
  pose proof (proj1 (title_page_draws config)) as D.
  induction (title_page config) as [| ev l IH].
  - reflexivity.
  - cbn [forallb] in D. apply andb_prop in D. destruct D as [De D'].
    cbn [existsb]. rewrite (Pd ev De), (IH D'). reflexivity.
Qed.

Lemma filter_image_title_part (config : SlideshowConfig) :
  filter is_image (title_part config) = [].
Proof.
  unfold title_part, title_page, addTitleSlide, doc_text. rewrite bind_emit.
  destruct (truthy (title config)); [| reflexivity].
  destruct (truthy (subtitle config)); reflexivity.
Qed.

(** X6: what the assembler draws is, in order, the lines of the title
    page when the title is not empty, and then, for each entry in list
    order whose turn runs to its end and that is present, on disk,
    measured by Sharp and accepted by PDFKit, its image followed by its
    caption; every other entry draws nothing. In particular the images
    drawn are the readable entries among those, each once, in list order.
    The entries whose turn runs to its end are all the entries of the list
    unless an error of the stream ends the process during the loop; then
    they are the entries before the turn that is cut short. *)
Theorem drawn_in_list_order (W : World) (config : SlideshowConfig) (out : string) :
  let tr := trace (createPdfSlideshow W config out) in
  filter is_draw tr
  = (if truthy (title config) then title_page config else [])
    ++ flat_map (slide_draws W) (completed W 0 (images config))
  /\ filter is_image tr
     = flat_map (fun entry =>
                   match entry with
                   | Some imageData =>
                       if readable W entry then [drawn_image imageData] else []
                   | None => []
                   end) (completed W 0 (images config))
  /\ (uninterrupted W config = true -> completed W 0 (images config) = images config)
  /\ (uninterrupted W config = false ->
      exists (before after : list (option ImageData)) (imageData : ImageData),
        images config = before ++ Some imageData :: after
        /\ completed W 0 (images config) = before
        /\ interrupted W (List.length before) (Some imageData) = true).
Proof.
  intros tr. subst tr. rewrite createPdfSlideshow_unfold. cbn [trace fst].
  split; [| split; [| split]].
  - cbn [filter is_draw]. rewrite !filter_app, filter_draw_ending, app_nil_r.
    rewrite (@filter_stepTraces is_draw (slide_draws W) W (List.length (images config))
               (fun path e => eq_refl)
               (fun i entry => imageStep_draws W (List.length (images config)) i entry)).
    f_equal. unfold title_part. destruct (truthy (title config)); [| reflexivity].
    rewrite filter_app, (filter_all _ _ (proj1 (title_page_draws config))).
    apply app_nil_r.
  - cbn [filter is_image]. rewrite !filter_app.
    rewrite (@filter_stepTraces is_image _ W (List.length (images config))
               (fun path e => eq_refl)
               (fun i entry => imageStep_images W (List.length (images config)) i entry)).
    rewrite filter_image_title_part.
    replace (filter is_image
               (if uninterrupted W config then DocEnd :: closing W out else []))
      with (@nil Event)
      by (unfold closing; destruct (uninterrupted W config); [| reflexivity];
          destruct (stream_result W); reflexivity).
    rewrite app_nil_r. reflexivity.
  - intros U. exact (completed_all W (images config) 0 U).
  - intros U. exact (completed_cut W (images config) 0 U).
Qed.

(** Without the directory [./dist] none of three readable images is
    drawn. *)
Example early_stream_error_draws_nothing :
  uninterrupted no_dist_world three_good = false
  /\ completed no_dist_world 0 (images three_good) = []
  /\ filter is_draw (trace (createPdfSlideshow no_dist_world three_good "out.pdf")) = [].
Proof. repeat split. Qed.

(** ** Files the assembler touches *)

Lemma In_stepTraces (W : World) (len : nat) (ev : Event)
    (rest : list (option ImageData)) :
  forall i : nat,
    In ev (List.concat (stepTraces W len i rest)) ->
    exists (k : nat) (entry : option ImageData),
      In entry rest /\ In ev (trace (imageStep W len k entry)).
Proof.
  induction rest as [| entry rest' IH]; intros i H.
  - contradiction H.
  - cbn [stepTraces List.concat] in H. apply in_app_or in H. destruct H as [H | H].
    + exists i, entry. split; [left; reflexivity | exact H].
    + destruct (interrupted W i entry); [contradiction H |].
      destruct (IH (S i) H) as (k & entry' & I & H').
      exists k, entry'. split; [right; exact I | exact H'].
Qed.

Lemma In_caption_events (ev : Event) (imageData : ImageData)
    (size : ImageDimensions float) :
  In ev (caption_events imageData size) -> is_file_io ev = false.
Proof.
  unfold caption_events. destruct (caption_present imageData); intros H.
  - destruct H as [H | H]; [subst ev; reflexivity | contradiction H].
  - contradiction H.
Qed.

Lemma In_break_after (ev : Event) (len i : nat) :
  In ev (break_after len i) -> ev = AddPage.
Proof.
  unfold break_after. destruct (S i <? len)%nat; intros H.
  - destruct H as [H | H]; [symmetry; exact H | contradiction H].
  - contradiction H.
Qed.

(** The file events of a turn: the probe of the entry's file; Sharp's
    read, when the file is there; [doc.image], when it has dimensions. *)
Lemma imageStep_file_events (W : World) (len i : nat) (entry : option ImageData)
    (ev : Event) :
  In ev (trace (imageStep W len i entry)) ->
  is_file_io ev = true ->
  exists imageData : ImageData,
    entry = Some imageData /\
    (ev = ExistsSync (src imageData)
     \/ Fs_existsSync W (src imageData) = true
        /\ (ev = SharpMetadata (src imageData)
            \/ metadata_failure W (src imageData) = None
               /\ (ev = DocImageThrew (src imageData)
                   \/ ev = drawn_image imageData
                      /\ PDFKit_image W (src imageData) = None))).
Proof.
  intros H IO. destruct (interrupted W i entry) eqn:I.
  { (* the turn is cut short *)
    destruct (@interrupted_trace W len i entry I) as (imageData & e & Ee & E & _ & T).
    rewrite T in H. cbn [trace fst] in H.
    exists imageData. split; [exact Ee |].
    destruct H as [H | [H | [H | H]]]; try contradiction H.
    - left. symmetry. exact H.
    - right. split; [exact E |]. left. symmetry. exact H.
    - subst ev. discriminate IO. }
  destruct entry as [imageData |].
  - exists imageData. split; [reflexivity |].
    destruct (Fs_existsSync W (src imageData)) eqn:E.
    + rewrite (@imageStep_on_disk W len i imageData E
                 (@on_disk_not_interrupted W i imageData E I)) in H.
      cbn [trace fst] in H.
      destruct H as [H | H]; [left; symmetry; exact H |].
      right. split; [reflexivity |].
      apply in_app_or in H. destruct H as [H | H].
      * pose proof (natural_size_metadata_failure W (src imageData)) as F.
        revert H. slide_cases W imageData; cbn [trace fst]; intros H.
        -- destruct H as [H | [H | [H | H]]]; try contradiction H.
           ++ left. symmetry. exact H.
           ++ right. split; [exact F |]. left. symmetry. exact H.
           ++ subst ev. discriminate IO.
        -- destruct H as [H | [H | H]].
           ++ left. symmetry. exact H.
           ++ right. split; [exact F |]. right. split; [symmetry; exact H | reflexivity].
           ++ rewrite (In_caption_events _ _ _ H) in IO. discriminate IO.
        -- destruct H as [H | [H | [H | H]]]; try contradiction H.
           ++ left. symmetry. exact H.
           ++ subst ev. discriminate IO.
           ++ subst ev. discriminate IO.
      * apply In_break_after in H. subst ev. discriminate IO.
    + rewrite (@imageStep_missing W len i imageData E) in H. cbn [trace fst] in H.
      destruct H as [H | [H | H]]; try contradiction H.
      * left. symmetry. exact H.
      * subst ev. discriminate IO.
  - cbn in H. destruct H as [H | H]; [subst ev; discriminate IO | contradiction H].
Qed.

(** X7: every file event of the assembler is the opening of the output
    stream under [./dist/], or concerns the [src] of an entry of the list:
    the probe of the file; Sharp's read of it, only when the probe found
    the file; a call of [doc.image], only when moreover Sharp reported its
    dimensions. No other file is touched, and no missing file is read. *)
Theorem files_touched_only_when_present (W : World) (config : SlideshowConfig)
    (out : string) (ev : Event) :
  In ev (trace (createPdfSlideshow W config out)) ->
  is_file_io ev = true ->
  ev = CreateWriteStream ("./dist/" ++ out)%string
  \/ exists imageData : ImageData,
       In (Some imageData) (images config) /\
       (ev = ExistsSync (src imageData)
        \/ Fs_existsSync W (src imageData) = true
           /\ (ev = SharpMetadata (src imageData)
               \/ metadata_failure W (src imageData) = None
                  /\ (ev = DocImageThrew (src imageData)
                      \/ ev = drawn_image imageData
                         /\ PDFKit_image W (src imageData) = None))).
Proof.
  intros H IO. rewrite createPdfSlideshow_unfold in H. cbn [trace fst] in H.
  destruct H as [H | [H | H]].
  - subst ev. discriminate IO.
  - left. symmetry. exact H.
  - right. apply in_app_or in H. destruct H as [H | H].
    + exfalso. unfold title_part in H.
      destruct (truthy (title config)); [| contradiction H].
      apply in_app_or in H. destruct H as [H | [H | H]]; try contradiction H.
      * pose proof (proj1 (title_page_draws config)) as D.
        rewrite forallb_forall in D. specialize (D ev H).
        destruct ev; try discriminate D; try discriminate IO.
        revert H. unfold title_page, addTitleSlide, doc_text. rewrite bind_emit.
        cbn [trace fst]. destruct (truthy (subtitle config)); cbn [trace fst In];
          intros H; repeat (destruct H as [H | H]; [discriminate H |]); contradiction H.
      * subst ev. discriminate IO.
    + apply in_app_or in H. destruct H as [H | H].
      * destruct (In_stepTraces _ _ _ _ _ H) as (k & entry & I & H').
        destruct (@imageStep_file_events W _ k entry ev H' IO) as (imageData & Ee & Cases).
        subst entry. exists imageData. split; [exact I | exact Cases].
      * exfalso. destruct (uninterrupted W config); [| contradiction H].
        destruct H as [H | H]; [subst ev; discriminate IO |].
        unfold closing in H. destruct (stream_result W);
          (destruct H as [H | H]; [subst ev; discriminate IO | contradiction H]).
Qed.

Lemma files_touched_only_when_present_witness :
  In (SharpMetadata "good.png")
     (trace (createPdfSlideshow sample_world mixed "out.pdf")) /\
  is_file_io (SharpMetadata "good.png") = true /\
  (SharpMetadata "good.png" = CreateWriteStream "./dist/out.pdf"
   \/ exists imageData : ImageData,
        In (Some imageData) (images mixed) /\
        (SharpMetadata "good.png" = ExistsSync (src imageData)
         \/ Fs_existsSync sample_world (src imageData) = true
            /\ (SharpMetadata "good.png" = SharpMetadata (src imageData)
                \/ metadata_failure sample_world (src imageData) = None
                   /\ (SharpMetadata "good.png" = DocImageThrew (src imageData)
                       \/ SharpMetadata "good.png" = drawn_image imageData
                          /\ PDFKit_image sample_world (src imageData) = None)))).
Proof.
  assert (I : In (SharpMetadata "good.png")
                (trace (createPdfSlideshow sample_world mixed "out.pdf"))).
  { vm_compute. repeat (first [left; reflexivity | right]). }
  split; [exact I | split; [reflexivity |]].
  exact (@files_touched_only_when_present sample_world mixed "out.pdf"
           (SharpMetadata "good.png") I eq_refl).
Defined.

(** ** One document, finished at most once *)

Lemma imageStep_no_lifecycle (W : World) (len i : nat) (entry : option ImageData) :
  interrupted W i entry = false ->
  filter is_lifecycle (trace (imageStep W len i entry)) = [].
Proof. intros I. turn_filter W len i entry I is_lifecycle imageData E. Qed.

Lemma loop_no_lifecycle (W : World) (config : SlideshowConfig) :
  filter is_lifecycle
    (title_part config
     ++ List.concat (stepTraces W (List.length (images config)) 0 (images config))) = [].
Proof.
  rewrite filter_app.
  rewrite (@filter_title_part is_lifecycle config) by
    (first [intros ev D; destruct ev; try discriminate D; reflexivity | reflexivity]).
  rewrite (@filter_stepTraces is_lifecycle (fun _ => []) W (List.length (images config))
             (fun path e => eq_refl)
             (fun i entry => imageStep_no_lifecycle W (List.length (images config)) i entry)).
  apply flat_map_nil.
Qed.

Lemma assembler_lifecycle_events (W : World) (config : SlideshowConfig) (out : string) :
  filter is_lifecycle (trace (createPdfSlideshow W config out))
  = [NewDocument 1920 1080 72; CreateWriteStream ("./dist/" ++ out)%string]
    ++ (if uninterrupted W config then [DocEnd] else []).
Proof.
  rewrite createPdfSlideshow_unfold. cbn [trace fst].
  change (NewDocument PAGE_WIDTH PAGE_HEIGHT MARGIN) with (NewDocument 1920 1080 72).
  cbn [filter is_lifecycle]. rewrite app_assoc, filter_app, loop_no_lifecycle.
  unfold closing. destruct (uninterrupted W config); [| reflexivity].
  destruct (stream_result W); reflexivity.
Qed.

(** X8: whatever the images do, the assembler constructs one document of
    1920 by 1080 with margin 72 and opens one stream, at [./dist/]
    followed by the output name. It ends the document once when the run is
    not cut short, and then nothing is drawn and no page is added after
    the end; it never ends the document when an error of the stream ends
    the process during the loop. *)
Theorem document_lifecycle (W : World) (config : SlideshowConfig) (out : string) :
  let tr := trace (createPdfSlideshow W config out) in
  filter is_lifecycle tr
  = [NewDocument 1920 1080 72; CreateWriteStream ("./dist/" ++ out)%string]
    ++ (if uninterrupted W config then [DocEnd] else [])
  /\ exists body after : list Event,
       tr = NewDocument 1920 1080 72
            :: CreateWriteStream ("./dist/" ++ out)%string
            :: body ++ (if uninterrupted W config then DocEnd :: after else [])
       /\ filter is_lifecycle body = []
       /\ forallb quiet after = true.
Proof.
  intros tr. subst tr. split; [apply assembler_lifecycle_events |].
  rewrite createPdfSlideshow_unfold. cbn [trace fst].
  exists (title_part config
          ++ List.concat (stepTraces W (List.length (images config)) 0 (images config))),
         (closing W out).
  split; [rewrite <- app_assoc; reflexivity |].
  split; [apply loop_no_lifecycle |].
  unfold closing. destruct (stream_result W); reflexivity.
Qed.

(** ** Console lines of the assembler *)

Lemma list_sum_indicator (A : Type) (P : A -> bool) (l : list A) :
  list_sum (map (fun x => if P x then 1 else 0) l) = List.length (filter P l).
Proof.
  induction l as [| x l' IH].
  - reflexivity.
  - unfold list_sum in *. cbn [map fold_right filter]. rewrite IH.
    destruct (P x); reflexivity.
Qed.

Lemma imageStep_warnings (W : World) (len i : nat) (entry : option ImageData) :
  interrupted W i entry = false ->
  List.length (filter is_warning (trace (imageStep W len i entry)))
  = if skipped W entry then 1 else 0.
Proof.
  intros I. unfold skipped. destruct entry as [imageData |]; [| reflexivity].
  cbn [on_disk]. destruct (Fs_existsSync W (src imageData)) eqn:E.
  - replace (filter is_warning (trace (imageStep W len i (Some imageData))))
      with (@nil Event); [reflexivity |].
    symmetry. rewrite (@imageStep_on_disk W len i imageData E
                         (@on_disk_not_interrupted W i imageData E I)).
    cbn [trace fst filter is_warning]. rewrite filter_app.
    replace (filter is_warning (break_after len i)) with (@nil Event)
      by (unfold break_after; destruct (S i <? len)%nat; reflexivity).
    rewrite app_nil_r.
    slide_cases W imageData; try reflexivity.
    cbn [trace fst filter is_warning].
    unfold caption_events. destruct (caption_present imageData); reflexivity.
  - rewrite (@imageStep_missing W len i imageData E). reflexivity.
Qed.

Lemma imageStep_errors (W : World) (len i : nat) (entry : option ImageData) :
  interrupted W i entry = false ->
  List.length (filter is_error (trace (imageStep W len i entry))) = entry_errors W entry.
Proof.
  intros I. destruct entry as [imageData |]; [| reflexivity].
  unfold entry_errors. destruct (Fs_existsSync W (src imageData)) eqn:E.
  - rewrite (@imageStep_on_disk W len i imageData E
               (@on_disk_not_interrupted W i imageData E I)).
    cbn [trace fst filter is_error].
    rewrite filter_app.
    replace (filter is_error (break_after len i)) with (@nil Event)
      by (unfold break_after; destruct (S i <? len)%nat; reflexivity).
    rewrite app_nil_r.
    slide_cases W imageData; try reflexivity.
    cbn [trace fst filter is_error].
    unfold caption_events. destruct (caption_present imageData); reflexivity.
  - rewrite (@imageStep_missing W len i imageData E). reflexivity.
Qed.

Lemma imageStep_no_log (W : World) (len i : nat) (entry : option ImageData) :
  interrupted W i entry = false ->
  filter is_log (trace (imageStep W len i entry)) = [].
Proof. intros I. turn_filter W len i entry I is_log imageData E. Qed.

(** X9: the assembler warns once for every entry it skips (undefined, or
    its file missing) and for nothing else; it logs two errors for an entry
    whose dimensions cannot be read and one for an entry PDFKit throws on;
    this for the entries whose turn runs to its end, which are all of them
    unless an error of the stream ends the process during the loop. In a
    run that is not cut short it logs one more error when the stream
    fails, and it logs its success exactly when the stream finishes; in a
    run that is cut short it logs neither. *)
Theorem console_accounting (W : World) (config : SlideshowConfig) (out : string) :
  let tr := trace (createPdfSlideshow W config out) in
  let visited := completed W 0 (images config) in
  List.length (filter is_warning tr) = List.length (filter (skipped W) visited)
  /\ List.length (filter is_error tr)
     = list_sum (map (entry_errors W) visited)
       + (if uninterrupted W config
          then match stream_result W with None => 0 | Some _ => 1 end
          else 0)
  /\ filter is_log tr
     = (if uninterrupted W config
        then match stream_result W with
             | None => [Console LOG ("PDF created successfully: " ++ out)%string None]
             | Some _ => []
             end
        else [])
  /\ (uninterrupted W config = true -> visited = images config).
Proof.
  intros tr visited. subst tr visited. rewrite createPdfSlideshow_unfold. cbn [trace fst].
  split; [| split; [| split]].
  - cbn [filter is_warning]. rewrite !filter_app, !length_app.
    rewrite (@filter_title_part is_warning config) by
      (first [intros ev D; destruct ev; try discriminate D; reflexivity | reflexivity]).
    rewrite (@count_stepTraces is_warning _ W (List.length (images config))
               (fun path e => eq_refl)
               (fun i entry => imageStep_warnings W (List.length (images config)) i entry)).
    rewrite list_sum_indicator.
    unfold closing. destruct (uninterrupted W config);
      [destruct (stream_result W) |]; cbn [List.length filter is_warning]; lia.
  - cbn [filter is_error]. rewrite !filter_app, !length_app.
    rewrite (@filter_title_part is_error config) by
      (first [intros ev D; destruct ev; try discriminate D; reflexivity | reflexivity]).
    rewrite (@count_stepTraces is_error _ W (List.length (images config))
               (fun path e => eq_refl)
               (fun i entry => imageStep_errors W (List.length (images config)) i entry)).
    unfold closing. destruct (uninterrupted W config);
      [destruct (stream_result W) |]; cbn [List.length filter is_error]; lia.
  - cbn [filter is_log]. rewrite !filter_app.
    rewrite (@filter_title_part is_log config) by
      (first [intros ev D; destruct ev; try discriminate D; reflexivity | reflexivity]).
    rewrite (@filter_stepTraces is_log (fun _ => []) W (List.length (images config))
               (fun path e => eq_refl)
               (fun i entry => imageStep_no_log W (List.length (images config)) i entry)).
    rewrite flat_map_nil.
    unfold closing. destruct (uninterrupted W config); [| reflexivity].
    destruct (stream_result W); reflexivity.
  - intros U. exact (completed_all W (images config) 0 U).
Qed.

(** ** The process *)

Lemma existsb_filter_implied (A : Type) (P Q : A -> bool) (l : list A) :
  (forall x : A, Q x = true -> P x = true) ->
  existsb Q (filter P l) = existsb Q l.
Proof.
  intros I. induction l as [| x l' IH].
  - reflexivity.
  - cbn [filter existsb]. destruct (P x) eqn:Px.
    + cbn [existsb]. rewrite IH. reflexivity.
    + rewrite IH. destruct (Q x) eqn:Qx; [| reflexivity].
      rewrite (I x Qx) in Px. discriminate Px.
Qed.

Lemma assembler_never_exits (W : World) (config : SlideshowConfig) (out : string) :
  existsb is_exit (trace (createPdfSlideshow W config out)) = false.
Proof.
  rewrite <- (@existsb_filter_implied Event is_lifecycle is_exit).
  - rewrite assembler_lifecycle_events. destruct (uninterrupted W config); reflexivity.
  - intros ev E. destruct ev; try discriminate E; reflexivity.
Qed.

Lemma imageStep_no_uncaught (W : World) (len i : nat) (entry : option ImageData) :
  interrupted W i entry = false ->
  filter is_uncaught (trace (imageStep W len i entry)) = [].
Proof. intros I. turn_filter W len i entry I is_uncaught imageData E. Qed.

(** The loop reports an uncaught error exactly when it is cut short, and
    then as its last event. *)
Lemma stepTraces_uncaught (W : World) (len : nat) (rest : list (option ImageData)) :
  forall i : nat,
    if loop_completes W i rest
    then filter is_uncaught (List.concat (stepTraces W len i rest)) = []
    else exists (body : list Event) (e : Error),
           stream_result W = Some e
           /\ List.concat (stepTraces W len i rest) = body ++ [Uncaught e]
           /\ filter is_uncaught body = [].
Proof.
  induction rest as [| entry rest' IH]; intros i.
  - reflexivity.
  - cbn [loop_completes stepTraces List.concat].
    destruct (interrupted W i entry) eqn:I; cbn [negb andb].
    + destruct (@interrupted_trace W len i entry I) as (imageData & e & _ & _ & S & T).
      rewrite T. cbn [trace fst List.concat]. rewrite app_nil_r.
      exists [ExistsSync (src imageData); SharpMetadata (src imageData)], e.
      split; [exact S | split; reflexivity].
    + specialize (IH (S i)). destruct (loop_completes W (S i) rest').
      * rewrite filter_app, (imageStep_no_uncaught W len i entry I), IH. reflexivity.
      * destruct IH as (body & e & S & T & F).
        exists (trace (imageStep W len i entry) ++ body), e.
        split; [exact S | split].
        -- rewrite T, app_assoc. reflexivity.
        -- rewrite filter_app, (imageStep_no_uncaught W len i entry I), F. reflexivity.
Qed.

(** The assembler's trace, when an error of the stream cuts the run
    short: it ends with the report of that error. *)
Lemma assembler_cut_short (W : World) (config : SlideshowConfig) (out : string) :
  uninterrupted W config = false ->
  exists (body : list Event) (e : Error),
    stream_result W = Some e
    /\ trace (createPdfSlideshow W config out) = body ++ [Uncaught e]
    /\ filter is_uncaught body = []
    /\ existsb is_exit body = false.
Proof.
  intros U. pose proof (assembler_never_exits W config out) as X.
  rewrite createPdfSlideshow_unfold in X |- *. rewrite U in X |- *. cbn [trace fst] in X |- *.
  pose proof (stepTraces_uncaught W (List.length (images config)) (images config) 0) as C.
  unfold uninterrupted in U. rewrite U in C. destruct C as (body & e & S & T & F).
  rewrite T, app_nil_r in X |- *.
  exists (NewDocument PAGE_WIDTH PAGE_HEIGHT MARGIN
          :: CreateWriteStream ("./dist/" ++ out)%string :: title_part config ++ body), e.
  split; [exact S | split; [| split]].
  - cbn [app]. rewrite <- app_assoc. reflexivity.
  - cbn [filter is_uncaught]. rewrite filter_app, F, app_nil_r.
    apply filter_title_part; [intros ev D; destruct ev; try discriminate D |]; reflexivity.
  - cbn [existsb is_exit orb] in X |- *. rewrite !existsb_app in X. rewrite !existsb_app.
    destruct (existsb is_exit (title_part config)); [cbn [orb] in X; discriminate X |].
    destruct (existsb is_exit body); [cbn [orb] in X; discriminate X | reflexivity].
Qed.

(** The assembler reports no uncaught error in a run that is not cut
    short. *)
Lemma assembler_whole (W : World) (config : SlideshowConfig) (out : string) :
  uninterrupted W config = true ->
  filter is_uncaught (trace (createPdfSlideshow W config out)) = [].
Proof.
  intros U. rewrite createPdfSlideshow_unfold, U. cbn [trace fst filter is_uncaught].
  pose proof (stepTraces_uncaught W (List.length (images config)) (images config) 0) as C.
  unfold uninterrupted in U. rewrite U in C.
  rewrite !filter_app, C.
  rewrite (@filter_title_part is_uncaught config) by
    (first [intros ev D; destruct ev; try discriminate D; reflexivity | reflexivity]).
  unfold closing. destruct (stream_result W); reflexivity.
Qed.

(** What [main] does around the assembler: console lines before it; and
    after it, when the run is not cut short, the summary, and
    [process.exit(1)] at the very end when the stream failed. *)
Lemma main_shape (W : World) (config : SlideshowConfig) :
  images config <> [] ->
  forallb is_log (banner W config) = true
  /\ forallb is_log (summary W config) = true
  /\ main W config =
       (banner W config
        ++ trace (createPdfSlideshow W config
                    (outputFilename (Date_now W) (title config)))
        ++ (if uninterrupted W config
            then summary W config
                 ++ match stream_result W with None => [] | Some _ => [ProcessExit 1] end
            else []),
        if uninterrupted W config
        then match stream_result W with None => Returns tt | Some _ => Exits 1%Z end
        else Exits 1%Z).
Proof.
  intros NE.
  split; [unfold banner; destruct (truthy (subtitle config)); reflexivity |].
  split; [unfold summary; destruct (stream_result W);
          [| destruct (truthy (title config))]; reflexivity |].
  unfold main.
  replace (List.length (images config) =? 0)%nat with false
    by (destruct (images config); [contradiction NE; reflexivity | reflexivity]).
  pose proof (createPdfSlideshow_unfold W config
                (outputFilename (Date_now W) (title config))) as U.
  destruct (createPdfSlideshow W config (outputFilename (Date_now W) (title config)))
    as [tr o].
  injection U as Ut Uo. rewrite Uo. clear Ut Uo.
  unfold banner, summary, bind, outcome, trace, console_log, emit, ret, process_exit.
  destruct (truthy (subtitle config)); cbn [fst snd];
    destruct (uninterrupted W config); cbn [fst snd];
    destruct (stream_result W); cbn [fst snd];
    destruct (truthy (title config)); cbn [fst snd app];
    rewrite <- ?app_assoc, ?app_nil_r; cbn [app]; reflexivity.
Qed.

Lemma existsb_logs (P : Event -> bool) (l : list Event) :
  (forall ev, is_log ev = true -> P ev = false) ->
  forallb is_log l = true -> existsb P l = false.
Proof.
  intros Pl. induction l as [| ev l' IH]; intros L.
  - reflexivity.
  - cbn [forallb] in L. apply andb_prop in L. destruct L as [Le L'].
    cbn [existsb]. rewrite (IH L'), (Pl ev Le). reflexivity.
Qed.

Lemma existsb_filter_nil (A : Type) (P : A -> bool) (l : list A) :
  filter P l = [] -> existsb P l = false.
Proof.
  induction l as [| x l' IH]; intros F; [reflexivity |].
  cbn [filter] in F. cbn [existsb]. destruct (P x); [discriminate F | exact (IH F)].
Qed.

(** X3: for a list that is not empty, the run opens its write stream at
    ["./dist/"] followed by the output file name. *)
Lemma run_opens_output_file (W : World) (config : SlideshowConfig) :
  images config <> [] ->
  In (CreateWriteStream
        ("./dist/" ++ outputFilename (Date_now W) (title config))%string)
     (fst (run W config)).
Proof.
  intros NE. destruct (@main_shape W config NE) as (_ & _ & M).
  assert (I : In (CreateWriteStream
                    ("./dist/" ++ outputFilename (Date_now W) (title config))%string)
                (trace (main W config))).
  { rewrite M. cbn [trace fst]. apply in_or_app. right. apply in_or_app. left.
    rewrite createPdfSlideshow_unfold. right. left. reflexivity. }
  unfold run. destruct (outcome (main W config)); cbn [fst]; [exact I | | exact I].
  apply in_or_app. left. exact I.
Qed.

Lemma run_opens_output_file_witness :
  images two_good <> [] /\
  In (CreateWriteStream "./dist/My_Trip__20240105_090307.pdf")
     (fst (run sample_world two_good)).
Proof.
  assert (NE : images two_good <> []) by discriminate.
  split; [exact NE |].
  exact (@run_opens_output_file sample_world two_good NE).
Defined.

(** X11: [main] never rejects, so the handler of
    [main().catch(console.error)] never runs. A process ends in one of
    three ways: with code 0; with code 1 by [process.exit(1)], called once
    and as the last thing the program does; or with code 1 and without
    [process.exit], when an error of the stream that nobody listens for
    ends it while an image is read, the report of that error being its
    last event. *)
Theorem process_exits_at_most_once (W : World) (config : SlideshowConfig) :
  (forall e : Error, outcome (main W config) <> Throws e)
  /\ exists events : list Event,
       existsb is_exit events = false
       /\ existsb is_uncaught events = false
       /\ (run W config = (events, 0%Z)
           \/ run W config = (events ++ [ProcessExit 1], 1%Z)
           \/ exists e : Error,
                stream_result W = Some e
                /\ uninterrupted W config = false
                /\ run W config = (events ++ [Uncaught e], 1%Z)).
Proof.
  destruct (images config) as [| entry rest] eqn:I.
  - assert (M : main W config =
                  ([Console LOG "PDF Slideshow Generator (TypeScript/Bun)" None;
                    Console LOG "========================================" None;
                    Console ERROR "No images found in configuration" None;
                    ProcessExit 1], Exits 1%Z)).
    { unfold main. rewrite I. reflexivity. }
    split; [intros e E; rewrite M in E; discriminate E |].
    exists [Console LOG "PDF Slideshow Generator (TypeScript/Bun)" None;
            Console LOG "========================================" None;
            Console ERROR "No images found in configuration" None].
    split; [reflexivity | split; [reflexivity |]].
    right. left. unfold run. rewrite M. reflexivity.
  - assert (NE : images config <> []) by (rewrite I; discriminate).
    destruct (@main_shape W config NE) as (Lb & La & M).
    set (tr := trace (createPdfSlideshow W config
                        (outputFilename (Date_now W) (title config)))) in *.
    assert (Xb : existsb is_exit (banner W config) = false)
      by (apply existsb_logs; [intros ev L; destruct ev; try discriminate L; reflexivity
                              | exact Lb]).
    assert (Ub : existsb is_uncaught (banner W config) = false)
      by (apply existsb_logs; [intros ev L; destruct ev; try discriminate L; reflexivity
                              | exact Lb]).
    assert (Xa : existsb is_exit (summary W config) = false)
      by (apply existsb_logs; [intros ev L; destruct ev; try discriminate L; reflexivity
                              | exact La]).
    assert (Ua : existsb is_uncaught (summary W config) = false)
      by (apply existsb_logs; [intros ev L; destruct ev; try discriminate L; reflexivity
                              | exact La]).
    split.
    { intros e E. rewrite M in E. cbn [outcome snd] in E.
      destruct (uninterrupted W config); [destruct (stream_result W) |]; discriminate E. }
    destruct (uninterrupted W config) eqn:U.
    + exists (banner W config ++ tr ++ summary W config).
      split; [| split].
      * rewrite !existsb_app, Xb, Xa. unfold tr. rewrite assembler_never_exits. reflexivity.
      * rewrite !existsb_app, Ub, Ua. unfold tr.
        rewrite (existsb_filter_nil _ _ (assembler_whole W config _ U)). reflexivity.
      * unfold run. rewrite M. cbn [outcome trace fst snd].
        destruct (stream_result W).
        -- right. left. rewrite <- !app_assoc. reflexivity.
        -- left. rewrite !app_nil_r. reflexivity.
    + destruct (assembler_cut_short W config
                  (outputFilename (Date_now W) (title config)) U)
        as (body & e & S & T & F & X).
      exists (banner W config ++ body).
      split; [| split].
      * rewrite existsb_app, Xb, X. reflexivity.
      * rewrite existsb_app, Ub, (existsb_filter_nil _ _ F). reflexivity.
      * right. right. exists e. split; [exact S | split; [reflexivity |]].
        unfold run. rewrite M. cbn [outcome trace fst snd].
        unfold tr. rewrite T, app_nil_r, <- app_assoc. reflexivity.
Qed.

(** ** A skipped last entry *)

Lemma blank_after_break (t : list Event) (b : bool) :
  blank_after b (t ++ [AddPage]) = true.
Proof. rewrite blank_after_app. reflexivity. Qed.

(** A turn that is followed by a page break, or that is cut short, leaves
    a blank current page when it began on one. *)
Lemma imageStep_leaves_blank (W : World) (len i : nat) (entry : option ImageData) :
  S i < len -> blank_after true (trace (imageStep W len i entry)) = true.
Proof.
  intros L. destruct (interrupted W i entry) eqn:I.
  - cut_case W len i entry I. reflexivity.
  - turn_cases W len i entry I; try reflexivity.
    cbn [trace fst]. unfold break_after.
    replace (S i <? len)%nat with true by (symmetry; apply Nat.ltb_lt; exact L).
    rewrite app_comm_cons. apply blank_after_break.
Qed.

Lemma imageStep_skipped_quiet (W : World) (len i : nat) (entry : option ImageData) :
  on_disk W entry = false -> forallb quiet (trace (imageStep W len i entry)) = true.
Proof.
  intros D. destruct entry as [imageData |]; [| reflexivity].
  cbn [on_disk] in D. rewrite (@imageStep_missing W len i imageData D). reflexivity.
Qed.

Lemma title_part_leaves_blank (config : SlideshowConfig) :
  blank_after true (title_part config) = true.
Proof.
  unfold title_part. destruct (truthy (title config)); [| reflexivity].
  apply blank_after_break.
Qed.

(** When the last entry of the list is skipped, the loop ends on a blank
    page, however it ends. *)
Lemma loop_ends_blank (W : World) (len : nat) (lastEntry : option ImageData) :
  on_disk W lastEntry = false ->
  forall (rest : list (option ImageData)) (i : nat),
    i + List.length rest + 1 = len ->
    blank_after true (List.concat (stepTraces W len i (rest ++ [lastEntry]))) = true.
Proof.
  intros D rest. induction rest as [| entry rest' IH]; intros i L.
  - cbn [app stepTraces List.concat].
    replace (List.concat (if interrupted W i lastEntry then [] else []))
      with (@nil Event) by (destruct (interrupted W i lastEntry); reflexivity).
    rewrite app_nil_r. apply blank_after_quiet, imageStep_skipped_quiet, D.
  - cbn [app stepTraces List.concat]. rewrite blank_after_app.
    cbn [List.length] in L.
    rewrite (@imageStep_leaves_blank W len i entry) by lia.
    destruct (interrupted W i entry); [reflexivity |].
    apply IH. lia.
Qed.

(** X2: the page break is decided by the list index: when the last entry
    of the list is skipped (undefined, or its file missing) and the entry
    before it reaches [addImageSlide], the document ends with a blank
    page. *)
Theorem skipped_last_entry_leaves_blank_page (W : World) (title subtitle out : string)
    (earlier : list (option ImageData)) (imageData : ImageData)
    (lastEntry : option ImageData) :
  Fs_existsSync W (src imageData) = true ->
  on_disk W lastEntry = false ->
  exists before : list Page,
    pages W (trace (createPdfSlideshow W
                      {| title := title; subtitle := subtitle;
                         images := earlier ++ [Some imageData; lastEntry] |} out))
    = before ++ [[]].
Proof.
  intros E D.
  set (config := {| title := title; subtitle := subtitle;
                    images := earlier ++ [Some imageData; lastEntry] |}).
  rewrite createPdfSlideshow_unfold. cbn [trace fst pages].
  match goal with
  | |- exists before, pages_from W [] ?tr = _ =>
      destruct (pages_from_last W tr []) as (before & current & P & B)
  end.
  exists before. rewrite P. f_equal. f_equal.
  assert (C : blank current = true); [| destruct current; [reflexivity | discriminate C]].
  rewrite B. cbn [blank blank_after is_page_break is_draw].
  rewrite !blank_after_app.
  rewrite (title_part_leaves_blank config).
  change (images config) with (earlier ++ [Some imageData; lastEntry]).
  replace (earlier ++ [Some imageData; lastEntry])
    with ((earlier ++ [Some imageData]) ++ [lastEntry])
    by (rewrite <- app_assoc; reflexivity).
  rewrite (@loop_ends_blank W _ lastEntry D (earlier ++ [Some imageData]) 0)
    by (rewrite !length_app; cbn [List.length]; lia).
  apply blank_after_quiet.
  destruct (uninterrupted W config); [apply closing_quiet | reflexivity].
Qed.

Lemma skipped_last_entry_leaves_blank_page_witness :
  Fs_existsSync sample_world (src good_image) = true /\
  on_disk sample_world (Some missing_image) = false /\
  exists before : list Page,
    pages sample_world (trace (createPdfSlideshow sample_world good_then_missing "out.pdf"))
    = before ++ [[]].
Proof.
  split; [reflexivity | split; [reflexivity |]].
  exact (@skipped_last_entry_leaves_blank_page sample_world "" "" "out.pdf" []
           good_image (Some missing_image) eq_refl eq_refl).
Defined.

(** A readable image followed by a missing file: two pages, the second
    blank. *)
Example good_then_missing_pages :
  pages sample_world (trace (createPdfSlideshow sample_world good_then_missing "out.pdf"))
  = [[DocImage "good.png" 72 72 1776 856 center center;
      DocText 26 "Helvetica" "A caption" 72 958 1776 center];
     []].
Proof. vm_compute. reflexivity. Qed.

(** ** The output file name *)

Lemma Z_range_In (lo n z : Z) : (lo <= z < lo + n)%Z -> In z (Z_range lo n).
Proof.
  intros Hz. unfold Z_range. apply in_map_iff.
  exists (Z.to_nat (z - lo)). split.
  - lia.
  - apply in_seq. lia.
Qed.

Lemma Z_range_check (P : Z -> bool) (lo n : Z) :
  forallb P (Z_range lo n) = true ->
  forall z : Z, (lo <= z < lo + n)%Z -> P z = true.
Proof.
  intros H z Hz. rewrite forallb_forall in H. apply H. apply Z_range_In. exact Hz.
Qed.

Lemma is_alnum_occurs (c : ascii) : is_alnum c = occurs c alnum_chars.
Proof.
  destruct c as [b0 b1 b2 b3 b4 b5 b6 b7].
  destruct b0, b1, b2, b3, b4, b5, b6, b7; vm_compute; reflexivity.
Qed.

Lemma replace_non_alnum_sanitize (s : string) : replace_non_alnum s = spec_sanitize s.
Proof.
  induction s as [| c rest IH].
  - reflexivity.
  - cbn [replace_non_alnum spec_sanitize]. rewrite IH, is_alnum_occurs. reflexivity.
Qed.

(** Replacing and then defaulting is sanitizing the defaulted title. *)
Lemma baseName_sanitize (title : string) :
  baseName title = spec_sanitize (if truthy title then title else "slideshow"%string).
Proof.
  unfold baseName. rewrite replace_non_alnum_sanitize.
  destruct title as [| c rest]; reflexivity.
Qed.

Lemma padStart_two_digits (n : Z) :
  (0 <= n <= 99)%Z -> padStart (Number_toString n) 2 "0" = two_digits n.
Proof.
  intros Hn.
  apply String.eqb_eq.
  apply (@Z_range_check
           (fun z => String.eqb (padStart (Number_toString z) 2 "0") (two_digits z))
           0%Z 100%Z).
  - vm_compute. reflexivity.
  - lia.
Qed.

(** Printing a number of four digits, digit by digit. *)
Ltac digit_cases k :=
  let Hm := fresh "Hm" in
  assert (Hm : ((k mod 10 = 0 \/ k mod 10 = 1 \/ k mod 10 = 2 \/ k mod 10 = 3
                 \/ k mod 10 = 4 \/ k mod 10 = 5 \/ k mod 10 = 6 \/ k mod 10 = 7
                 \/ k mod 10 = 8 \/ k mod 10 = 9)%Z))
    by (pose proof (Z.mod_pos_bound k 10 eq_refl); lia);
  repeat (destruct Hm as [Hm | Hm]; [rewrite Hm | ]); [.. | rewrite Hm].

Lemma string_of_decimal_digit (k : Z) (rest : Decimal.uint) :
  NilEmpty.string_of_uint (decimal_digit k rest)
  = String (digit k) (NilEmpty.string_of_uint rest).
Proof.
  unfold decimal_digit, digit. digit_cases k; reflexivity.
Qed.

Lemma nilzero_decimal_digit (k : Z) (rest : Decimal.uint) :
  NilZero.string_of_uint (decimal_digit k rest)
  = NilEmpty.string_of_uint (decimal_digit k rest).
Proof.
  unfold decimal_digit. digit_cases k; reflexivity.
Qed.

Lemma of_uint_acc_decimal_digit (k : Z) (rest : Decimal.uint) (acc : positive) :
  Pos.of_uint_acc (decimal_digit k rest) acc
  = Pos.of_uint_acc rest (Z.to_pos (10 * Z.pos acc + k mod 10)).
Proof.
  unfold decimal_digit. digit_cases k; cbn [Pos.of_uint_acc]; f_equal; lia.
Qed.

Lemma of_uint_decimal_digit (k : Z) (rest : Decimal.uint) :
  (1 <= k <= 9)%Z ->
  Pos.of_uint (decimal_digit k rest) = Npos (Pos.of_uint_acc rest (Z.to_pos k))
  /\ Decimal.unorm (decimal_digit k rest) = decimal_digit k rest.
Proof.
  intros Hk. unfold decimal_digit. rewrite (Z.mod_small k 10) by lia.
  assert (C : (k = 1 \/ k = 2 \/ k = 3 \/ k = 4 \/ k = 5 \/ k = 6 \/ k = 7 \/ k = 8
               \/ k = 9)%Z) by lia.
  repeat (destruct C as [C | C]; [subst k; split; reflexivity |]).
  subst k; split; reflexivity.
Qed.

Lemma toString_four_digits (n : Z) :
  (1000 <= n <= 9999)%Z -> Number_toString n = four_digits n.
Proof.
  intros Hn.
  set (d := decimal_digit (n / 1000)
              (decimal_digit (n / 100) (decimal_digit (n / 10) (decimal_digit n Decimal.Nil)))).
  assert (Hk : (1 <= n / 1000 <= 9)%Z) by (Z.div_mod_to_equations; lia).
  destruct (@of_uint_decimal_digit (n / 1000)
              (decimal_digit (n / 100) (decimal_digit (n / 10) (decimal_digit n Decimal.Nil)))
              Hk) as [V U].
  fold d in V, U.
  assert (E : Z.of_int (Decimal.Pos d) = n).
  { cbn [Z.of_int]. unfold Z.of_uint. rewrite V.
    rewrite !of_uint_acc_decimal_digit. cbn [Pos.of_uint_acc Z.of_N].
    rewrite !Z2Pos.id by (Z.div_mod_to_equations; lia).
    Z.div_mod_to_equations. lia. }
  unfold Number_toString. rewrite <- E at 1. rewrite DecimalZ.to_of.
  cbn [Decimal.norm]. rewrite U.
  unfold NilZero.string_of_int, d.
  rewrite nilzero_decimal_digit, !string_of_decimal_digit. reflexivity.
Qed.

Lemma getTimestamp_spec (now : LocalTime) :
  valid_time now -> four_digit_year now -> getTimestamp now = spec_timestamp now.
Proof.
  intros (Mo & Da & Ho & Mi & Se) Ye.
  unfold getTimestamp, spec_timestamp.
  rewrite (toString_four_digits Ye).
  rewrite !padStart_two_digits by lia.
  reflexivity.
Qed.

(** C8, as stated, fails for an instant whose year does not have four
    digits: the year is printed as it is, so at the first instant of the
    year 10000 the timestamp has sixteen characters, and the file name is
    not of the form [My_Trip__YYYYMMDD_HHMMSS.pdf]. *)
Lemma y10k_filename_not_of_the_form :
  valid_time y10k /\
  getTimestamp y10k = "100000101_000000"%string /\
  String.length (getTimestamp y10k) = 16 /\
  String.length (spec_timestamp y10k) = 15 /\
  outputFilename y10k "My Trip!" = "My_Trip__100000101_000000.pdf"%string /\
  outputFilename y10k "My Trip!" <> spec_filename y10k "My Trip!".
Proof.
  split; [unfold valid_time; cbn; lia |].
  repeat split; try (vm_compute; reflexivity).
  intros E. apply (f_equal String.length) in E. vm_compute in E. discriminate E.
Qed.

(** C8 (amended): for every title and every run instant whose year has
    four digits, the output file name is
    [sanitize(title or "slideshow") + "_" + timestamp + ".pdf"], where
    [sanitize] replaces every character outside [[A-Za-z0-9]] by ["_"] and
    the timestamp is [YYYYMMDD_HHMMSS] with zero-padded fields, fifteen
    characters; for the title ["My Trip!"] it is
    [My_Trip__YYYYMMDD_HHMMSS.pdf]. *)
Theorem output_filename_form (title : string) (now : LocalTime) :
  valid_time now -> four_digit_year now ->
  outputFilename now title = spec_filename now title
  /\ getTimestamp now = spec_timestamp now
  /\ String.length (getTimestamp now) = 15
  /\ outputFilename now "My Trip!"
     = ("My_Trip__" ++ spec_timestamp now ++ ".pdf")%string.
Proof.
  intros V Y.
  pose proof (getTimestamp_spec V Y) as T.
  unfold outputFilename, spec_filename.
  rewrite T, !baseName_sanitize.
  repeat split.
Qed.

Lemma output_filename_form_witness :
  valid_time sample_time /\ four_digit_year sample_time /\
  outputFilename sample_time "My Trip!" = "My_Trip__20240105_090307.pdf"%string.
Proof.
  assert (V : valid_time sample_time) by (unfold valid_time; cbn; lia).
  assert (Y : four_digit_year sample_time) by (unfold four_digit_year; cbn; lia).
  split; [exact V | split; [exact Y |]].
  destruct (@output_filename_form "My Trip!" sample_time V Y) as (E & _ & _ & _).
  rewrite E. reflexivity.
Defined.

(** ** The characters of the output name *)

Local Open Scope string_scope.

Lemma all_chars_app (P : ascii -> bool) (s1 s2 : string) :
  all_chars P (s1 ++ s2) = (all_chars P s1 && all_chars P s2)%bool.
Proof.
  induction s1 as [| c rest IH].
  - reflexivity.
  - cbn [String.append all_chars]. rewrite IH, andb_assoc. reflexivity.
Qed.

Lemma all_chars_occurs (P : ascii -> bool) (c : ascii) (s : string) :
  all_chars P s = true -> P c = false -> occurs c s = false.
Proof.
  intros A Pc. induction s as [| c' rest IH].
  - reflexivity.
  - cbn [all_chars] in A. apply andb_prop in A. destruct A as [Pc' A'].
    cbn [occurs]. rewrite (IH A'), orb_false_r.
    destruct (Ascii.eqb_spec c c') as [E | NE]; [| reflexivity].
    subst c'. rewrite Pc in Pc'. discriminate Pc'.
Qed.

Lemma replace_non_alnum_chars (s : string) :
  all_chars (fun c => (is_alnum c || Ascii.eqb c "_")%bool) (replace_non_alnum s) = true.
Proof.
  induction s as [| c rest IH].
  - reflexivity.
  - cbn [replace_non_alnum all_chars]. rewrite IH, andb_true_r.
    destruct (is_alnum c) eqn:A; [rewrite A |]; reflexivity.
Qed.

Lemma all_chars_weaken (P Q : ascii -> bool) (s : string) :
  (forall c : ascii, P c = true -> Q c = true) ->
  all_chars P s = true -> all_chars Q s = true.
Proof.
  intros I. induction s as [| c rest IH]; intros A.
  - reflexivity.
  - cbn [all_chars] in *. apply andb_prop in A. destruct A as [Pc A'].
    rewrite (I c Pc), (IH A'). reflexivity.
Qed.

Lemma string_of_uint_chars (d : Decimal.uint) :
  all_chars is_filename_char (NilEmpty.string_of_uint d) = true.
Proof.
  induction d; cbn [NilEmpty.string_of_uint all_chars]; try rewrite IHd; reflexivity.
Qed.

Lemma Number_toString_chars (n : Z) :
  all_chars is_filename_char (Number_toString n) = true.
Proof.
  unfold Number_toString, NilZero.string_of_int, NilZero.string_of_uint.
  destruct (Z.to_int n) as [d | d]; cbn [all_chars];
    (destruct d; [reflexivity | apply (string_of_uint_chars (_ d)) ..]).
Qed.

Lemma pad_fill_chars (P : ascii -> bool) (pad : string) :
  all_chars P pad = true ->
  forall (n : nat) (cur : string),
    all_chars P cur = true -> all_chars P (pad_fill n pad cur) = true.
Proof.
  intros Pp n. induction n as [| n' IH]; intros cur Pc.
  - reflexivity.
  - cbn [pad_fill]. destruct cur as [| c rest].
    + destruct pad as [| c rest]; [reflexivity |].
      cbn [all_chars] in *. apply andb_prop in Pp. destruct Pp as [Pc0 Pr].
      rewrite Pc0. apply IH. exact Pr.
    + cbn [all_chars] in *. apply andb_prop in Pc. destruct Pc as [Pc0 Pr].
      rewrite Pc0. apply IH. exact Pr.
Qed.

Lemma padStart_chars (P : ascii -> bool) (s : string) (n : nat) (pad : string) :
  all_chars P s = true -> all_chars P pad = true -> all_chars P (padStart s n pad) = true.
Proof.
  intros Ps Pp. unfold padStart.
  rewrite all_chars_app, (pad_fill_chars P pad Pp _ pad Pp), Ps. reflexivity.
Qed.

Lemma getTimestamp_chars (now : LocalTime) :
  all_chars is_filename_char (getTimestamp now) = true.
Proof.
  unfold getTimestamp.
  rewrite !all_chars_app, !padStart_chars, !Number_toString_chars;
    first [reflexivity | apply Number_toString_chars].
Qed.

Lemma baseName_chars (title : string) :
  all_chars (fun c => (is_alnum c || Ascii.eqb c "_")%bool) (baseName title) = true
  /\ baseName title <> "".
Proof.
  unfold baseName. destruct (truthy (replace_non_alnum title)) eqn:T.
  - split; [apply replace_non_alnum_chars |].
    intros E. rewrite E in T. discriminate T.
  - split; [reflexivity | discriminate].
Qed.

(** X12: whatever the title and the clock, the output name is made of
    letters, digits, ["_"], ["."] and ["-"] only, it holds no ["/"], and it
    starts with a letter, a digit or ["_"]: the stream opens a file
    directly inside [./dist/]. *)
Theorem outputFilename_safe (now : LocalTime) (title : string) :
  all_chars is_filename_char (outputFilename now title) = true
  /\ occurs "/" (outputFilename now title) = false
  /\ exists (c : ascii) (rest : string),
       outputFilename now title = String c rest
       /\ (is_alnum c || Ascii.eqb c "_")%bool = true.
Proof.
  destruct (baseName_chars title) as [B NE].
  assert (A : all_chars is_filename_char (outputFilename now title) = true).
  { assert (B' : all_chars is_filename_char (baseName title) = true).
    { revert B. apply all_chars_weaken.
      intros c Pc. unfold is_filename_char. rewrite Pc. reflexivity. }
    unfold outputFilename. rewrite !all_chars_app, getTimestamp_chars, B'. reflexivity. }
  split; [exact A | split].
  - apply (all_chars_occurs _ _ _ A). reflexivity.
  - unfold outputFilename.
    destruct (baseName title) as [| c rest]; [contradiction NE; reflexivity |].
    exists c. eexists. split; [reflexivity |].
    cbn [all_chars] in B. apply andb_prop in B. exact (proj1 B).
Qed.

(** ** The base name *)

Lemma replace_non_alnum_idempotent (s : string) :
  replace_non_alnum (replace_non_alnum s) = replace_non_alnum s.
Proof.
  induction s as [| c rest IH].
  - reflexivity.
  - cbn [replace_non_alnum]. rewrite IH.
    destruct (is_alnum c) eqn:A; [rewrite A |]; reflexivity.
Qed.

Lemma replace_non_alnum_length (s : string) :
  String.length (replace_non_alnum s) = String.length s.
Proof.
  induction s as [| c rest IH]; [reflexivity |].
  cbn [replace_non_alnum String.length]. rewrite IH. reflexivity.
Qed.

Lemma replace_non_alnum_truthy (s : string) :
  truthy (replace_non_alnum s) = truthy s.
Proof. destruct s; reflexivity. Qed.

(** A name made of letters and digits can only come from itself. *)
Lemma replace_non_alnum_clean (s : string) :
  forall s' : string,
    all_chars is_alnum s' = true -> replace_non_alnum s = s' -> s = s'.
Proof.
  induction s as [| c rest IH]; intros s' A E.
  - exact E.
  - destruct s' as [| c' rest']; [discriminate E |].
    cbn [replace_non_alnum] in E. injection E as Ec Er.
    cbn [all_chars] in A. apply andb_prop in A. destruct A as [Ac' A'].
    rewrite (IH rest' A' Er). f_equal.
    destruct (is_alnum c); [exact Ec |].
    subst c'. discriminate Ac'.
Qed.

Lemma replace_non_alnum_keeps (s : string) :
  all_chars is_alnum s = true -> replace_non_alnum s = s.
Proof.
  induction s as [| c rest IH]; intros A.
  - reflexivity.
  - cbn [all_chars] in A. apply andb_prop in A. destruct A as [Ac A'].
    cbn [replace_non_alnum]. rewrite Ac, (IH A'). reflexivity.
Qed.

(** X13: the default base name ["slideshow"] is used for the empty title
    only: a title is given this name exactly when it is empty or is
    ["slideshow"] itself. A title of marks only keeps its length in
    underscores. *)
Theorem baseName_default_only_for_empty (title : string) :
  (baseName title = "slideshow" <-> title = "" \/ title = "slideshow")
  /\ String.length (baseName title)
     = (if truthy title then String.length title else 9%nat).
Proof.
  split.
  - split.
    + intros E. unfold baseName in E. rewrite replace_non_alnum_truthy in E.
      destruct (truthy title) eqn:T.
      * right. apply replace_non_alnum_clean; [reflexivity | exact E].
      * left. destruct title; [reflexivity | discriminate T].
    + intros [E | E]; subst title; reflexivity.
  - unfold baseName. rewrite replace_non_alnum_truthy.
    destruct (truthy title); [apply replace_non_alnum_length | reflexivity].
Qed.

(** X14: sanitizing is idempotent: the base name of a base name is that
    base name; and a title that is not empty and made of letters and
    digits only is its own base name. *)
Theorem baseName_idempotent (title : string) :
  baseName (baseName title) = baseName title
  /\ (all_chars is_alnum title = true -> title <> "" -> baseName title = title).
Proof.
  split.
  - assert (B : baseName title
                 = if truthy title then replace_non_alnum title else "slideshow")
      by (unfold baseName; rewrite replace_non_alnum_truthy; reflexivity).
    rewrite B. destruct (truthy title) eqn:T; [| reflexivity].
    unfold baseName.
    rewrite replace_non_alnum_idempotent, !replace_non_alnum_truthy, T.
    reflexivity.
  - intros A NE. unfold baseName. rewrite (replace_non_alnum_keeps _ A).
    destruct title; [contradiction NE; reflexivity | reflexivity].
Qed.

(** ** The output name and the local time *)

Lemma string_length_app (s t : string) :
  String.length (s ++ t) = (String.length s + String.length t)%nat.
Proof.
  induction s as [| c rest IH]; [reflexivity |].
  cbn [String.append String.length]. rewrite IH. reflexivity.
Qed.

Lemma append_inj_l (s t1 t2 : string) : s ++ t1 = s ++ t2 -> t1 = t2.
Proof.
  induction s as [| c rest IH]; intros E.
  - exact E.
  - cbn [String.append] in E. injection E as E. exact (IH E).
Qed.

(** Two strings that end in suffixes of the same length. *)
Lemma append_inj_length (s1 : string) :
  forall s2 t1 t2 : string,
    s1 ++ t1 = s2 ++ t2 -> String.length t1 = String.length t2 ->
    s1 = s2 /\ t1 = t2.
Proof.
  induction s1 as [| c rest IH]; intros s2 t1 t2 E L.
  - destruct s2 as [| c2 rest2].
    + split; [reflexivity | exact E].
    + exfalso. cbn [String.append] in E. rewrite E in L.
      cbn [String.length] in L. rewrite string_length_app in L. lia.
  - destruct s2 as [| c2 rest2].
    + exfalso. cbn [String.append] in E. rewrite <- E in L.
      cbn [String.length] in L. rewrite string_length_app in L. lia.
    + cbn [String.append] in E. injection E as Ec Er.
      destruct (IH rest2 t1 t2 Er L) as [Es Et].
      subst. split; reflexivity.
Qed.

(** Printing an integer loses nothing. *)
Lemma Number_toString_inj (n m : Z) : Number_toString n = Number_toString m -> n = m.
Proof.
  assert (R : forall z : Z,
             NilZero.int_of_string (Number_toString z) = Some (Z.to_int z)).
  { intros z. unfold Number_toString. apply NilZero.isi.
    - destruct z as [| p | p]; cbn [Z.to_int]; try discriminate.
      intros E. injection E as E. exact (DecimalPos.Unsigned.to_uint_nonnil p E).
    - destruct z as [| p | p]; cbn [Z.to_int]; try discriminate.
      intros E. injection E as E. exact (DecimalPos.Unsigned.to_uint_nonnil p E). }
  intros E. apply DecimalZ.to_int_inj.
  pose proof (R n) as Rn. rewrite E, R in Rn. injection Rn as Rn. symmetry. exact Rn.
Qed.

Lemma digit_inj (a b : Z) : digit a = digit b -> (a mod 10 = b mod 10)%Z.
Proof.
  unfold digit. intros E. apply (f_equal nat_of_ascii) in E.
  pose proof (Z.mod_pos_bound a 10 eq_refl). pose proof (Z.mod_pos_bound b 10 eq_refl).
  rewrite !nat_ascii_embedding in E by lia. lia.
Qed.

Lemma two_digits_inj (a b : Z) :
  (0 <= a <= 99)%Z -> (0 <= b <= 99)%Z -> two_digits a = two_digits b -> a = b.
Proof.
  intros Ha Hb E. unfold two_digits in E. injection E as E1 E0.
  apply digit_inj in E1. apply digit_inj in E0.
  Z.div_mod_to_equations. lia.
Qed.

(** X15: the output name tells the local clock reading it was made
    from. For readings within the ranges of the getters, two names on the
    same title are equal only when the six fields read by [getTimestamp]
    (year, month, day, hours, minutes, seconds of the local time) are
    equal; readings that differ in a field give different names. Nothing
    is said of instants: two instants with the same local reading, as in
    the hour repeated when daylight saving ends, get the same name. *)
Theorem outputFilename_tells_the_local_time (now1 now2 : LocalTime) (title : string) :
  valid_time now1 -> valid_time now2 ->
  (outputFilename now1 title = outputFilename now2 title ->
   getTimestamp now1 = getTimestamp now2 /\ now1 = now2)
  /\ (now1 <> now2 -> outputFilename now1 title <> outputFilename now2 title).
Proof.
  intros (Mo1 & Da1 & Ho1 & Mi1 & Se1) (Mo2 & Da2 & Ho2 & Mi2 & Se2).
  assert (I : outputFilename now1 title = outputFilename now2 title ->
              getTimestamp now1 = getTimestamp now2 /\ now1 = now2).
  { intros E.
    unfold outputFilename in E. apply append_inj_l, append_inj_l in E.
    apply append_inj_length in E; [| reflexivity]. destruct E as [E _].
    split; [exact E |].
    unfold getTimestamp in E. rewrite !padStart_two_digits in E by lia.
    apply append_inj_length in E; [| reflexivity]. destruct E as [Ey Er].
    apply Number_toString_inj in Ey.
    unfold two_digits in Er. cbn [String.append] in Er.
    injection Er as M1 M0 D1 D0 H1 H0 I1 I0 S1 S0.
    apply digit_inj in M1, M0, D1, D0, H1, H0, I1, I0, S1, S0.
    destruct now1 as [y1 mo1 d1 h1 mi1 s1], now2 as [y2 mo2 d2 h2 mi2 s2].
    cbn [getFullYear getMonth getDate getHours getMinutes getSeconds] in *.
    assert (mo1 = mo2) by (Z.div_mod_to_equations; lia).
    assert (d1 = d2) by (Z.div_mod_to_equations; lia).
    assert (h1 = h2) by (Z.div_mod_to_equations; lia).
    assert (mi1 = mi2) by (Z.div_mod_to_equations; lia).
    assert (s1 = s2) by (Z.div_mod_to_equations; lia).
    subst. reflexivity. }
  split; [exact I |].
  intros N E. exact (N (proj2 (I E))).
Qed.

(** Two runs one second apart, at 09:03:07 and at 09:03:08. *)
Lemma outputFilename_tells_the_local_time_witness :
  valid_time sample_time /\
  valid_time {| getFullYear := 2024; getMonth := 0; getDate := 5;
                getHours := 9; getMinutes := 3; getSeconds := 8 |} /\
  outputFilename sample_time "My Trip!"
  <> outputFilename {| getFullYear := 2024; getMonth := 0; getDate := 5;
                       getHours := 9; getMinutes := 3; getSeconds := 8 |} "My Trip!".
Proof.
  assert (V1 : valid_time sample_time) by (unfold valid_time; cbn; lia).
  assert (V2 : valid_time {| getFullYear := 2024; getMonth := 0; getDate := 5;
                             getHours := 9; getMinutes := 3; getSeconds := 8 |})
    by (unfold valid_time; cbn; lia).
  split; [exact V1 | split; [exact V2 |]].
  apply (proj2 (@outputFilename_tells_the_local_time sample_time
                  {| getFullYear := 2024; getMonth := 0; getDate := 5;
                     getHours := 9; getMinutes := 3; getSeconds := 8 |} "My Trip!" V1 V2)).
  discriminate.
Defined.

(** ** The length of the timestamp *)

Lemma of_uint_acc_bounds (d : Decimal.uint) :
  forall acc : positive,
    (Z.pos acc * 10 ^ Z.of_nat (Decimal.nb_digits d)
     <= Z.pos (Pos.of_uint_acc d acc)
     < (Z.pos acc + 1) * 10 ^ Z.of_nat (Decimal.nb_digits d))%Z.
Proof.
  induction d; intros acc; cbn [Pos.of_uint_acc Decimal.nb_digits];
    [change (10 ^ Z.of_nat 0)%Z with 1%Z; lia | ..];
    rewrite Nat2Z.inj_succ, Z.pow_succ_r by lia;
    match goal with
    | |- context [Pos.of_uint_acc d ?a] => specialize (IHd a)
    end;
    assert (0 < 10 ^ Z.of_nat (Decimal.nb_digits d))%Z by (apply Z.pow_pos_nonneg; lia);
    nia.
Qed.

Lemma nzhead_not_D0 (d l : Decimal.uint) : Decimal.nzhead d <> Decimal.D0 l.
Proof. induction d; cbn [Decimal.nzhead]; try discriminate. exact IHd. Qed.

(** The decimal writing of a positive number does not start with a zero. *)
Lemma to_uint_head (p : positive) :
  match Pos.to_uint p with
  | Decimal.Nil | Decimal.D0 _ => False
  | _ => True
  end.
Proof.
  pose proof (DecimalPos.Unsigned.to_of (Pos.to_uint p)) as U.
  rewrite DecimalPos.Unsigned.of_to in U. cbn [N.to_uint] in U.
  pose proof (DecimalPos.Unsigned.to_uint_nonnil p) as NN.
  pose proof (DecimalPos.Unsigned.to_uint_nonzero p) as NZ.
  destruct (Pos.to_uint p) as [| l | l | l | l | l | l | l | l | l | l];
    try exact I; [contradiction NN; reflexivity |].
  unfold Decimal.unorm in U. cbn [Decimal.nzhead] in U.
  destruct (Decimal.nzhead l) eqn:Hl; try discriminate U.
  - injection U as U. subst l. contradiction NZ. reflexivity.
  - exact (@nzhead_not_D0 l u Hl).
Qed.

Lemma string_of_uint_length (d : Decimal.uint) :
  String.length (NilEmpty.string_of_uint d) = Decimal.nb_digits d.
Proof.
  induction d; cbn [NilEmpty.string_of_uint String.length Decimal.nb_digits];
    try rewrite IHd; reflexivity.
Qed.

(** A positive integer is printed with as many characters as it has
    decimal digits. *)
Lemma Number_toString_digits (n : Z) :
  (0 < n)%Z ->
  (10 ^ (Z.of_nat (String.length (Number_toString n)) - 1) <= n
   < 10 ^ Z.of_nat (String.length (Number_toString n)))%Z.
Proof.
  intros Hn. destruct n as [| p | p]; try lia.
  unfold Number_toString. cbn [Z.to_int NilZero.string_of_int].
  pose proof (to_uint_head p) as Hh.
  pose proof (DecimalPos.Unsigned.of_to p) as V.
  destruct (Pos.to_uint p) as [| l | l | l | l | l | l | l | l | l | l];
    try contradiction Hh;
    cbn [NilZero.string_of_uint NilEmpty.string_of_uint String.length];
    rewrite string_of_uint_length;
    cbn [Pos.of_uint] in V; injection V as V; rewrite <- V;
    match goal with
    | |- context [Pos.of_uint_acc l ?a] => pose proof (of_uint_acc_bounds l a) as B
    end;
    rewrite Nat2Z.inj_succ, Z.pow_succ_r by lia;
    replace (Z.succ (Z.of_nat (Decimal.nb_digits l)) - 1)%Z
      with (Z.of_nat (Decimal.nb_digits l)) by lia;
    assert (0 < 10 ^ Z.of_nat (Decimal.nb_digits l))%Z by (apply Z.pow_pos_nonneg; lia);
    nia.
Qed.

(** X24: for a year after year 0 the timestamp is as long as the year has
    decimal digits, plus eleven characters for the other fields and the
    underscore; so it has the fifteen characters of [YYYYMMDD_HHMMSS]
    exactly when the year has four digits. *)
Theorem timestamp_length (now : LocalTime) :
  valid_time now -> (0 < getFullYear now)%Z ->
  let digits := String.length (Number_toString (getFullYear now)) in
  String.length (getTimestamp now) = (digits + 11)%nat
  /\ (10 ^ (Z.of_nat digits - 1) <= getFullYear now < 10 ^ Z.of_nat digits)%Z
  /\ (String.length (getTimestamp now) = 15%nat <-> four_digit_year now).
Proof.
  intros (Mo & Da & Ho & Mi & Se) Y digits.
  assert (L : String.length (getTimestamp now) = (digits + 11)%nat).
  { unfold getTimestamp. rewrite !padStart_two_digits by lia.
    rewrite string_length_app. reflexivity. }
  pose proof (Number_toString_digits Y) as B. fold digits in B.
  split; [exact L | split; [exact B |]].
  rewrite L. unfold four_digit_year. split.
  - intros E. assert (D : digits = 4%nat) by lia. rewrite D in B.
    change (10 ^ (Z.of_nat 4 - 1))%Z with 1000%Z in B.
    change (10 ^ Z.of_nat 4)%Z with 10000%Z in B. lia.
  - intros F. unfold digits. rewrite (toString_four_digits F). reflexivity.
Qed.

Lemma timestamp_length_witness :
  valid_time sample_time /\ (0 < getFullYear sample_time)%Z /\
  String.length (getTimestamp sample_time) = 15%nat.
Proof.
  assert (V : valid_time sample_time) by (unfold valid_time; cbn; lia).
  assert (Y : (0 < getFullYear sample_time)%Z) by (cbn; lia).
  split; [exact V | split; [exact Y |]].
  destruct (@timestamp_length sample_time V Y) as (L & _ & _).
  rewrite L. reflexivity.
Defined.
(** ** Rounding on the image page *)

Lemma all_pairs_In (P : float -> float -> bool) (ws hs : list float) :
  all_pairs P ws hs = true ->
  forall w h : float, In w ws -> In h hs -> P w h = true.
Proof.
  unfold all_pairs. intros A w h Iw Ih.
  rewrite forallb_forall in A. specialize (A w Iw).
  rewrite forallb_forall in A. exact (A h Ih).
Qed.

Lemma sizes_to_2048_In (z : Z) : (1 <= z <= 2048)%Z -> In (float_of_Z z) sizes_to_2048.
Proof. intros Hz. apply in_map, Z_range_In. lia. Qed.

Lemma sizes_to_2048_fit : all_pairs fits_within_ulp sizes_to_2048 sizes_to_2048 = true.
Proof. vm_compute. reflexivity. Qed.

Lemma sizes_to_2048_refit :
  all_pairs refit_within_two_ulps sizes_to_2048 sizes_to_2048 = true.
Proof. vm_compute. reflexivity. Qed.

(** X1: in binary64, for every image of 1 x 1 to 2048 x 2048 pixels, the
    size fitted into the box of an image page exceeds neither side of the
    box by more than one unit in the last place, and is within one unit in
    the last place of one side. *)
Theorem binary64_fit_within_ulp (w h : Z) :
  (1 <= w <= 2048)%Z -> (1 <= h <= 2048)%Z ->
  fits_within_ulp (float_of_Z w) (float_of_Z h) = true.
Proof.
  intros Hw Hh.
  apply (all_pairs_In _ _ _ sizes_to_2048_fit); apply sizes_to_2048_In; assumption.
Qed.

Lemma binary64_fit_within_ulp_witness :
  (1 <= 100 <= 2048)%Z /\ (1 <= 99 <= 2048)%Z /\
  fits_within_ulp (float_of_Z 100) (float_of_Z 99) = true.
Proof.
  split; [lia | split; [lia |]].
  apply binary64_fit_within_ulp; lia.
Defined.

(** X4: in binary64, for every image of 1 x 1 to 2048 x 2048 pixels,
    fitting the fitted size again into the box of an image page moves
    neither dimension by more than two units in the last place. *)
Theorem binary64_refit_within_two_ulps (w h : Z) :
  (1 <= w <= 2048)%Z -> (1 <= h <= 2048)%Z ->
  refit_within_two_ulps (float_of_Z w) (float_of_Z h) = true.
Proof.
  intros Hw Hh.
  apply (all_pairs_In _ _ _ sizes_to_2048_refit); apply sizes_to_2048_In; assumption.
Qed.

Lemma binary64_refit_within_two_ulps_witness :
  (1 <= 100 <= 2048)%Z /\ (1 <= 99 <= 2048)%Z /\
  refit_within_two_ulps (float_of_Z 100) (float_of_Z 99) = true.
Proof.
  split; [lia | split; [lia |]].
  apply binary64_refit_within_two_ulps; lia.
Defined.

(** ** The shape decides the side (exact arithmetic) *)

Section ExactShape.
Local Open Scope Q_scope.

Lemma Qdiv_le_cross (w h boxW boxH : Q) :
  0 < w -> 0 < h -> boxW * h <= w * boxH -> boxW / w <= boxH / h.
Proof.
  intros Hw Hh C. apply Qle_shift_div_r; [exact Hw |].
  setoid_replace (boxH / h * w) with (w * boxH / h)
    by (field; apply Qpos_neq0; exact Hh).
  apply Qle_shift_div_l; [exact Hh | exact C].
Qed.

(** X16: read in exact arithmetic, the shape of the image decides the
    side it fills: an image relatively wider than the box
    ([boxW * h <= w * boxH]) gets the width of the box and the height
    [boxW * h / w]; an image relatively taller gets the height of the box
    and the width [boxH * w / h]. *)
Theorem calculateImageSize_exact_closed_form (w h boxW boxH : Q) :
  0 < w -> 0 < h ->
  (boxW * h <= w * boxH ->
   width (calculateImageSize w h boxW boxH) == boxW
   /\ height (calculateImageSize w h boxW boxH) == boxW * h / w)
  /\ (w * boxH <= boxW * h ->
      width (calculateImageSize w h boxW boxH) == boxH * w / h
      /\ height (calculateImageSize w h boxW boxH) == boxH).
Proof.
  intros Hw Hh.
  change (width (calculateImageSize w h boxW boxH))
    with (w * Qmin (boxW / w) (boxH / h)).
  change (height (calculateImageSize w h boxW boxH))
    with (h * Qmin (boxW / w) (boxH / h)).
  split; intros C.
  - rewrite Q.min_l by (apply Qdiv_le_cross; assumption).
    split; field; apply Qpos_neq0; exact Hw.
  - rewrite Q.min_r
      by (apply Qdiv_le_cross; [assumption .. |];
          rewrite (Qmult_comm boxH w), (Qmult_comm h boxW); exact C).
    split; field; apply Qpos_neq0; exact Hh.
Qed.

Lemma calculateImageSize_exact_closed_form_witness :
  (0 < 800 # 1 /\ 0 < 600 # 1) /\
  (width (calculateImageSize (800 # 1) (600 # 1) (1776 # 1) (856 # 1))
   == (856 # 1) * (800 # 1) / (600 # 1)
   /\ height (calculateImageSize (800 # 1) (600 # 1) (1776 # 1) (856 # 1)) == 856 # 1).
Proof.
  split; [split; reflexivity |].
  apply (proj2 (@calculateImageSize_exact_closed_form (800 # 1) (600 # 1) (1776 # 1) (856 # 1)
                  eq_refl eq_refl)).
  discriminate.
Defined.

(** X17: read in exact arithmetic, the fitted size depends on the shape
    of the image only: the same image at [k] times the resolution is
    fitted to the same size. *)
Theorem calculateImageSize_exact_resolution_independent (w h boxW boxH k : Q) :
  0 < w -> 0 < h -> 0 < k ->
  width (calculateImageSize (k * w) (k * h) boxW boxH)
  == width (calculateImageSize w h boxW boxH)
  /\ height (calculateImageSize (k * w) (k * h) boxW boxH)
     == height (calculateImageSize w h boxW boxH).
Proof.
  intros Hw Hh Hk.
  assert (Hi : 0 < / k) by (apply Qinv_lt_0_compat; exact Hk).
  assert (S : Qmin (boxW / (k * w)) (boxH / (k * h))
              == / k * Qmin (boxW / w) (boxH / h)).
  { rewrite <- Qmin_mult_pos_l by exact Hi.
    apply Q.min_compat; field; split; apply Qpos_neq0; assumption. }
  change (width (calculateImageSize (k * w) (k * h) boxW boxH))
    with (k * w * Qmin (boxW / (k * w)) (boxH / (k * h))).
  change (height (calculateImageSize (k * w) (k * h) boxW boxH))
    with (k * h * Qmin (boxW / (k * w)) (boxH / (k * h))).
  change (width (calculateImageSize w h boxW boxH))
    with (w * Qmin (boxW / w) (boxH / h)).
  change (height (calculateImageSize w h boxW boxH))
    with (h * Qmin (boxW / w) (boxH / h)).
  rewrite S. split; field; apply Qpos_neq0; exact Hk.
Qed.

Lemma calculateImageSize_exact_resolution_independent_witness :
  (0 < 800 # 1 /\ 0 < 600 # 1 /\ 0 < 2 # 1) /\
  width (calculateImageSize ((2 # 1) * (800 # 1)) ((2 # 1) * (600 # 1)) (1776 # 1) (856 # 1))
  == width (calculateImageSize (800 # 1) (600 # 1) (1776 # 1) (856 # 1)).
Proof.
  split; [repeat split |].
  exact (proj1 (@calculateImageSize_exact_resolution_independent
                  (800 # 1) (600 # 1) (1776 # 1) (856 # 1) (2 # 1)
                  eq_refl eq_refl eq_refl)).
Defined.
End ExactShape.

(** ** More of the image page in binary64 *)

Lemma sizes_to_2048_page_checks :
  all_pairs page_checks sizes_to_2048 sizes_to_2048 = true.
Proof. vm_compute. reflexivity. Qed.

Lemma page_checks_in_range (w h : Z) :
  (1 <= w <= 2048)%Z -> (1 <= h <= 2048)%Z ->
  fills_expected_side (float_of_Z w) (float_of_Z h) = true
  /\ keeps_ratio_within_two_ulps (float_of_Z w) (float_of_Z h) = true
  /\ resizes_toward_box (float_of_Z w) (float_of_Z h) = true
  /\ caption_in_strip (float_of_Z w) (float_of_Z h) = true.
Proof.
  intros Hw Hh.
  assert (C : page_checks (float_of_Z w) (float_of_Z h) = true)
    by (apply (all_pairs_In _ _ _ sizes_to_2048_page_checks);
        apply sizes_to_2048_In; assumption).
  unfold page_checks in C.
  apply andb_prop in C. destruct C as [C C4].
  apply andb_prop in C. destruct C as [C C3].
  apply andb_prop in C. destruct C as [C1 C2].
  repeat split; assumption.
Qed.

(** X18: in binary64, for every image of 1 x 1 to 2048 x 2048 pixels on
    an image page, the shape decides the side the image fills: the width
    of the box when [1776 * h <= w * 856], the height otherwise, within one
    unit in the last place. *)
Theorem binary64_fills_expected_side (w h : Z) :
  (1 <= w <= 2048)%Z -> (1 <= h <= 2048)%Z ->
  fills_expected_side (float_of_Z w) (float_of_Z h) = true.
Proof. intros Hw Hh. exact (proj1 (page_checks_in_range Hw Hh)). Qed.

Lemma binary64_fills_expected_side_witness :
  (1 <= 800 <= 2048)%Z /\ (1 <= 600 <= 2048)%Z /\
  fills_expected_side (float_of_Z 800) (float_of_Z 600) = true.
Proof.
  split; [lia | split; [lia |]].
  apply binary64_fills_expected_side; lia.
Defined.

(** X19: in binary64, for every image of 1 x 1 to 2048 x 2048 pixels on
    an image page, the aspect ratio of the fitted size is within two units
    in the last place of the aspect ratio of the image. *)
Theorem binary64_keeps_aspect_ratio (w h : Z) :
  (1 <= w <= 2048)%Z -> (1 <= h <= 2048)%Z ->
  keeps_ratio_within_two_ulps (float_of_Z w) (float_of_Z h) = true.
Proof. intros Hw Hh. exact (proj1 (proj2 (page_checks_in_range Hw Hh))). Qed.

Lemma binary64_keeps_aspect_ratio_witness :
  (1 <= 3 <= 2048)%Z /\ (1 <= 413 <= 2048)%Z /\
  keeps_ratio_within_two_ulps (float_of_Z 3) (float_of_Z 413) = true.
Proof.
  split; [lia | split; [lia |]].
  apply binary64_keeps_aspect_ratio; lia.
Defined.

(** X20: the scale factor is not capped at one. In binary64, for every
    image of 1 x 1 to 2048 x 2048 pixels on an image page, an image that is
    no larger than the box on either axis is enlarged (no dimension gets
    smaller), and every other image is reduced on both axes. *)
Theorem binary64_resizes_toward_box (w h : Z) :
  (1 <= w <= 2048)%Z -> (1 <= h <= 2048)%Z ->
  resizes_toward_box (float_of_Z w) (float_of_Z h) = true.
Proof. intros Hw Hh. exact (proj1 (proj2 (proj2 (page_checks_in_range Hw Hh)))). Qed.

Lemma binary64_resizes_toward_box_witness :
  (1 <= 100 <= 2048)%Z /\ (1 <= 99 <= 2048)%Z /\
  resizes_toward_box (float_of_Z 100) (float_of_Z 99) = true.
Proof.
  split; [lia | split; [lia |]].
  apply binary64_resizes_toward_box; lia.
Defined.

(** X21: in binary64, for every image of 1 x 1 to 2048 x 2048 pixels, the
    caption of its page is drawn at [captionY = MARGIN + fitted height + 30],
    which lies between 102 and 958 (one unit in the last place
    allowed), so at least 50 above the bottom margin of the page. *)
Theorem caption_in_reserved_strip (w h : Z) (imageData : ImageData) (text : string) :
  (1 <= w <= 2048)%Z -> (1 <= h <= 2048)%Z ->
  caption_present imageData = Some text ->
  caption_events imageData
    (calculateImageSize (float_of_Z w) (float_of_Z h) availableWidth availableHeight)
  = [DocText CAPTION_FONT_SIZE FONT text MARGIN (captionY (float_of_Z w) (float_of_Z h))
       availableWidth center]
  /\ caption_in_strip (float_of_Z w) (float_of_Z h) = true.
Proof.
  intros Hw Hh C. split.
  - unfold caption_events. rewrite C. reflexivity.
  - exact (proj2 (proj2 (proj2 (page_checks_in_range Hw Hh)))).
Qed.

Lemma caption_in_reserved_strip_witness :
  (1 <= 800 <= 2048)%Z /\ (1 <= 600 <= 2048)%Z /\
  caption_present good_image = Some "A caption" /\
  caption_in_strip (float_of_Z 800) (float_of_Z 600) = true.
Proof.
  split; [lia | split; [lia | split; [reflexivity |]]].
  apply (@caption_in_reserved_strip 800 600 good_image "A caption"); [lia | lia | reflexivity].
Defined.

(** ** [calculateImageSize]: the fit contract, in both arithmetics *)

(** C1 (amended): in either arithmetic [calculateImageSize] returns the
    natural size times [s = min (boxW / w) (boxH / h)]. In exact
    arithmetic, for all positive natural sizes and boxes, the result fits
    the box on both axes, has the aspect ratio of the original, and equals
    the box on at least one axis. In binary64, for every image of 1 x 1 to
    2048 x 2048 pixels in the box of an image page, the result exceeds
    neither side of the box by more than one unit in the last place, is
    within one unit in the last place of one side of the box, and has an
    aspect ratio within two units in the last place of the original's. *)
Theorem calculateImageSize_exact_fit :
  (forall w h boxW boxH : float,
     calculateImageSize w h boxW boxH
     = {| width := PrimFloat.mul w (fit_scale w h boxW boxH);
          height := PrimFloat.mul h (fit_scale w h boxW boxH) |})
  /\
  (forall w h boxW boxH : Q,
     (0 < w)%Q -> (0 < h)%Q -> (0 < boxW)%Q -> (0 < boxH)%Q ->
     let r := calculateImageSize w h boxW boxH in
     let s := fit_scale w h boxW boxH in
     (width r == w * s /\ height r == h * s /\
      width r <= boxW /\ height r <= boxH /\
      width r / height r == w / h /\
      (width r == boxW \/ height r == boxH))%Q)
  /\
  (forall w h : Z,
     (1 <= w <= 2048)%Z -> (1 <= h <= 2048)%Z ->
     fits_within_ulp (float_of_Z w) (float_of_Z h) = true
     /\ keeps_ratio_within_two_ulps (float_of_Z w) (float_of_Z h) = true).
Proof.
  split; [reflexivity |]. split.
  - intros w h boxW boxH Hw Hh HW HH r s.
    destruct (exact_fit_facts Hw Hh HW HH) as (_ & _ & Lw & Lh & T).
    assert (Hs : (0 < s)%Q) by (apply fit_scale_pos; assumption).
    split; [reflexivity |]. split; [reflexivity |].
    split; [exact Lw |]. split; [exact Lh |]. split; [| exact T].
    change (w * s / (h * s) == w / h)%Q.
    field. split; apply Qpos_neq0; assumption.
  - intros w h Hw Hh. split.
    + apply (all_pairs_In _ _ _ sizes_to_2048_fit); apply sizes_to_2048_In; assumption.
    + exact (proj1 (proj2 (page_checks_in_range Hw Hh))).
Qed.

Lemma calculateImageSize_exact_fit_witness :
  ((0 < 100 # 1 /\ 0 < 99 # 1 /\ 0 < 1776 # 1 /\ 0 < 856 # 1)%Q /\
   let r := (calculateImageSize (100 # 1) (99 # 1) (1776 # 1) (856 # 1))%Q in
   let s := (fit_scale (100 # 1) (99 # 1) (1776 # 1) (856 # 1))%Q in
   (width r == (100 # 1) * s /\ height r == (99 # 1) * s /\
    width r <= 1776 # 1 /\ height r <= 856 # 1 /\
    width r / height r == (100 # 1) / (99 # 1) /\
    (width r == 1776 # 1 \/ height r == 856 # 1))%Q)
  /\
  ((1 <= 3 <= 2048)%Z /\ (1 <= 413 <= 2048)%Z /\
   fits_within_ulp (float_of_Z 3) (float_of_Z 413) = true /\
   keeps_ratio_within_two_ulps (float_of_Z 3) (float_of_Z 413) = true).
Proof.
  split.
  - split.
    + repeat split.
    + apply (proj1 (proj2 calculateImageSize_exact_fit)); reflexivity.
  - split; [lia | split; [lia |]].
    apply (proj2 (proj2 calculateImageSize_exact_fit)); lia.
Defined.

(** ** Binary64, for all numbers *)

Lemma SFcompare_refl (x : spec_float) :
  SFcompare x x = match x with S754_nan => None | _ => Some Eq end.
Proof.
  destruct x as [s | s | | s m e]; try reflexivity.
  - destruct s; reflexivity.
  - cbn [SFcompare]. rewrite Z.compare_refl.
    change (PosDef.Pos.compare_cont Eq m m) with (Pos.compare m m).
    rewrite Pos.compare_refl. destruct s; reflexivity.
Qed.

Lemma is_nan_spec (x : float) :
  PrimFloat.is_nan x = match Prim2SF x with S754_nan => true | _ => false end.
Proof.
  unfold PrimFloat.is_nan. rewrite FloatAxioms.eqb_spec. unfold SFeqb. rewrite SFcompare_refl.
  destruct (Prim2SF x); reflexivity.
Qed.

Lemma is_zero_spec (x : float) :
  PrimFloat.is_zero x = match Prim2SF x with S754_zero _ => true | _ => false end.
Proof.
  unfold PrimFloat.is_zero. rewrite FloatAxioms.eqb_spec.
  change (Prim2SF PrimFloat.zero) with (S754_zero false).
  destruct (Prim2SF x) as [s | s | | s m e]; try reflexivity; destruct s; reflexivity.
Qed.

(** The sign of a zero is the sign JavaScript's [Math.min] looks at. *)
Lemma get_sign_zero (x : float) (s : bool) :
  Prim2SF x = S754_zero s -> PrimFloat.get_sign x = s.
Proof.
  intros E. unfold PrimFloat.get_sign. rewrite is_zero_spec, E.
  rewrite FloatAxioms.ltb_spec, FloatAxioms.div_spec, E.
  change (Prim2SF PrimFloat.one) with (S754_finite false 4503599627370496 (-52)).
  change (Prim2SF PrimFloat.zero) with (S754_zero false).
  destruct s; reflexivity.
Qed.

(** [Math.min] does not care for the order of its arguments. *)
Lemma float_min_comm (a b : float) : float_min a b = float_min b a.
Proof.
  unfold float_min. rewrite !is_nan_spec, !is_zero_spec, !FloatAxioms.ltb_spec.
  unfold SFltb.
  destruct (Prim2SF a) as [sa | sa | | sa ma ea] eqn:A;
    destruct (Prim2SF b) as [sb | sb | | sb mb eb] eqn:B;
    cbn [orb andb SFcompare]; try reflexivity.
  - (* two zeros *)
    rewrite (@get_sign_zero a sa A), (@get_sign_zero b sb B).
    destruct sa, sb; try reflexivity;
      (assert (E : a = b) by (apply FloatAxioms.Prim2SF_inj; rewrite A, B; reflexivity);
       rewrite E; reflexivity).
  - destruct sb; reflexivity.
  - destruct sb; reflexivity.
  - destruct sa; reflexivity.
  - (* two infinities *)
    destruct sa, sb; try reflexivity;
      (assert (E : a = b) by (apply FloatAxioms.Prim2SF_inj; rewrite A, B; reflexivity);
       rewrite E; reflexivity).
  - destruct sa; reflexivity.
  - destruct sa; reflexivity.
  - destruct sb; reflexivity.
  - (* two finite numbers *)
    change (PosDef.Pos.compare_cont Eq ma mb) with (Pos.compare ma mb).
    change (PosDef.Pos.compare_cont Eq mb ma) with (Pos.compare mb ma).
    rewrite (Z.compare_antisym ea eb), (Pos.compare_antisym ma mb).
    destruct sa, sb; try reflexivity;
      destruct (Z.compare_spec ea eb) as [Ee | Ee | Ee]; cbn [CompOpp]; try reflexivity;
      destruct (Pos.compare_spec ma mb) as [Em | Em | Em]; cbn [CompOpp]; try reflexivity;
      (assert (E : a = b) by (apply FloatAxioms.Prim2SF_inj; rewrite A, B, Ee, Em; reflexivity);
       rewrite E; reflexivity).
Qed.

(** X22: transposing the image and the box transposes the result. In
    binary64 and for all numbers, zeros, infinities and [NaN] included,
    [calculateImageSize h w boxH boxW] is [calculateImageSize w h boxW boxH]
    with width and height exchanged. *)
Theorem calculateImageSize_binary64_transpose (w h boxW boxH : float) :
  calculateImageSize h w boxH boxW = transpose (calculateImageSize w h boxW boxH).
Proof.
  unfold calculateImageSize, transpose. cbn [width height Math_min num_div num_mul binary64].
  rewrite (float_min_comm (PrimFloat.div boxH h) (PrimFloat.div boxW w)). reflexivity.
Qed.

(** [Math.min] returns one of its arguments, or [NaN]. *)
Lemma float_min_cases (a b : float) :
  float_min a b = PrimFloat.nan \/ float_min a b = a \/ float_min a b = b.
Proof.
  unfold float_min.
  destruct (PrimFloat.is_nan a || PrimFloat.is_nan b)%bool; [left; reflexivity |].
  destruct (PrimFloat.ltb a b); [right; left; reflexivity |].
  destruct (PrimFloat.ltb b a); [right; right; reflexivity |].
  destruct (PrimFloat.is_zero a && PrimFloat.get_sign b)%bool;
    [right; right | right; left]; reflexivity.
Qed.

(** A number that is [NaN] or infinite. *)
Lemma div_by_zero (a b : float) :
  PrimFloat.is_zero b = true ->
  match Prim2SF (PrimFloat.div a b) with
  | S754_nan | S754_infinity _ => True
  | _ => False
  end.
Proof.
  rewrite is_zero_spec, FloatAxioms.div_spec. intros Z.
  destruct (Prim2SF b) as [sb | sb | | sb mb eb]; try discriminate Z.
  destruct (Prim2SF a) as [sa | sa | | sa ma ea]; exact I.
Qed.

Lemma div_nan (a b : float) :
  (PrimFloat.is_nan a || PrimFloat.is_nan b)%bool = true ->
  PrimFloat.is_nan (PrimFloat.div a b) = true.
Proof.
  rewrite !is_nan_spec, FloatAxioms.div_spec. intros N.
  destruct (Prim2SF a) as [sa | sa | | sa ma ea];
    destruct (Prim2SF b) as [sb | sb | | sb mb eb];
    try discriminate N; reflexivity.
Qed.

Lemma mul_nan_r (x s : float) :
  PrimFloat.is_nan s = true -> PrimFloat.is_nan (PrimFloat.mul x s) = true.
Proof.
  rewrite !is_nan_spec, FloatAxioms.mul_spec. intros N.
  destruct (Prim2SF s) as [ss | ss | | ss ms es]; try discriminate N.
  destruct (Prim2SF x); reflexivity.
Qed.

Lemma mul_zero_unbounded (x s : float) :
  PrimFloat.is_zero x = true ->
  match Prim2SF s with S754_nan | S754_infinity _ => True | _ => False end ->
  PrimFloat.is_nan (PrimFloat.mul x s) = true.
Proof.
  rewrite is_zero_spec, is_nan_spec, FloatAxioms.mul_spec. intros Z U.
  destruct (Prim2SF x) as [sx | sx | | sx mx ex]; try discriminate Z.
  destruct (Prim2SF s) as [ss | ss | | ss ms es]; try contradiction U; reflexivity.
Qed.

Lemma float_min_nan (a b : float) :
  (PrimFloat.is_nan a || PrimFloat.is_nan b)%bool = true ->
  PrimFloat.is_nan (float_min a b) = true.
Proof. intros N. unfold float_min. rewrite N. reflexivity. Qed.

(** X23: among the sizes the check of [getImageDimensions] keeps out: in
    binary64, when one of the four numbers is [NaN], or the image is zero
    by zero, both dimensions [calculateImageSize] returns are [NaN],
    whatever the other numbers are. *)
Theorem calculateImageSize_binary64_degenerate (w h boxW boxH : float) :
  degenerate w h boxW boxH = true ->
  PrimFloat.is_nan (width (calculateImageSize w h boxW boxH)) = true
  /\ PrimFloat.is_nan (height (calculateImageSize w h boxW boxH)) = true.
Proof.
  unfold degenerate. intros D.
  cbn [calculateImageSize width height Math_min num_div num_mul binary64].
  apply orb_prop in D. destruct D as [D | D].
  - (* a NaN among the inputs: the scale factor is NaN *)
    assert (S : PrimFloat.is_nan (float_min (PrimFloat.div boxW w) (PrimFloat.div boxH h))
                = true).
    { apply float_min_nan.
      destruct (PrimFloat.is_nan w) eqn:Nw;
        [rewrite (@div_nan boxW w); [reflexivity | rewrite Nw; apply orb_true_r] |].
      destruct (PrimFloat.is_nan h) eqn:Nh;
        [rewrite (@div_nan boxH h); [apply orb_true_r | rewrite Nh; apply orb_true_r] |].
      destruct (PrimFloat.is_nan boxW) eqn:NW;
        [rewrite (@div_nan boxW w); [reflexivity | rewrite NW; reflexivity] |].
      destruct (PrimFloat.is_nan boxH) eqn:NH; [| discriminate D].
      rewrite (@div_nan boxH h); [apply orb_true_r | rewrite NH; reflexivity]. }
    split; apply mul_nan_r; exact S.
  - (* zero by zero: both ratios are NaN or infinite, and so is the scale factor *)
    apply andb_prop in D. destruct D as [Zw Zh].
    pose proof (@div_by_zero boxW w Zw) as Rw.
    pose proof (@div_by_zero boxH h Zh) as Rh.
    assert (S : match Prim2SF (float_min (PrimFloat.div boxW w) (PrimFloat.div boxH h)) with
                | S754_nan | S754_infinity _ => True
                | _ => False
                end).
    { destruct (float_min_cases (PrimFloat.div boxW w) (PrimFloat.div boxH h))
        as [E | [E | E]]; rewrite E; [exact I | exact Rw | exact Rh]. }
    split; apply mul_zero_unbounded; assumption.
Qed.

Lemma calculateImageSize_binary64_degenerate_witness :
  degenerate 0 0 1776 856 = true /\
  PrimFloat.is_nan (width (calculateImageSize 0%float 0%float 1776%float 856%float)) = true.
Proof.
  split; [reflexivity |].
  exact (proj1 (@calculateImageSize_binary64_degenerate 0 0 1776 856 eq_refl)).
Defined.

(** ** Rounding to nearest keeps the order *)

(** The operations of binary64 are specified by [SpecFloat]: a product
    or quotient is computed exactly, shifted to the 53 digits of the
    format with a round and a sticky bit, and rounded to nearest, ties to
    even. What follows shows that the result is a float nearest to the
    exact value, and so that multiplication and division by a positive
    number keep the order. *)

Section Rounding64.
Local Open Scope Z_scope.
Local Unset Implicit Arguments.

Lemma pow2_pos (k : Z) : 0 <= k -> 0 < 2 ^ k.
Proof. intros H. apply Z.pow_pos_nonneg; lia. Qed.

Lemma pow2_succ (k : Z) : 0 <= k -> 2 ^ (k + 1) = 2 * 2 ^ k.
Proof. intros H. rewrite Z.pow_add_r by lia. change (2 ^ 1) with 2. lia. Qed.

Lemma pow2_le (a c : Z) : 0 <= a <= c -> 2 ^ a <= 2 ^ c.
Proof. intros H. apply Z.pow_le_mono_r; lia. Qed.

Lemma pow2_lt (a c : Z) : 0 <= a < c -> 2 ^ a < 2 ^ c.
Proof. intros H. apply Z.pow_lt_mono_r; lia. Qed.

Lemma digits2_pos_bounds (p : positive) :
  2 ^ (Zpos (digits2_pos p) - 1) <= Zpos p < 2 ^ Zpos (digits2_pos p).
Proof.
  induction p as [p IH | p IH |]; cbn [digits2_pos].
  - rewrite Pos2Z.inj_succ, Pos2Z.inj_xI.
    replace (Z.succ (Zpos (digits2_pos p)) - 1) with (Zpos (digits2_pos p) - 1 + 1) by lia.
    rewrite pow2_succ by lia. unfold Z.succ. rewrite pow2_succ by lia. lia.
  - rewrite Pos2Z.inj_succ, Pos2Z.inj_xO.
    replace (Z.succ (Zpos (digits2_pos p)) - 1) with (Zpos (digits2_pos p) - 1 + 1) by lia.
    rewrite pow2_succ by lia. unfold Z.succ. rewrite pow2_succ by lia. lia.
  - cbn. lia.
Qed.

(** A mantissa below [2 ^ k] has at most [k] digits, and one of at
    least [2 ^ k] has more. *)
Lemma Zdigits2_le (m k : Z) : 0 <= m -> 0 <= k -> m < 2 ^ k -> Zdigits2 m <= k.
Proof.
  intros Hm Hk H. destruct m as [| p | p]; [cbn; lia | | lia].
  cbn [Zdigits2]. pose proof (digits2_pos_bounds p) as [L _].
  destruct (Z_le_gt_dec (Zpos (digits2_pos p)) k) as [|G]; [assumption |].
  assert (2 ^ k <= 2 ^ (Zpos (digits2_pos p) - 1)) by (apply pow2_le; lia). lia.
Qed.

Lemma Zdigits2_gt (m k : Z) : 0 <= k -> 2 ^ k <= m -> k < Zdigits2 m.
Proof.
  intros Hk H. assert (0 < 2 ^ k) by (apply pow2_pos; lia).
  destruct m as [| p | p]; [lia | | lia].
  cbn [Zdigits2]. pose proof (digits2_pos_bounds p) as [_ U].
  destruct (Z_lt_le_dec k (Zpos (digits2_pos p))) as [|G]; [assumption |].
  assert (2 ^ (Zpos (digits2_pos p)) <= 2 ^ k) by (apply pow2_le; lia). lia.
Qed.

Lemma Zdigits2_bounds (m : Z) :
  0 < m -> 2 ^ (Zdigits2 m - 1) <= m < 2 ^ Zdigits2 m.
Proof. intros H. destruct m as [| p | p]; try lia. apply digits2_pos_bounds. Qed.

Lemma unit_at_pos (b D e : Z) : 0 < D -> b <= e -> 0 < unit_at b D e.
Proof. intros HD He. unfold unit_at. pose proof (pow2_pos (e - b)). nia. Qed.

Lemma unit_at_succ (b D e : Z) : b <= e -> unit_at b D (e + 1) = 2 * unit_at b D e.
Proof.
  intros He. unfold unit_at. replace (e + 1 - b) with (e - b + 1) by lia.
  rewrite pow2_succ by lia. ring.
Qed.

Section Shift.
Variables N D b : Z.
Hypothesis D_pos : 0 < D.

(** One shift to the right keeps the value. *)
Lemma shr_1_represents (mrs : shr_record) (e : Z) :
  b <= e -> represents N D b mrs e -> represents N D b (shr_1 mrs) (e + 1).
Proof.
  intros He. unfold represents. rewrite (unit_at_succ b D e He).
  pose proof (unit_at_pos b D e D_pos He) as U. revert U.
  generalize (unit_at b D e). intros u U.
  destruct mrs as [m r s]. cbn [shr_m shr_r shr_s]. intros [Hm R].
  destruct m as [| p | p]; [| | lia].
  - cbn [shr_1 shr_m shr_r shr_s]. split; [lia |].
    destruct r, s; cbn [orb]; lia.
  - destruct p as [p | p |]; cbn [shr_1 shr_m shr_r shr_s]; (split; [lia |]).
    + rewrite Pos2Z.inj_xI in R.
      assert (X : 0 < Zpos p * u) by nia. revert R X.
      replace ((2 * Zpos p + 1) * u) with (2 * (Zpos p * u) + u) by ring.
      replace ((2 * Zpos p + 1 + 1) * u) with (2 * (Zpos p * u) + 2 * u) by ring.
      replace (Zpos p * (2 * u)) with (2 * (Zpos p * u)) by ring.
      replace ((Zpos p + 1) * (2 * u)) with (2 * (Zpos p * u) + 2 * u) by ring.
      generalize (Zpos p * u). intros x R X.
      destruct r, s; cbn [orb]; lia.
    + rewrite Pos2Z.inj_xO in R.
      assert (X : 0 < Zpos p * u) by nia. revert R X.
      replace ((2 * Zpos p) * u) with (2 * (Zpos p * u)) by ring.
      replace ((2 * Zpos p + 1) * u) with (2 * (Zpos p * u) + u) by ring.
      replace (Zpos p * (2 * u)) with (2 * (Zpos p * u)) by ring.
      replace ((Zpos p + 1) * (2 * u)) with (2 * (Zpos p * u) + 2 * u) by ring.
      generalize (Zpos p * u). intros x R X.
      destruct r, s; cbn [orb]; lia.
    + destruct r, s; cbn [orb]; lia.
Qed.

Lemma iter_pos_shr_1_represents (n : positive) :
  forall (mrs : shr_record) (e : Z),
    b <= e -> represents N D b mrs e ->
    represents N D b (SpecFloat.iter_pos shr_1 n mrs) (e + Zpos n).
Proof.
  induction n as [n IH | n IH |]; intros mrs e He R; cbn [SpecFloat.iter_pos].
  - replace (e + Zpos n~1) with (e + 1 + Zpos n + Zpos n) by lia.
    apply IH; [lia |]. apply IH; [lia |]. apply shr_1_represents; assumption.
  - replace (e + Zpos n~0) with (e + Zpos n + Zpos n) by lia.
    apply IH; [lia |]. apply IH; assumption.
  - apply shr_1_represents; assumption.
Qed.

(** Shifting by [n] places keeps the value. *)
Lemma shr_represents (mrs : shr_record) (e n : Z) :
  b <= e -> represents N D b mrs e ->
  represents N D b (fst (shr mrs e n)) (snd (shr mrs e n))
  /\ snd (shr mrs e n) = e + Z.max n 0.
Proof.
  intros He R. destruct n as [| p | p]; cbn [shr fst snd].
  - split; [exact R | lia].
  - split; [apply iter_pos_shr_1_represents; assumption | lia].
  - split; [exact R | lia].
Qed.
End Shift.

Lemma fexp_spec (e : Z) : fexp prec emax e = Z.max (e - 53) (-1074).
Proof. reflexivity. Qed.

Lemma represents_bounds (N D b : Z) (mrs : shr_record) (e : Z) :
  0 < D -> b <= e -> represents N D b mrs e ->
  shr_m mrs * unit_at b D e <= N < (shr_m mrs + 1) * unit_at b D e.
Proof.
  intros HD He [Hm R]. pose proof (unit_at_pos b D e HD He) as U.
  cbv zeta in R. revert R.
  replace ((shr_m mrs + 1) * unit_at b D e) with (shr_m mrs * unit_at b D e + unit_at b D e)
    by ring.
  generalize (shr_m mrs * unit_at b D e). intros x R.
  destruct (shr_r mrs), (shr_s mrs); lia.
Qed.

Lemma represents_of_loc_nonneg (N D b m e : Z) (l : location) :
  represents N D b (shr_record_of_loc m l) e -> 0 <= m.
Proof. intros [Hm _]. destruct l as [| []]; exact Hm. Qed.

Lemma unit_at_shift (b D e n : Z) :
  b <= e -> 0 <= n -> unit_at b D (e + n) = 2 ^ n * unit_at b D e.
Proof.
  intros He Hn. unfold unit_at. replace (e + n - b) with (n + (e - b)) by lia.
  rewrite Z.pow_add_r by lia. ring.
Qed.

Lemma round_nearest_even_cases (m : Z) (l : location) :
  round_nearest_even m l = m \/ round_nearest_even m l = m + 1.
Proof.
  destruct l as [| []]; cbn [round_nearest_even]; auto.
  destruct (Z.even m); auto.
Qed.

Section Round.
Variables N D b : Z.
Hypothesis D_pos : 0 < D.

Lemma shr_fexp_small (m e : Z) :
  0 <= m < 2 ^ 53 -> -1074 <= e ->
  shr_fexp prec emax m e loc_Exact = (Build_shr_record m false false, e).
Proof.
  intros Hm He. unfold shr_fexp. rewrite fexp_spec.
  pose proof (Zdigits2_le m 53 ltac:(lia) ltac:(lia) ltac:(lia)) as Hd.
  cbn [shr_record_of_loc].
  destruct (Z.max (Zdigits2 m + e - 53) (-1074) - e) as [| p | p] eqn:E; try reflexivity.
  lia.
Qed.

Lemma shr_fexp_carry (e : Z) :
  -1074 <= e ->
  shr_fexp prec emax (2 ^ 53) e loc_Exact = (Build_shr_record (2 ^ 52) false false, e + 1).
Proof.
  intros He. unfold shr_fexp. rewrite fexp_spec.
  change (Zdigits2 (2 ^ 53)) with 54.
  replace (Z.max (54 + e - 53) (-1074) - e) with 1 by lia.
  reflexivity.
Qed.

(** What [binary_round_aux] computes, for a mantissa that is not shifted
    to the left. *)
Lemma binary_round_aux_cases (m e : Z) (l : location) :
  b <= e ->
  e <= fexp prec emax (Zdigits2 m + e) ->
  represents N D b (shr_record_of_loc m l) e ->
  exists (m' : Z) (r s : bool),
    let e' := fexp prec emax (Zdigits2 m + e) in
    represents N D b (Build_shr_record m' r s) e'
    /\ 0 <= m' < 2 ^ 53
    /\ (-1074 < e' -> 2 ^ 52 <= m')
    /\ binary_round_aux prec emax false m e l = rounded m' r s e'.
Proof.
  intros He Hf R.
  pose proof (represents_of_loc_nonneg _ _ _ _ _ _ R) as Hm.
  pose proof (represents_bounds N D b _ e D_pos He R) as B0.
  replace (shr_m (shr_record_of_loc m l)) with m in B0 by (destruct l as [| []]; reflexivity).
  unfold binary_round_aux.
  assert (S1 : shr_fexp prec emax m e l
               = shr (shr_record_of_loc m l) e (fexp prec emax (Zdigits2 m + e) - e))
    by reflexivity.
  rewrite S1.
  destruct (shr_represents N D b D_pos (shr_record_of_loc m l) e
              (fexp prec emax (Zdigits2 m + e) - e) He R) as [R' E'].
  destruct (shr (shr_record_of_loc m l) e (fexp prec emax (Zdigits2 m + e) - e))
    as [mrs' e1]. cbn [fst snd] in R', E'.
  replace (e + Z.max (fexp prec emax (Zdigits2 m + e) - e) 0)
    with (fexp prec emax (Zdigits2 m + e)) in E' by lia.
  subst e1. destruct mrs' as [m' r s].
  set (e' := fexp prec emax (Zdigits2 m + e)) in *.
  assert (He' : b <= e') by lia.
  pose proof (represents_bounds N D b _ e' D_pos He' R') as B1.
  cbn [shr_m] in B1.
  assert (Hm' : 0 <= m') by (destruct R' as [H _]; exact H).
  set (n := e' - e). assert (Hn : 0 <= n) by (unfold n; lia).
  replace e' with (e + n) in B1 by (unfold n; lia).
  rewrite (unit_at_shift b D e n He Hn) in B1.
  pose proof (unit_at_pos b D e D_pos He) as U.
  pose proof (pow2_pos n Hn) as Pn.
  assert (L1 : m' * 2 ^ n <= m) by nia.
  assert (L2 : m < (m' + 1) * 2 ^ n) by nia.
  assert (Emin : -1074 <= e') by (unfold e'; rewrite fexp_spec; lia).
  assert (Hlt : m' < 2 ^ 53).
  { destruct (Z.eq_dec m 0) as [Z | NZ]; [nia |].
    pose proof (Zdigits2_bounds m ltac:(lia)) as [_ Ud].
    assert (Hd : 0 < Zdigits2 m) by (destruct m; cbn; lia).
    destruct (Z_le_gt_dec (Zdigits2 m) 53) as [Le | Gt].
    - assert (2 ^ Zdigits2 m <= 2 ^ 53) by (apply pow2_le; lia). nia.
    - assert (Hn' : Zdigits2 m - 53 <= n)
        by (unfold n, e'; rewrite fexp_spec; lia).
      assert (2 ^ (Zdigits2 m - 53) <= 2 ^ n) by (apply pow2_le; lia).
      assert (2 ^ Zdigits2 m = 2 ^ 53 * 2 ^ (Zdigits2 m - 53))
        by (rewrite <- Z.pow_add_r by lia; f_equal; lia).
      assert (0 < 2 ^ (Zdigits2 m - 53)) by (apply pow2_pos; lia).
      nia. }
  assert (Hge : -1074 < e' -> 2 ^ 52 <= m').
  { intros G. unfold e' in G. rewrite fexp_spec in G.
    assert (Ee : e' = Zdigits2 m + e - 53) by (unfold e'; rewrite fexp_spec; lia).
    assert (NZ : 0 < m) by (destruct m; cbn [Zdigits2] in *; lia).
    pose proof (Zdigits2_bounds m NZ) as [Ld _].
    assert (En : Zdigits2 m - 1 = 52 + n) by (unfold n; lia).
    rewrite En in Ld. rewrite Z.pow_add_r in Ld by lia. nia. }
  exists m', r, s. split; [exact R' |]. split; [lia |]. split; [exact Hge |].
  unfold rounded. cbn [shr_m].
  set (m'' := round_nearest_even m' (loc_of_shr_record (Build_shr_record m' r s))).
  assert (C : m'' = m' \/ m'' = m' + 1) by apply round_nearest_even_cases.
  destruct (Z.ltb_spec m'' (2 ^ 53)) as [Lt | Ge].
  - rewrite (shr_fexp_small m'' e') by lia. cbn [shr_m]. unfold float_of.
    destruct m'' as [| p | p]; [reflexivity | | lia].
    cbn [Z.eqb Z.to_pos]. reflexivity.
  - assert (E2 : m'' = 2 ^ 53) by lia. rewrite E2.
    rewrite (shr_fexp_carry e') by lia. reflexivity.
Qed.
End Round.

(** The mantissa and exponent of a valid finite float. *)
Lemma bounded_spec (m : positive) (e : Z) :
  bounded prec emax m e = true ->
  -1074 <= e <= 971 /\ Zpos m < 2 ^ 53 /\ (-1074 < e -> 2 ^ 52 <= Zpos m).
Proof.
  unfold bounded, canonical_mantissa. intros H. apply andb_prop in H. destruct H as [C B].
  apply Z.eqb_eq in C. apply Z.leb_le in B. rewrite fexp_spec in C.
  change (emax - prec) with 971 in B.
  pose proof (digits2_pos_bounds m) as [L U].
  assert (Hd : 0 < Zpos (digits2_pos m)) by lia.
  split; [lia |]. split.
  - assert (2 ^ Zpos (digits2_pos m) <= 2 ^ 53) by (apply pow2_le; lia). lia.
  - intros G. replace (Zpos (digits2_pos m) - 1) with 52 in L by lia. exact L.
Qed.

Lemma pow2_split (a c : Z) : 0 <= a -> 0 <= c -> 2 ^ (a + c) = 2 ^ a * 2 ^ c.
Proof. intros. apply Z.pow_add_r; assumption. Qed.

Section Nearest.
Variables N D b : Z.
Hypothesis D_pos : 0 < D.
Hypothesis b_low : b <= -1074.

(** No float lies strictly between a mantissa of the format and its
    successor. *)
Lemma no_float_between (m' e' : Z) (g : spec_float) :
  -1074 <= e' -> 0 <= m' < 2 ^ 53 -> (-1074 < e' -> 2 ^ 52 <= m') ->
  SFnonneg g = true -> valid_binary g = true ->
  SFvalue b g * D <= m' * unit_at b D e'
  \/ (m' + 1) * unit_at b D e' <= SFvalue b g * D.
Proof.
  intros He' Hm' Hn' Hg Vg.
  assert (U : 0 < unit_at b D e') by (apply unit_at_pos; lia).
  destruct g as [sg | sg | | sg mg eg]; try discriminate Hg.
  - left. cbn [SFvalue]. nia.
  - (* infinity *)
    cbn [SFvalue]. change emax with 1024. unfold unit_at in *.
    destruct (Z_le_gt_dec e' 971) as [Le | Gt].
    + right. replace (1024 - b) with ((971 - e') + (53 + (e' - b))) by lia.
      rewrite !pow2_split by lia.
      assert (0 < 2 ^ (971 - e')) by (apply pow2_pos; lia).
      assert (0 < 2 ^ (e' - b)) by (apply pow2_pos; lia).
      assert (m' + 1 <= 2 ^ 53) by lia.
      assert ((m' + 1) * (2 ^ (e' - b) * D) <= 2 ^ 53 * (2 ^ (e' - b) * D)) by nia.
      assert (1 * (2 ^ 53 * (2 ^ (e' - b) * D))
              <= 2 ^ (971 - e') * (2 ^ 53 * (2 ^ (e' - b) * D))) by nia.
      nia.
    + left. specialize (Hn' ltac:(lia)).
      replace (e' - b) with ((e' - 972) + (972 - b)) by lia.
      replace (1024 - b) with (52 + (972 - b)) by lia.
      rewrite !pow2_split by lia.
      assert (0 < 2 ^ (e' - 972)) by (apply pow2_pos; lia).
      assert (0 < 2 ^ (972 - b)) by (apply pow2_pos; lia).
      assert (2 ^ 52 * (2 ^ (972 - b) * D) <= m' * (2 ^ (972 - b) * D)) by nia.
      assert (1 * (m' * (2 ^ (972 - b) * D)) <= 2 ^ (e' - 972) * (m' * (2 ^ (972 - b) * D)))
        by nia.
      nia.
  - (* a finite float *)
    cbn [SpecFloat.valid_binary] in Vg.
    destruct (bounded_spec mg eg Vg) as (Be & Bm & Bn).
    cbn [SFvalue]. unfold unit_at in *.
    destruct (Z_le_gt_dec e' eg) as [Le | Gt].
    + replace (eg - b) with ((eg - e') + (e' - b)) by lia.
      rewrite pow2_split by lia.
      assert (0 < 2 ^ (eg - e')) by (apply pow2_pos; lia).
      set (k := Zpos mg * 2 ^ (eg - e')).
      replace (Zpos mg * (2 ^ (eg - e') * 2 ^ (e' - b)) * D)
        with (k * (2 ^ (e' - b) * D)) by (unfold k; ring).
      destruct (Z_le_gt_dec k m'); [left | right]; nia.
    + left. specialize (Hn' ltac:(lia)).
      replace (e' - b) with ((e' - eg - 1) + (1 + (eg - b))) by lia.
      rewrite !pow2_split by lia. change (2 ^ 1) with 2.
      assert (0 < 2 ^ (e' - eg - 1)) by (apply pow2_pos; lia).
      assert (0 < 2 ^ (eg - b)) by (apply pow2_pos; lia).
      set (w := 2 ^ (eg - b) * D). assert (0 < w) by (unfold w; nia).
      replace (Zpos mg * 2 ^ (eg - b) * D) with (Zpos mg * w) by (unfold w; ring).
      replace (m' * (2 ^ (e' - eg - 1) * (2 * 2 ^ (eg - b)) * D))
        with (2 ^ (e' - eg - 1) * (2 * m' * w)) by (unfold w; ring).
      assert (Zpos mg * w <= 2 * m' * w) by nia.
      assert (1 * (2 * m' * w) <= 2 ^ (e' - eg - 1) * (2 * m' * w)) by nia.
      lia.
Qed.

(** Every float is at most infinity. *)
Lemma value_le_infinity (g : spec_float) :
  SFnonneg g = true -> valid_binary g = true ->
  SFvalue b g * D <= 2 ^ (1024 - b) * D.
Proof.
  intros Hg Vg. assert (0 < 2 ^ (1024 - b)) by (apply pow2_pos; lia).
  destruct g as [sg | sg | | sg mg eg]; try discriminate Hg; cbn [SFvalue].
  - nia.
  - change emax with 1024. lia.
  - cbn [SpecFloat.valid_binary] in Vg.
    destruct (bounded_spec mg eg Vg) as (Be & Bm & Bn).
    replace (1024 - b) with ((971 - eg) + (53 + (eg - b))) by lia.
    rewrite !pow2_split by lia.
    assert (0 < 2 ^ (971 - eg)) by (apply pow2_pos; lia).
    assert (0 < 2 ^ (eg - b)) by (apply pow2_pos; lia).
    set (w := 2 ^ (eg - b) * D). assert (0 < w) by (unfold w; nia).
    replace (Zpos mg * 2 ^ (eg - b) * D) with (Zpos mg * w) by (unfold w; ring).
    replace (2 ^ (971 - eg) * (2 ^ 53 * 2 ^ (eg - b)) * D)
      with (2 ^ (971 - eg) * (2 ^ 53 * w)) by (unfold w; ring).
    assert (Zpos mg * w <= 2 ^ 53 * w) by nia.
    assert (1 * (2 ^ 53 * w) <= 2 ^ (971 - eg) * (2 ^ 53 * w)) by nia.
    lia.
Qed.

(** The value of the float a mantissa and an exponent make: the
    mantissa's, or infinity's when that is no larger. *)
Lemma float_of_value (m e : Z) :
  0 <= m -> -1074 <= e -> (971 < e -> 2 ^ 52 <= m) ->
  SFnonneg (float_of m e) = true
  /\ (SFvalue b (float_of m e) * D = m * unit_at b D e
      \/ SFvalue b (float_of m e) * D = 2 ^ (1024 - b) * D
         /\ 2 ^ (1024 - b) * D <= m * unit_at b D e).
Proof.
  intros Hm He Hb. unfold float_of, unit_at.
  destruct (Z.eqb_spec m 0) as [Z | NZ].
  - subst m. split; [reflexivity |]. left. reflexivity.
  - destruct (Z.leb_spec e 971) as [Le | Gt].
    + split; [reflexivity |]. left. cbn [SFvalue]. rewrite Z2Pos.id by lia. ring.
    + split; [reflexivity |]. right. cbn [SFvalue]. change emax with 1024.
      split; [reflexivity |]. specialize (Hb Gt).
      replace (e - b) with ((e - 972) + (972 - b)) by lia.
      replace (1024 - b) with (52 + (972 - b)) by lia.
      rewrite !pow2_split by lia.
      assert (0 < 2 ^ (e - 972)) by (apply pow2_pos; lia).
      assert (0 < 2 ^ (972 - b)) by (apply pow2_pos; lia).
      set (w := 2 ^ (972 - b) * D). assert (0 < w) by (unfold w; nia).
      replace (2 ^ 52 * 2 ^ (972 - b) * D) with (2 ^ 52 * w) by (unfold w; ring).
      replace (m * (2 ^ (e - 972) * 2 ^ (972 - b) * D))
        with (2 ^ (e - 972) * (m * w)) by (unfold w; ring).
      assert (2 ^ 52 * w <= m * w) by nia.
      assert (1 * (m * w) <= 2 ^ (e - 972) * (m * w)) by nia.
      lia.
Qed.

(** The rounded float is a nearest one: no float is nearer to the
    value. *)
Lemma rounded_nearest (m' : Z) (r s : bool) (e' : Z) (g : spec_float) :
  -1074 <= e' -> 0 <= m' < 2 ^ 53 -> (-1074 < e' -> 2 ^ 52 <= m') ->
  represents N D b (Build_shr_record m' r s) e' ->
  SFnonneg g = true -> valid_binary g = true ->
  SFnonneg (rounded m' r s e') = true
  /\ Z.abs (SFvalue b (rounded m' r s e') * D - N) <= Z.abs (SFvalue b g * D - N).
Proof.
  intros He' Hm' Hn' R Hg Vg.
  pose proof (no_float_between m' e' g He' Hm' Hn' Hg Vg) as Gap.
  pose proof (value_le_infinity g Hg Vg) as Top.
  assert (U : 0 < unit_at b D e') by (apply unit_at_pos; lia).
  unfold rounded.
  set (m'' := round_nearest_even m' (loc_of_shr_record (Build_shr_record m' r s))).
  (* the rounded mantissa is the nearer of the two *)
  assert (Near : (m'' = m' \/ m'' = m' + 1)
                 /\ Z.abs (m'' * unit_at b D e' - N) <= Z.abs (m' * unit_at b D e' - N)
                 /\ Z.abs (m'' * unit_at b D e' - N)
                    <= Z.abs ((m' + 1) * unit_at b D e' - N)
                 /\ m' * unit_at b D e' <= N <= (m' + 1) * unit_at b D e').
  { destruct R as [_ R]. cbn [shr_m shr_r shr_s] in R. cbv zeta in R.
    unfold m''. revert R.
    replace ((m' + 1) * unit_at b D e') with (m' * unit_at b D e' + unit_at b D e') by ring.
    destruct r, s; cbn [loc_of_shr_record round_nearest_even]; intros R.
    - split; [right; reflexivity |].
      replace ((m' + 1) * unit_at b D e') with (m' * unit_at b D e' + unit_at b D e') by ring.
      lia.
    - destruct (Z.even m').
      + split; [left; reflexivity |]. lia.
      + split; [right; reflexivity |].
        replace ((m' + 1) * unit_at b D e') with (m' * unit_at b D e' + unit_at b D e')
          by ring.
        lia.
    - split; [left; reflexivity |]. lia.
    - split; [left; reflexivity |]. lia. }
  destruct Near as (Cm & N1 & N2 & Bd).
  assert (V : SFnonneg (if m'' <? 2 ^ 53 then float_of m'' e' else float_of (2 ^ 52) (e' + 1))
              = true
              /\ (SFvalue b (if m'' <? 2 ^ 53 then float_of m'' e'
                             else float_of (2 ^ 52) (e' + 1)) * D
                  = m'' * unit_at b D e'
                  \/ SFvalue b (if m'' <? 2 ^ 53 then float_of m'' e'
                                else float_of (2 ^ 52) (e' + 1)) * D
                     = 2 ^ (1024 - b) * D
                     /\ 2 ^ (1024 - b) * D <= m'' * unit_at b D e')).
  { destruct (Z.ltb_spec m'' (2 ^ 53)) as [Lt | Ge].
    - apply float_of_value; lia.
    - assert (E2 : m'' = 2 ^ 53) by lia.
      destruct (float_of_value (2 ^ 52) (e' + 1)) as [Nn Val]; [lia | lia | lia |].
      split; [exact Nn |].
      rewrite unit_at_succ in Val by lia. rewrite E2.
      replace (2 ^ 53 * unit_at b D e') with (2 ^ 52 * (2 * unit_at b D e'))
        by (change (2 ^ 53) with (2 ^ 52 * 2); ring).
      exact Val. }
  destruct V as [Nn Val]. split; [exact Nn |].
  revert Gap Top N1 N2 Bd Val.
  generalize (SFvalue b (if m'' <? 2 ^ 53 then float_of m'' e'
                         else float_of (2 ^ 52) (e' + 1)) * D).
  generalize (SFvalue b g * D). generalize (2 ^ (1024 - b) * D).
  replace ((m' + 1) * unit_at b D e') with (m' * unit_at b D e' + unit_at b D e') by ring.
  destruct Cm as [Cm | Cm]; rewrite Cm;
    replace ((m' + 1) * unit_at b D e') with (m' * unit_at b D e' + unit_at b D e') by ring;
    generalize (m' * unit_at b D e'); intros lo INF G X; lia.
Qed.
End Nearest.

Lemma SFval_nonneg (x : spec_float) : 0 <= SFval x.
Proof.
  unfold SFval. destruct x as [s | s | | s m e]; cbn [SFvalue]; try lia.
  all: try (apply Z.pow_nonneg; lia).
  all: assert (0 <= 2 ^ (e - -2148)) by (apply Z.pow_nonneg; lia); nia.
Qed.

Lemma SFval_finite_pos (s : bool) (m : positive) (e : Z) :
  -1074 <= e -> 0 < SFval (S754_finite s m e).
Proof.
  intros He. unfold SFval. cbn [SFvalue].
  assert (0 < 2 ^ (e - -2148)) by (apply pow2_pos; lia). nia.
Qed.

(** Among valid floats the one with the smaller exponent is the
    smaller. *)
Lemma SFval_exponent_lt (s1 s2 : bool) (m1 m2 : positive) (e1 e2 : Z) :
  bounded prec emax m1 e1 = true -> bounded prec emax m2 e2 = true ->
  e1 < e2 -> SFval (S754_finite s1 m1 e1) < SFval (S754_finite s2 m2 e2).
Proof.
  intros B1 B2 L.
  destruct (bounded_spec m1 e1 B1) as (Be1 & Bm1 & _).
  destruct (bounded_spec m2 e2 B2) as (Be2 & _ & Bn2).
  specialize (Bn2 ltac:(lia)). unfold SFval. cbn [SFvalue].
  replace (e2 - -2148) with ((e2 - e1 - 1) + (1 + (e1 - -2148))) by lia.
  rewrite !pow2_split by lia. change (2 ^ 1) with 2.
  assert (0 < 2 ^ (e2 - e1 - 1)) by (apply pow2_pos; lia).
  assert (0 < 2 ^ (e1 - -2148)) by (apply pow2_pos; lia).
  set (w := 2 ^ (e1 - -2148)) in *.
  assert (Zpos m1 * w < 2 * Zpos m2 * w) by nia.
  assert (1 * (2 * Zpos m2 * w) <= 2 ^ (e2 - e1 - 1) * (2 * Zpos m2 * w)) by nia.
  nia.
Qed.

Lemma SFval_finite_lt_infinity (s s' : bool) (m : positive) (e : Z) :
  bounded prec emax m e = true ->
  SFval (S754_finite s m e) < SFval (S754_infinity s').
Proof.
  intros B. destruct (bounded_spec m e B) as (Be & Bm & _).
  unfold SFval. cbn [SFvalue]. change emax with 1024.
  replace (1024 - -2148) with ((971 - e) + (53 + (e - -2148))) by lia.
  rewrite !pow2_split by lia.
  assert (0 < 2 ^ (971 - e)) by (apply pow2_pos; lia).
  assert (0 < 2 ^ (e - -2148)) by (apply pow2_pos; lia).
  set (w := 2 ^ (e - -2148)) in *.
  assert (Zpos m * w < 2 ^ 53 * w) by nia.
  assert (1 * (2 ^ 53 * w) <= 2 ^ (971 - e) * (2 ^ 53 * w)) by nia.
  nia.
Qed.

(** Comparison of floats that are not negative is comparison of their
    values. *)
Lemma SFcompare_value (x y : spec_float) :
  SFnonneg x = true -> SFnonneg y = true ->
  valid_binary x = true -> valid_binary y = true ->
  SFcompare x y = Some (SFval x ?= SFval y).
Proof.
  intros Nx Ny Vx Vy.
  assert (I : 0 < SFval (S754_infinity false))
    by (unfold SFval; cbn [SFvalue]; apply pow2_pos; change emax with 1024; lia).
  assert (Z0 : SFval (S754_zero false) = 0) by reflexivity.
  assert (C : forall (c : comparison) (a b : Z),
            match c with Eq => a = b | Lt => a < b | Gt => a > b end ->
            Some c = Some (a ?= b)).
  { intros c a b H. f_equal. symmetry. destruct c.
    - apply Z.compare_eq_iff; exact H.
    - apply Z.compare_lt_iff; exact H.
    - apply Z.compare_gt_iff; lia. }
  destruct x as [sx | sx | | sx mx ex]; try discriminate Nx;
    destruct y as [sy | sy | | sy my ey]; try discriminate Ny;
    cbn [SFnonneg] in Nx, Ny; apply negb_true_iff in Nx, Ny; subst sx sy;
    cbn [SpecFloat.valid_binary] in Vx, Vy; cbn [SFcompare]; apply C.
  - reflexivity.
  - lia.
  - pose proof (SFval_finite_pos false my ey). destruct (bounded_spec my ey Vy). lia.
  - lia.
  - reflexivity.
  - pose proof (SFval_finite_lt_infinity false false my ey Vy). lia.
  - pose proof (SFval_finite_pos false mx ex). destruct (bounded_spec mx ex Vx). lia.
  - pose proof (SFval_finite_lt_infinity false false mx ex Vx). lia.
  - destruct (Z.compare_spec ex ey) as [E | L | G].
    + subst ey. rewrite Pos.compare_cont_spec.
      unfold SFval. cbn [SFvalue].
      destruct (bounded_spec mx ex Vx) as (Be & _ & _).
      assert (P : 0 < 2 ^ (ex - -2148)) by (apply pow2_pos; lia).
      destruct (Pos.compare_spec mx my) as [E' | L' | G']; cbn [Pos.switch_Eq]; cbv beta iota.
      * subst my. reflexivity.
      * assert (Zpos mx < Zpos my) by lia. nia.
      * assert (Zpos my < Zpos mx) by lia. nia.
    + cbv beta iota. apply SFval_exponent_lt; assumption.
    + cbv beta iota. apply Z.lt_gt. apply SFval_exponent_lt; assumption.
Qed.

(** Floats that are not negative and have the same value are the same. *)
Lemma SFval_inj (x y : spec_float) :
  SFnonneg x = true -> SFnonneg y = true ->
  valid_binary x = true -> valid_binary y = true ->
  SFval x = SFval y -> x = y.
Proof.
  intros Nx Ny Vx Vy E.
  assert (I : 0 < SFval (S754_infinity false))
    by (unfold SFval; cbn [SFvalue]; apply pow2_pos; change emax with 1024; lia).
  assert (Z0 : SFval (S754_zero false) = 0) by reflexivity.
  destruct x as [sx | sx | | sx mx ex]; try discriminate Nx;
    destruct y as [sy | sy | | sy my ey]; try discriminate Ny;
    cbn [SFnonneg] in Nx, Ny; apply negb_true_iff in Nx, Ny; subst sx sy;
    cbn [SpecFloat.valid_binary] in Vx, Vy; try reflexivity.
  - lia.
  - pose proof (SFval_finite_pos false my ey). destruct (bounded_spec my ey Vy). lia.
  - lia.
  - pose proof (SFval_finite_lt_infinity false false my ey Vy). lia.
  - pose proof (SFval_finite_pos false mx ex). destruct (bounded_spec mx ex Vx). lia.
  - pose proof (SFval_finite_lt_infinity false false mx ex Vx). lia.
  - destruct (Z.lt_trichotomy ex ey) as [L | [Ee | G]].
    + pose proof (SFval_exponent_lt false false mx my ex ey Vx Vy L). lia.
    + subst ey. unfold SFval in E. cbn [SFvalue] in E.
      destruct (bounded_spec mx ex Vx) as (Be & _ & _).
      assert (P : 0 < 2 ^ (ex - -2148)) by (apply pow2_pos; lia).
      assert (Zpos mx = Zpos my) by nia.
      assert (mx = my) by lia. subst my. reflexivity.
    + pose proof (SFval_exponent_lt false false my mx ey ex Vy Vx G). lia.
Qed.

Lemma pow2_2148_pos : 0 < 2 ^ 2148.
Proof. apply pow2_pos. lia. Qed.

(** The product of two positive floats is a float nearest to the product
    of their values. *)
Lemma SFmul_nearest (mw mr : positive) (ew er : Z) (g : spec_float) :
  bounded prec emax mw ew = true -> bounded prec emax mr er = true ->
  SFnonneg g = true -> valid_binary g = true ->
  let X := SFmul prec emax (S754_finite false mw ew) (S754_finite false mr er) in
  let N := SFval (S754_finite false mw ew) * SFval (S754_finite false mr er) in
  SFnonneg X = true
  /\ Z.abs (SFval X * 2 ^ 2148 - N) <= Z.abs (SFval g * 2 ^ 2148 - N).
Proof.
  intros Bw Br Ng Vg X N. subst X. cbn [SFmul xorb].
  destruct (bounded_spec mw ew Bw) as (Bew & Bmw & Bnw).
  destruct (bounded_spec mr er Br) as (Ber & Bmr & Bnr).
  assert (Hf : ew + er <= fexp prec emax (Zdigits2 (Zpos (mw * mr)) + (ew + er))).
  { rewrite fexp_spec. destruct (Z_le_gt_dec (ew + er) (-1074)) as [Le | Gt]; [lia |].
    assert (P : 2 ^ 52 <= Zpos (mw * mr)).
    { rewrite Pos2Z.inj_mul.
      destruct (Z_le_gt_dec ew (-1074)) as [Lw | Gw].
      - specialize (Bnr ltac:(lia)). nia.
      - specialize (Bnw ltac:(lia)). nia. }
    pose proof (Zdigits2_gt (Zpos (mw * mr)) 52 ltac:(lia) P). lia. }
  assert (R : represents N (2 ^ 2148) (-2148)
                (shr_record_of_loc (Zpos (mw * mr)) loc_Exact) (ew + er)).
  { split; [cbn; lia |]. cbv zeta. cbn [shr_record_of_loc shr_m shr_r shr_s].
    unfold N, SFval, unit_at. cbn [SFvalue].
    assert (P : 2 ^ (ew - -2148) * 2 ^ (er - -2148) = 2 ^ (ew + er - -2148) * 2 ^ 2148)
      by (rewrite <- !pow2_split by lia; f_equal; lia).
    rewrite Pos2Z.inj_mul.
    replace (Zpos mw * Zpos mr * (2 ^ (ew + er - -2148) * 2 ^ 2148))
      with (Zpos mw * Zpos mr * (2 ^ (ew - -2148) * 2 ^ (er - -2148)))
      by (rewrite P; reflexivity).
    ring. }
  destruct (binary_round_aux_cases N (2 ^ 2148) (-2148) pow2_2148_pos
              (Zpos (mw * mr)) (ew + er) loc_Exact ltac:(lia) Hf R)
    as (m' & r & s & R' & Bm' & Bn' & E).
  cbv zeta in R', Bn', E. rewrite E.
  apply (rounded_nearest N (2 ^ 2148) (-2148) pow2_2148_pos ltac:(lia) m' r s _ g);
    try assumption.
  rewrite fexp_spec. lia.
Qed.

Lemma shiftl_nonneg (m s : Z) :
  0 <= s ->
  match s with Zpos _ => Z.shiftl m s | Z0 => m | Zneg _ => 0 end = m * 2 ^ s.
Proof.
  intros Hs. destruct s as [| p | p]; [cbn; lia | | lia].
  apply Z.shiftl_mul_pow2. lia.
Qed.

(** The place of a remainder [r] of a division by [m2], as the round and
    sticky bits say it. *)
Lemma new_location_spec (m2 r : Z) :
  0 < m2 -> 0 <= r < m2 ->
  match new_location m2 r with
  | loc_Exact => r = 0
  | loc_Inexact Lt => 0 < r /\ 2 * r < m2
  | loc_Inexact Eq => 2 * r = m2
  | loc_Inexact Gt => m2 < 2 * r
  end.
Proof.
  intros Hm Hr. unfold new_location, new_location_even, new_location_odd.
  destruct (Z.even m2) eqn:Ev.
  - destruct (Z.eqb_spec r 0) as [Z | NZ]; [exact Z |].
    destruct (Z.compare_spec (2 * r) m2); lia.
  - destruct (Z.eqb_spec r 0) as [Z | NZ]; [exact Z |].
    assert (Od : Z.odd m2 = true) by (rewrite <- Z.negb_even, Ev; reflexivity).
    apply Z.odd_spec in Od. destruct Od as [k Od].
    destruct (Z.compare_spec (2 * r + 1) m2); lia.
Qed.

(** The quotient of two positive floats is a float nearest to the
    quotient of their values. *)
Lemma SFdiv_nearest (ma mw : positive) (ea ew : Z) (g : spec_float) :
  bounded prec emax ma ea = true -> bounded prec emax mw ew = true ->
  SFnonneg g = true -> valid_binary g = true ->
  let X := SFdiv prec emax (S754_finite false ma ea) (S754_finite false mw ew) in
  let N := SFval (S754_finite false ma ea) * 2 ^ 2148 in
  let D := SFval (S754_finite false mw ew) in
  SFnonneg X = true
  /\ Z.abs (SFval X * D - N) <= Z.abs (SFval g * D - N).
Proof.
  intros Ba Bw Ng Vg X N D. subst X. cbn [SFdiv xorb].
  destruct (bounded_spec ma ea Ba) as (Bea & Bma & Bna).
  destruct (bounded_spec mw ew Bw) as (Bew & Bmw & Bnw).
  assert (HD : 0 < D) by (apply SFval_finite_pos; lia).
  unfold SFdiv_core_binary.
  set (d1 := Zdigits2 (Zpos ma)). set (d2 := Zdigits2 (Zpos mw)).
  set (e' := Z.min (fexp prec emax (d1 + ea - (d2 + ew))) (ea - ew)).
  set (s := ea - ew - e').
  assert (Hs : 0 <= s) by (unfold s, e'; lia).
  rewrite (shiftl_nonneg (Zpos ma) s Hs).
  pose proof (Z_div_mod (Zpos ma * 2 ^ s) (Zpos mw) ltac:(lia)) as DM.
  destruct (Z.div_eucl (Zpos ma * 2 ^ s) (Zpos mw)) as [q r].
  destruct DM as [Eq Hr].
  assert (Ps : 0 < 2 ^ s) by (apply pow2_pos; exact Hs).
  assert (Hq : 0 <= q) by nia.
  assert (He' : -2148 <= e') by (unfold e'; rewrite fexp_spec; lia).
  pose proof (Zdigits2_bounds (Zpos ma) ltac:(lia)) as [L1 U1]. fold d1 in L1, U1.
  pose proof (Zdigits2_bounds (Zpos mw) ltac:(lia)) as [L2 U2]. fold d2 in L2, U2.
  assert (Hd1 : 0 < d1) by (unfold d1; cbn; lia).
  assert (Hd2 : 0 < d2) by (unfold d2; cbn; lia).
  assert (Hf : e' <= fexp prec emax (Zdigits2 q + e')).
  { rewrite fexp_spec. destruct (Z_le_gt_dec e' (-1074)) as [Le | Gt]; [lia |].
    assert (Ee : e' <= d1 + ea - (d2 + ew) - 53)
      by (unfold e' in *; rewrite fexp_spec in *; lia).
    assert (Sg : d2 + 52 <= d1 - 1 + s) by (unfold s; lia).
    assert (P1 : 2 ^ (d2 + 52) <= 2 ^ (d1 - 1 + s)) by (apply pow2_le; lia).
    rewrite !pow2_split in P1 by lia.
    assert (P2 : 2 ^ 52 <= q).
    { assert (0 < 2 ^ d2) by (apply pow2_pos; lia).
      assert (2 ^ d2 * 2 ^ 52 <= Zpos ma * 2 ^ s) by nia.
      assert (Zpos mw * 2 ^ 52 < Zpos mw * (q + 1)) by nia.
      nia. }
    pose proof (Zdigits2_gt q 52 ltac:(lia) P2). lia. }
  assert (R : represents N D (-2148) (shr_record_of_loc q (new_location (Zpos mw) r)) e').
  { assert (K : 0 < 2 ^ (e' - -2148) * 2 ^ (ew - -2148)).
    { assert (0 < 2 ^ (e' - -2148)) by (apply pow2_pos; lia).
      assert (0 < 2 ^ (ew - -2148)) by (apply pow2_pos; lia). nia. }
    assert (EN : N = (Zpos mw * q + r) * (2 ^ (e' - -2148) * 2 ^ (ew - -2148))).
    { unfold N, SFval. cbn [SFvalue]. rewrite <- Eq.
      replace (ea - -2148) with (s + (e' - -2148) + ew) by (unfold s; lia).
      assert (P : 2 ^ (s + (e' - -2148) + ew) * 2 ^ 2148
                  = 2 ^ s * (2 ^ (e' - -2148) * 2 ^ (ew - -2148)))
        by (rewrite <- !pow2_split by lia; f_equal; lia).
      rewrite <- Z.mul_assoc, P. ring. }
    assert (EU : unit_at (-2148) D e'
                 = Zpos mw * (2 ^ (e' - -2148) * 2 ^ (ew - -2148))).
    { unfold unit_at, D, SFval. cbn [SFvalue]. ring. }
    pose proof (new_location_spec (Zpos mw) r ltac:(lia) Hr) as Loc.
    unfold represents. rewrite EU, EN. revert K.
    generalize (2 ^ (e' - -2148) * 2 ^ (ew - -2148)). intros k K.
    destruct (new_location (Zpos mw) r) as [| []];
      cbn [shr_record_of_loc shr_m shr_r shr_s]; (split; [exact Hq |]); cbv zeta; nia. }
  destruct (binary_round_aux_cases N D (-2148) HD q e'
              (new_location (Zpos mw) r) He' Hf R)
    as (m' & r' & s' & R' & Bm' & Bn' & E).
  cbv zeta in R', Bn', E. rewrite E.
  apply (rounded_nearest N D (-2148) HD ltac:(lia) m' r' s' _ g); try assumption.
  rewrite fexp_spec. lia.
Qed.

(** Of two values, each with a nearest float, the smaller value has the
    smaller float. *)
Lemma nearest_monotone (N1 N2 D x1 x2 : Z) :
  0 < D -> N1 < N2 ->
  Z.abs (x1 * D - N1) <= Z.abs (x2 * D - N1) ->
  Z.abs (x2 * D - N2) <= Z.abs (x1 * D - N2) ->
  x1 <= x2.
Proof.
  intros HD L A1 A2. destruct (Z_le_gt_dec x1 x2) as [| G]; [assumption | exfalso].
  assert (x2 * D < x1 * D) by nia.
  revert A1 A2 H. generalize (x1 * D), (x2 * D). intros a1 a2 A1 A2 H. lia.
Qed.

Lemma finite_positive_spec (x : float) :
  finite_positive x = true ->
  exists (m : positive) (e : Z),
    Prim2SF x = S754_finite false m e /\ bounded prec emax m e = true.
Proof.
  unfold finite_positive. intros H. apply andb_prop in H. destruct H as [P F].
  rewrite FloatAxioms.ltb_spec in P, F.
  pose proof (Prim2SF_valid x) as V.
  change (Prim2SF 0) with (S754_zero false) in P.
  change (Prim2SF PrimFloat.infinity) with (S754_infinity false) in F.
  destruct (Prim2SF x) as [s | s | | s m e].
  - discriminate P.
  - destruct s; [discriminate P | discriminate F].
  - discriminate P.
  - destruct s; [discriminate P |]. exists m, e. split; [reflexivity | exact V].
Qed.

Lemma finite_positive_nonneg (x : float) : finite_positive x = true -> fnonneg x = true.
Proof.
  intros H. destruct (finite_positive_spec x H) as (m & e & E & _).
  unfold fnonneg. rewrite E. reflexivity.
Qed.

(** Comparison of floats that are not negative is comparison of their
    values. *)
Lemma leb_fval (x y : float) :
  fnonneg x = true -> fnonneg y = true ->
  PrimFloat.leb x y = true <-> fval x <= fval y.
Proof.
  intros Nx Ny. rewrite FloatAxioms.leb_spec. unfold SFleb.
  rewrite (SFcompare_value _ _ Nx Ny (Prim2SF_valid x) (Prim2SF_valid y)).
  fold (fval x) (fval y).
  destruct (Z.compare_spec (fval x) (fval y)); split; intros; try lia; try reflexivity;
    discriminate.
Qed.

Lemma ltb_fval (x y : float) :
  fnonneg x = true -> fnonneg y = true ->
  PrimFloat.ltb x y = true <-> fval x < fval y.
Proof.
  intros Nx Ny. rewrite FloatAxioms.ltb_spec. unfold SFltb.
  rewrite (SFcompare_value _ _ Nx Ny (Prim2SF_valid x) (Prim2SF_valid y)).
  fold (fval x) (fval y).
  destruct (Z.compare_spec (fval x) (fval y)); split; intros; try lia; try reflexivity;
    discriminate.
Qed.

Lemma fval_inj (x y : float) :
  fnonneg x = true -> fnonneg y = true -> fval x = fval y -> x = y.
Proof.
  intros Nx Ny E. apply Prim2SF_inj.
  exact (SFval_inj _ _ Nx Ny (Prim2SF_valid x) (Prim2SF_valid y) E).
Qed.

Lemma fval_le_infinity (x : float) :
  fnonneg x = true -> fval x <= 2 ^ (1024 - -2148).
Proof.
  intros Nx.
  pose proof (value_le_infinity 1 (-2148) ltac:(lia) ltac:(lia) (Prim2SF x) Nx
                (Prim2SF_valid x)) as H.
  unfold fval, SFval. lia.
Qed.

(** Division by a positive number keeps the order. *)
Lemma div_monotone (a1 a2 w : float) :
  finite_positive a1 = true -> finite_positive a2 = true -> finite_positive w = true ->
  fval a1 <= fval a2 ->
  fnonneg (a1 / w) = true /\ fnonneg (a2 / w) = true
  /\ fval (a1 / w) <= fval (a2 / w).
Proof.
  intros F1 F2 Fw L.
  destruct (finite_positive_spec a1 F1) as (m1 & e1 & E1 & B1).
  destruct (finite_positive_spec a2 F2) as (m2 & e2 & E2 & B2).
  destruct (finite_positive_spec w Fw) as (mw & ew & Ew & Bw).
  assert (Near : forall (a : float) (m : positive) (e : Z) (g : float),
            Prim2SF a = S754_finite false m e -> bounded prec emax m e = true ->
            fnonneg g = true ->
            fnonneg (a / w) = true
            /\ Z.abs (fval (a / w) * fval w - fval a * 2 ^ 2148)
               <= Z.abs (fval g * fval w - fval a * 2 ^ 2148)).
  { intros a m e g Ea Ba Ng. unfold fnonneg, fval.
    rewrite FloatAxioms.div_spec, Ea, Ew.
    exact (SFdiv_nearest m mw e ew (Prim2SF g) Ba Bw Ng (Prim2SF_valid g)). }
  assert (N1 : fnonneg (a1 / w) = true)
    by exact (proj1 (Near a1 m1 e1 a1 E1 B1 (finite_positive_nonneg a1 F1))).
  assert (N2 : fnonneg (a2 / w) = true)
    by exact (proj1 (Near a2 m2 e2 a2 E2 B2 (finite_positive_nonneg a2 F2))).
  split; [exact N1 | split; [exact N2 |]].
  destruct (Z.eq_dec (fval a1) (fval a2)) as [E | NE].
  - rewrite (fval_inj a1 a2 (finite_positive_nonneg a1 F1) (finite_positive_nonneg a2 F2) E).
    lia.
  - assert (Pw : 0 < fval w)
      by (unfold fval; rewrite Ew; apply SFval_finite_pos;
          destruct (bounded_spec mw ew Bw); lia).
    apply (nearest_monotone (fval a1 * 2 ^ 2148) (fval a2 * 2 ^ 2148) (fval w)); [exact Pw | | |].
    + pose proof pow2_2148_pos. nia.
    + exact (proj2 (Near a1 m1 e1 (a2 / w)%float E1 B1 N2)).
    + exact (proj2 (Near a2 m2 e2 (a1 / w)%float E2 B2 N1)).
Qed.

(** Multiplication by a positive number keeps the order. *)
Lemma mul_monotone (w r1 r2 : float) :
  finite_positive w = true -> fnonneg r1 = true -> fnonneg r2 = true ->
  fval r1 <= fval r2 ->
  fnonneg (w * r1) = true /\ fnonneg (w * r2) = true
  /\ fval (w * r1) <= fval (w * r2).
Proof.
  intros Fw N1 N2 L.
  destruct (finite_positive_spec w Fw) as (mw & ew & Ew & Bw).
  assert (Pw : 0 < fval w)
    by (unfold fval; rewrite Ew; apply SFval_finite_pos;
        destruct (bounded_spec mw ew Bw); lia).
  (* the product with a float that is not negative is not negative *)
  assert (Nn : forall r : float, fnonneg r = true -> fnonneg (w * r) = true).
  { intros r Nr. unfold fnonneg in *. rewrite FloatAxioms.mul_spec, Ew.
    pose proof (Prim2SF_valid r) as Vr.
    destruct (Prim2SF r) as [s | s | | s m e]; try discriminate Nr;
      cbn [SFnonneg] in Nr; apply negb_true_iff in Nr; subst s; try reflexivity.
    exact (proj1 (SFmul_nearest mw m ew e (S754_zero false) Bw Vr eq_refl eq_refl)). }
  split; [exact (Nn r1 N1) | split; [exact (Nn r2 N2) |]].
  assert (Near : forall (r g : float) (m : positive) (e : Z),
            Prim2SF r = S754_finite false m e ->
            fnonneg g = true ->
            Z.abs (fval (w * r) * 2 ^ 2148 - fval w * fval r)
            <= Z.abs (fval g * 2 ^ 2148 - fval w * fval r)).
  { intros r g m e Er Ng. unfold fval.
    pose proof (Prim2SF_valid r) as Vr. rewrite Er in Vr.
    rewrite FloatAxioms.mul_spec, Ew, Er.
    exact (proj2 (SFmul_nearest mw m ew e (Prim2SF g) Bw Vr Ng (Prim2SF_valid g))). }
  destruct (Z.eq_dec (fval r1) (fval r2)) as [E | NE].
  { rewrite (fval_inj r1 r2 N1 N2 E). lia. }
  assert (Z1 : forall r s, Prim2SF r = S754_zero s -> fval (w * r) = 0).
  { intros r s Er. unfold fval. rewrite FloatAxioms.mul_spec, Ew, Er. reflexivity. }
  assert (I2 : forall r s, Prim2SF r = S754_infinity s ->
                           fval (w * r) = 2 ^ (1024 - -2148)).
  { intros r s Er. unfold fval. rewrite FloatAxioms.mul_spec, Ew, Er. reflexivity. }
  pose proof (fval_le_infinity (w * r1) (Nn r1 N1)) as T1.
  pose proof (fval_le_infinity r2 N2) as T2.
  assert (P1 : 0 <= fval (w * r1)) by apply SFval_nonneg.
  assert (P2 : 0 <= fval (w * r2)) by apply SFval_nonneg.
  destruct (Prim2SF r1) as [s1 | s1 | | s1 m1 e1] eqn:E1.
  - rewrite (Z1 r1 s1 E1). exact P2.
  - (* r1 is infinite: so is r2 *)
    assert (fval r1 = 2 ^ (1024 - -2148)) by (unfold fval; rewrite E1; reflexivity). lia.
  - unfold fnonneg in N1. rewrite E1 in N1. discriminate N1.
  - assert (S1 : s1 = false)
      by (unfold fnonneg in N1; rewrite E1 in N1; destruct s1; [discriminate N1 | reflexivity]).
    subst s1.
    destruct (Prim2SF r2) as [s2 | s2 | | s2 m2 e2] eqn:E2.
    + (* r2 is zero: r1 is positive *)
      assert (fval r2 = 0) by (unfold fval; rewrite E2; reflexivity).
      assert (0 < fval r1).
      { unfold fval. rewrite E1. apply SFval_finite_pos.
        pose proof (Prim2SF_valid r1) as V. rewrite E1 in V.
        destruct (bounded_spec m1 e1 V); lia. }
      lia.
    + rewrite (I2 r2 s2 E2). exact T1.
    + unfold fnonneg in N2. rewrite E2 in N2. discriminate N2.
    + assert (S2 : s2 = false)
        by (unfold fnonneg in N2; rewrite E2 in N2; destruct s2;
            [discriminate N2 | reflexivity]).
      subst s2.
      apply (nearest_monotone (fval w * fval r1) (fval w * fval r2) (2 ^ 2148)).
      * exact pow2_2148_pos.
      * nia.
      * exact (Near r1 (w * r2)%float m1 e1 E1 (Nn r2 N2)).
      * exact (Near r2 (w * r1)%float m2 e2 E2 (Nn r1 N1)).
Qed.
End Rounding64.

(** ** [calculateImageSize] in binary64: monotone in the box *)

(** [Math.min] of two numbers that are not negative is the smaller. *)
Lemma float_min_value (a b : float) :
  fnonneg a = true -> fnonneg b = true ->
  fnonneg (float_min a b) = true
  /\ fval (float_min a b) = Z.min (fval a) (fval b).
Proof.
  intros Na Nb. unfold float_min. rewrite !is_nan_spec.
  assert (Aa : match Prim2SF a with S754_nan => true | _ => false end = false)
    by (unfold fnonneg in Na; destruct (Prim2SF a); [reflexivity .. | discriminate Na |
                                                      reflexivity]).
  assert (Ab : match Prim2SF b with S754_nan => true | _ => false end = false)
    by (unfold fnonneg in Nb; destruct (Prim2SF b); [reflexivity .. | discriminate Nb |
                                                      reflexivity]).
  rewrite Aa, Ab. cbn [orb].
  pose proof (ltb_fval a b Na Nb) as Lab. pose proof (ltb_fval b a Nb Na) as Lba.
  destruct (PrimFloat.ltb a b).
  - split; [exact Na |]. assert (fval a < fval b)%Z by (apply Lab; reflexivity). lia.
  - destruct (PrimFloat.ltb b a).
    + split; [exact Nb |]. assert (fval b < fval a)%Z by (apply Lba; reflexivity). lia.
    + assert (E : fval a = fval b).
      { destruct (Z.lt_trichotomy (fval a) (fval b)) as [L | [E | G]].
        - apply Lab in L. discriminate L.
        - exact E.
        - apply Lba in G. discriminate G. }
      destruct (PrimFloat.is_zero a && PrimFloat.get_sign b)%bool.
      * split; [exact Nb | lia].
      * split; [exact Na | lia].
Qed.

(** In binary64, for positive finite numbers, a box no smaller on either
    axis gives a fitted size no smaller on either axis. *)
Lemma binary64_monotone (w h boxW1 boxH1 boxW2 boxH2 : float) :
  finite_positive w = true -> finite_positive h = true ->
  finite_positive boxW1 = true -> finite_positive boxH1 = true ->
  finite_positive boxW2 = true -> finite_positive boxH2 = true ->
  PrimFloat.leb boxW1 boxW2 = true -> PrimFloat.leb boxH1 boxH2 = true ->
  PrimFloat.leb (width (calculateImageSize w h boxW1 boxH1))
                (width (calculateImageSize w h boxW2 boxH2)) = true
  /\ PrimFloat.leb (height (calculateImageSize w h boxW1 boxH1))
                   (height (calculateImageSize w h boxW2 boxH2)) = true.
Proof.
  intros Fw Fh FW1 FH1 FW2 FH2 LW LH.
  apply (leb_fval boxW1 boxW2 (finite_positive_nonneg _ FW1) (finite_positive_nonneg _ FW2))
    in LW.
  apply (leb_fval boxH1 boxH2 (finite_positive_nonneg _ FH1) (finite_positive_nonneg _ FH2))
    in LH.
  destruct (div_monotone boxW1 boxW2 w FW1 FW2 Fw LW) as (NW1 & NW2 & DW).
  destruct (div_monotone boxH1 boxH2 h FH1 FH2 Fh LH) as (NH1 & NH2 & DH).
  destruct (@float_min_value _ _ NW1 NH1) as [N1 M1].
  destruct (@float_min_value _ _ NW2 NH2) as [N2 M2].
  assert (Ls : (fval (float_min (boxW1 / w) (boxH1 / h))
                <= fval (float_min (boxW2 / w) (boxH2 / h)))%Z) by lia.
  destruct (mul_monotone w _ _ Fw N1 N2 Ls) as (Pw1 & Pw2 & Mw).
  destruct (mul_monotone h _ _ Fh N1 N2 Ls) as (Ph1 & Ph2 & Mh).
  split.
  - apply (leb_fval _ _ Pw1 Pw2). exact Mw.
  - apply (leb_fval _ _ Ph1 Ph2). exact Mh.
Qed.

(** C10 (amended): [calculateImageSize] is monotone in the box, in the
    binary64 arithmetic the program runs on for positive finite numbers,
    and in exact arithmetic: for fixed positive natural dimensions, a box
    no smaller on either axis gives output no smaller on either axis. In
    exact arithmetic it is also homogeneous: scaling the box by a positive
    [k] scales both output dimensions by [k]. *)
Theorem calculateImageSize_monotone :
  (forall w h boxW1 boxH1 boxW2 boxH2 : float,
     finite_positive w = true -> finite_positive h = true ->
     finite_positive boxW1 = true -> finite_positive boxH1 = true ->
     finite_positive boxW2 = true -> finite_positive boxH2 = true ->
     PrimFloat.leb boxW1 boxW2 = true -> PrimFloat.leb boxH1 boxH2 = true ->
     PrimFloat.leb (width (calculateImageSize w h boxW1 boxH1))
                   (width (calculateImageSize w h boxW2 boxH2)) = true
     /\ PrimFloat.leb (height (calculateImageSize w h boxW1 boxH1))
                      (height (calculateImageSize w h boxW2 boxH2)) = true)
  /\
  (forall w h : Q,
     (0 < w)%Q -> (0 < h)%Q ->
     (forall boxW1 boxH1 boxW2 boxH2 : Q,
        boxW1 <= boxW2 -> boxH1 <= boxH2 ->
        width (calculateImageSize w h boxW1 boxH1)
        <= width (calculateImageSize w h boxW2 boxH2) /\
        height (calculateImageSize w h boxW1 boxH1)
        <= height (calculateImageSize w h boxW2 boxH2))%Q
     /\
     (forall boxW boxH k : Q,
        0 < k ->
        width (calculateImageSize w h (k * boxW) (k * boxH))
          == k * width (calculateImageSize w h boxW boxH) /\
        height (calculateImageSize w h (k * boxW) (k * boxH))
          == k * height (calculateImageSize w h boxW boxH))%Q).
Proof.
  split.
  - exact binary64_monotone.
  - intros w h Hw Hh. exact (@exact_monotone_homogeneous w h Hw Hh).
Qed.

(** An 800 x 600 image in the box of an image page and in the whole
    page, in both arithmetics; and the box of an image page tripled, in
    exact arithmetic. *)
Lemma calculateImageSize_monotone_witness :
  (finite_positive 800 = true /\ finite_positive 600 = true
   /\ finite_positive 1776 = true /\ finite_positive 856 = true
   /\ finite_positive 1920 = true /\ finite_positive 1080 = true
   /\ PrimFloat.leb 1776 1920 = true /\ PrimFloat.leb 856 1080 = true)
  /\ (PrimFloat.leb (width (calculateImageSize 800 600 1776 856)%float)
                    (width (calculateImageSize 800 600 1920 1080)%float) = true
      /\ PrimFloat.leb (height (calculateImageSize 800 600 1776 856)%float)
                       (height (calculateImageSize 800 600 1920 1080)%float) = true)
  /\ ((0 < 800 # 1 /\ 0 < 600 # 1)%Q
      /\ (width (calculateImageSize (800 # 1) (600 # 1) (1776 # 1) (856 # 1))
          <= width (calculateImageSize (800 # 1) (600 # 1) (1920 # 1) (1080 # 1)))%Q
      /\ (width (calculateImageSize (800 # 1) (600 # 1) (3 * (1776 # 1)) (3 * (856 # 1)))
          == 3 * width (calculateImageSize (800 # 1) (600 # 1) (1776 # 1) (856 # 1)))%Q).
Proof.
  destruct calculateImageSize_monotone as [B E].
  split; [repeat split | split].
  - exact (B 800%float 600%float 1776%float 856%float 1920%float 1080%float
             eq_refl eq_refl eq_refl eq_refl eq_refl eq_refl eq_refl eq_refl).
  - destruct (E (800 # 1)%Q (600 # 1)%Q eq_refl eq_refl) as [Mono Hom].
    split; [repeat split | split].
    + exact (proj1 (Mono (1776 # 1)%Q (856 # 1)%Q (1920 # 1)%Q (1080 # 1)%Q
                      ltac:(discriminate) ltac:(discriminate))).
    + exact (proj1 (Hom (1776 # 1)%Q (856 # 1)%Q (3 # 1)%Q eq_refl)).
Defined.

